(** * LieGr: the so(n) generator basis, structure constants, exponential map
      and orthogonality-preserving optimizer of [liegr.py]

    Python integers are modelled as [Z]; numpy arrays as nested lists indexed
    by [Z] with Python's index rules (negative indices wrap once, anything
    else out of range raises [IndexError]); exceptions as an error monad.
    The entries written by [liegr.__init__] are 0, 1 and -1, which float32
    represents exactly, so the arrays [T] and [gamma] hold [Z]. *)

From HB Require Import structures.
From mathcomp Require Import boot order algebra.
From Stdlib Require Import ZArith Lia String Reals Lra.
From Stdlib Require Import ClassicalEpsilon FunctionalExtensionality.

Set Implicit Arguments.
Unset Strict Implicit.
Unset Printing Implicit Defensive.

(** [%R] and the scope of real-valued terms are those of the ring
    operations; [%Re] gives the order and the functions of the real
    numbers of the standard library. *)
Delimit Scope R_scope with Re.
Delimit Scope ring_scope with R.
Bind Scope ring_scope with R.

(** * The program *)

(** ** Python exceptions as an error monad *)

(** An exception is identified by the name of its class. *)
Definition exn : Type := string.

Definition ValueError : exn := "ValueError"%string.
Definition IndexError : exn := "IndexError"%string.
Definition ZeroDivisionError : exn := "ZeroDivisionError"%string.

Inductive res (A : Type) : Type :=
| Ok of A
| Raise of exn.

Arguments Raise {A} _.

Definition bind {A B : Type} (m : res A) (k : A -> res B) : res B :=
  match m with
  | Ok a => k a
  | Raise e => Raise e
  end.

Notation "x <-- m ;; k" := (bind m (fun x => k))
  (at level 61, m at next level, right associativity).

(** A fallible function over a batch: the first failure is the result. *)
Fixpoint map_res (B C : Type) (f : B -> res C) (s : seq B) : res (seq C) :=
  match s with
  | [::] => Ok [::]
  | x :: s' => y <-- f x ;; ys <-- map_res f s' ;; Ok (y :: ys)
  end.

(** ** numpy arrays as nested lists *)

Module Np.
Local Open Scope Z_scope.

Fixpoint zlen {A : Type} (l : list A) : Z :=
  match l with
  | nil => 0
  | _ :: l' => zlen l' + 1
  end.

(** [znth l i] is [l]'s element at a non-negative position. *)
Fixpoint znth {A : Type} (l : list A) (i : Z) : option A :=
  match l with
  | nil => None
  | x :: l' => if i =? 0 then Some x else znth l' (i - 1)
  end.

Fixpoint zupd {A : Type} (l : list A) (i : Z) (v : A) : list A :=
  match l with
  | nil => nil
  | x :: l' => if i =? 0 then v :: l' else x :: zupd l' (i - 1) v
  end.

(** Python's index normalisation: a negative index counts from the end. *)
Definition norm_index (len i : Z) : res Z :=
  let k := if i <? 0 then i + len else i in
  if (0 <=? k) && (k <? len) then Ok k else Raise IndexError.

Definition getitem {A : Type} (l : list A) (i : Z) : res A :=
  k <-- norm_index (zlen l) i ;;
  match znth l k with
  | Some x => Ok x
  | None => Raise IndexError
  end.

(** [setitem_with l i f] replaces element [i] by the result of [f]. *)
Definition setitem_with {A : Type} (l : list A) (i : Z)
    (f : A -> res A) : res (list A) :=
  x <-- getitem l i ;;
  y <-- f x ;;
  k <-- norm_index (zlen l) i ;;
  Ok (zupd l k y).

Definition setitem {A : Type} (l : list A) (i : Z) (v : A) : res (list A) :=
  setitem_with l i (fun _ => Ok v).

Definition mat := list (list Z).
Definition arr3 := list mat.

(** [a[I][i,j]] and [a[I,J,K]] read the same cell of a 3-d array. *)
Definition get2 (m : mat) (i j : Z) : res Z :=
  row <-- getitem m i ;; getitem row j.

Definition get3 (a : arr3) (I i j : Z) : res Z :=
  m <-- getitem a I ;; get2 m i j.

Definition set2 (m : mat) (i j v : Z) : res mat :=
  setitem_with m i (fun row => setitem row j v).

Definition set3 (a : arr3) (I i j v : Z) : res arr3 :=
  setitem_with a I (fun m => set2 m i j v).

(** [repeatz k x] is [k] copies of [x] (none when [k <= 0]). *)
Definition repeatz {A : Type} (k : Z) (x : A) : list A :=
  List.repeat x (Z.to_nat k).

(** [np.zeros([d0,d1,d2])]: negative dimensions are refused. *)
Definition zeros3 (d0 d1 d2 : Z) : res arr3 :=
  if (d0 <? 0) || (d1 <? 0) || (d2 <? 0) then Raise ValueError
  else Ok (repeatz d0 (repeatz d1 (repeatz d2 0))).

(** [range(k)] and [range(k)[lo:]] for [0 <= lo]. *)
Definition range (k : Z) : list Z :=
  List.map Z.of_nat (List.seq 0 (Z.to_nat k)).

Definition range_from (lo k : Z) : list Z :=
  List.map (fun d => lo + Z.of_nat d) (List.seq 0 (Z.to_nat (k - lo))).

(** Matrix arithmetic on nested lists ([np.matmul], [-], [+], scaling). *)
Definition dot (u v : list Z) : Z :=
  List.fold_right Z.add 0
    (List.map (fun p => fst p * snd p) (List.combine u v)).

Definition column (m : mat) (c : nat) : list Z :=
  List.map (fun row => List.nth c row 0) m.

Definition ncols (m : mat) : nat :=
  match m with
  | nil => 0%nat
  | row :: _ => List.length row
  end.

Definition matmul (a b : mat) : mat :=
  List.map (fun row =>
    List.map (fun c => dot row (column b c)) (List.seq 0 (ncols b))) a.

Definition mat_zip (op : Z -> Z -> Z) (a b : mat) : mat :=
  List.map (fun p =>
    List.map (fun q => op (fst q) (snd q)) (List.combine (fst p) (snd p)))
    (List.combine a b).

Definition mat_sub : mat -> mat -> mat := mat_zip Z.sub.
Definition mat_add : mat -> mat -> mat := mat_zip Z.add.

Definition mat_scale (k : Z) (a : mat) : mat :=
  List.map (List.map (Z.mul k)) a.

Definition zero_mat (n : Z) : mat := repeatz n (repeatz n 0).

(** [sum_K coef[K] * Ts[K]] for [n] x [n] matrices. *)
Definition lincomb (n : Z) (coef : list Z) (Ts : arr3) : mat :=
  List.fold_right (fun p acc => mat_add (mat_scale (fst p) (snd p)) acc)
    (zero_mat n) (List.combine coef Ts).

Definition commutator (a b : mat) : mat :=
  mat_sub (matmul a b) (matmul b a).

End Np.

(** ** [liegr.__init__]: generators and structure constants *)

Module Liegr.
Import Np.
Local Open Scope Z_scope.

(** [self.N = int(n*(n-1)/2.)]: the product of two consecutive integers is
    even, so the float quotient is an integer and [int] truncates nothing. *)
Definition dimN (n : Z) : Z := Z.quot (n * (n - 1)) 2.

(** [i*(2*n-i-1)/2], also written [int(i*(n - 0.5*(i+1)))] in the source:
    the number of pairs in the rows above row [i].  [i] and [2n-i-1] have
    opposite parities, so the division is exact. *)
Definition row_start (n i : Z) : Z := i * (2 * n - i - 1) / 2.

(** [int(math.ceil(-0.5+n-np.sqrt((n-0.5)**2 - 2*(I+1))) - 1.)].
    With [E = (2n-1)^2 - 8(I+1)] the argument of [ceil] is
    [(2n-1-sqrt E)/2]; an integer [c] is at least that value exactly when
    [2n-1-2c <= floor (sqrt E)], so the ceiling is computed from the
    integer square root ([row_of_ceil] below).  A negative radicand makes
    [np.sqrt] return nan, on which [math.ceil] raises [ValueError]. *)
Definition row_of (n I : Z) : res Z :=
  let E := (2 * n - 1) * (2 * n - 1) - 8 * (I + 1) in
  if E <? 0 then Raise ValueError
  else Ok (- ((Z.sqrt E + 1 - 2 * n) / 2) - 1).

(** [dist = (I+1.) - i*(2*n-i-1)/2 ; j = int(i+dist)] *)
Definition col_of (n I i : Z) : Z := i + ((I + 1) - row_start n i).

(** [(-1.)**k] *)
Definition minus_one_pow (k : Z) : Z := if Z.even k then 1 else -1.

(** Body of [for I in range(self.N)] building [self.T]. *)
Definition gen_step (n : Z) (T : arr3) (I : Z) : res arr3 :=
  i <-- row_of n I ;;
  let j := col_of n I i in
  T1 <-- set3 T I i j (minus_one_pow (i + j + 1)) ;;
  v <-- get3 T1 I i j ;;
  set3 T1 I j i (- v).

Fixpoint for_each {S : Type} (body : S -> Z -> res S) (l : list Z) (s : S)
    : res S :=
  match l with
  | nil => Ok s
  | x :: l' => s' <-- body s x ;; for_each body l' s'
  end.

Definition build_T (n : Z) : res arr3 :=
  let N := dimN n in
  T0 <-- zeros3 N n n ;;
  for_each (gen_step n) (range N) T0.

(** [K = (a - b + int(b*(n - 0.5*(b+1))) - 1) % self.N] *)
Definition pair_index (n N a b : Z) : res Z :=
  if N =? 0 then Raise ZeroDivisionError
  else Ok ((a - b + row_start n b - 1) mod N).

(** The two writes of one case of the structure-constant loop. *)
Definition gamma_write (g : arr3) (I J K v : Z) : res arr3 :=
  g1 <-- set3 g I J K v ;;
  set3 g1 J I K (- v).

(** One conditional case: [if c: K = ...; gamma[I,J,K] = v; gamma[J,I,K] = -v] *)
Definition gamma_case (n N : Z) (c : bool) (a b v I J : Z) (g : arr3)
    : res arr3 :=
  if c then K <-- pair_index n N a b ;; gamma_write g I J K v
  else Ok g.

(** Body of the inner loop [for J in range(self.N)[I+1:]]. *)
Definition gamma_step (n N I : Z) (g : arr3) (J : Z) : res arr3 :=
  iI <-- row_of n I ;;
  let jI := col_of n I iI in
  iJ <-- row_of n J ;;
  let jJ := col_of n J iJ in
  if (iI =? iJ) && (jI =? jJ) then Ok g
  else
    g1 <-- gamma_case n N (iI =? iJ) jJ jI 1 I J g ;;
    g2 <-- gamma_case n N (jI =? jJ) iJ iI 1 I J g1 ;;
    g3 <-- gamma_case n N (jI =? iJ) jJ iI (-1) I J g2 ;;
    gamma_case n N (iI =? jJ) iJ jI (-1) I J g3.

Definition gamma_row (n N : Z) (g : arr3) (I : Z) : res arr3 :=
  for_each (gamma_step n N I) (range_from (I + 1) N) g.

Definition build_gamma (n : Z) : res arr3 :=
  let N := dimN n in
  g0 <-- zeros3 N N N ;;
  for_each (gamma_row n N) (range N) g0.

(** The part of [liegr.__init__] that builds [self.N], [self.T] and
    [self.gamma]. *)
Record algebra : Type := Algebra {
  alg_n : Z;
  alg_N : Z;
  alg_T : arr3;
  alg_gamma : arr3
}.

Definition init (n : Z) : res algebra :=
  T <-- build_T n ;;
  g <-- build_gamma n ;;
  Ok (Algebra n (dimN n) T g).

(** Closed forms used to state what the loops compute: the pair [(i,j)]
    of generator [I], the index of a pair, and the entries of [T[I]]. *)
Definition pair_of (n I : Z) : Z * Z :=
  match row_of n I with
  | Ok i => (i, col_of n I i)
  | Raise _ => (0, 0)
  end.

Definition pair_idx (n i j : Z) : Z := row_start n i + (j - i - 1).

Definition gen_entry (n I r c : Z) : Z :=
  let: (i, j) := pair_of n I in
  if (r =? i) && (c =? j) then minus_one_pow (i + j + 1)
  else if (r =? j) && (c =? i) then - minus_one_pow (i + j + 1)
  else 0.

(** The pairs [(i,j)], [0 <= i < j < n], in row-major order of the upper
    triangle. *)
Definition upper_pairs (n : Z) : list (Z * Z) :=
  List.flat_map (fun i => List.map (fun j => (i, j)) (range_from (i + 1) n))
    (range n).

(** Closed forms of the structure constants. *)

(** The case of the structure-constant loop that applies to [I < J]: the
    index [K] that is written and the value stored at [gamma[I,J,K]]. *)
Definition gamma_pick (n I J : Z) : option (Z * Z) :=
  let: (iI, jI) := pair_of n I in
  let: (iJ, jJ) := pair_of n J in
  if (iI =? iJ) && (jI =? jJ) then None
  else if iI =? iJ then Some (pair_idx n jI jJ, 1)
  else if jI =? jJ then Some (pair_idx n iI iJ, 1)
  else if jI =? iJ then Some (pair_idx n iI jJ, -1)
  else None.

Definition gamma_upper (n I J K : Z) : Z :=
  match gamma_pick n I J with
  | Some (K', v) => if K =? K' then v else 0
  | None => 0
  end.

Definition gamma_entry (n I J K : Z) : Z :=
  if I <? J then gamma_upper n I J K
  else if J <? I then - gamma_upper n J I K
  else 0.

End Liegr.

(** ** The real numbers as a field of scalars

    float32 and float64 values are modelled as exact real numbers. *)

Module RealField.

Definition eqr (x y : R) : bool := if Req_EM_T x y then true else false.

Lemma eqrP : Equality.axiom eqr.
Proof. by move=> x y; rewrite /eqr; case: Req_EM_T => H; constructor. Qed.

HB.instance Definition _ := hasDecEq.Build R eqrP.

Definition pick (P : pred R) (n : nat) : option R :=
  match excluded_middle_informative (exists x, P x) with
  | left ex => Some (proj1_sig (constructive_indefinite_description _ ex))
  | right _ => None
  end.

Lemma pick_correct (P : pred R) n x : pick P n = Some x -> P x.
Proof.
rewrite /pick; case: excluded_middle_informative => // ex [<-].
exact: (proj2_sig (constructive_indefinite_description _ ex)).
Qed.

Lemma pick_complete (P : pred R) : (exists x, P x) -> exists n, pick P n.
Proof.
by move=> ex; exists 0%nat; rewrite /pick; case: excluded_middle_informative.
Qed.

Lemma pick_ext (P Q : pred R) : P =1 Q -> pick P =1 pick Q.
Proof. by move=> /functional_extensionality ->. Qed.

HB.instance Definition _ :=
  hasChoice.Build R pick_correct pick_complete pick_ext.

Lemma RplusA : associative Rplus.
Proof. by move=> x y z; rewrite Rplus_assoc. Qed.

HB.instance Definition _ := GRing.isZmodule.Build R
  RplusA Rplus_comm Rplus_0_l Rplus_opp_l.

Lemma RmultA : associative Rmult.
Proof. by move=> x y z; rewrite Rmult_assoc. Qed.

Lemma R1_neq0 : R1 != R0.
Proof. by apply/eqP; exact: R1_neq_R0. Qed.

HB.instance Definition _ := GRing.Zmodule_isComNzRing.Build R
  RmultA Rmult_comm Rmult_1_l Rmult_plus_distr_r R1_neq0.

Lemma RinvK (x : R) : x != 0%R -> (Rinv x * x)%R = 1%R.
Proof. by move=> /eqP Hx; apply: Rinv_l. Qed.

HB.instance Definition _ := GRing.ComNzRing_isField.Build R RinvK Rinv_0.

End RealField.
Export RealField.

(** Simplification keeps the ring operations folded, so that the generic
    lemmas still apply to real numbers. *)
Arguments GRing.add : simpl never.
Arguments GRing.mul : simpl never.
Arguments GRing.opp : simpl never.
Arguments GRing.inv : simpl never.
Arguments GRing.zero : simpl never.
Arguments GRing.one : simpl never.

Import GRing.Theory.
Local Open Scope ring_scope.

Section RealOps.

Lemma RaddE (x y : R) : x + y = Rplus x y. Proof. by []. Qed.
Lemma RmulE (x y : R) : x * y = Rmult x y. Proof. by []. Qed.
Lemma RoppE (x : R) : - x = Ropp x. Proof. by []. Qed.
Lemma RinvE (x : R) : x^-1 = Rinv x.
Proof.
have [->|Hx] := eqVneq x 0; first by rewrite invr0 Rinv_0.
by apply: (mulIf Hx); rewrite mulVf // RmulE Rinv_l //; apply/eqP.
Qed.
Lemma R1E : (1 : R) = R1. Proof. by []. Qed.

End RealOps.

(** ** The generators and structure constants as real matrices *)

Import Np Liegr.

Section GeneratorMatrices.

Variable A : algebra.

(** [self.n] and [self.N] as sizes. *)
Definition dim : nat := Z.to_nat (alg_n A).
Definition rank : nat := Z.to_nat (alg_N A).

(** A stored cell of a 3-d array, read at natural positions. *)
Definition cell (a : arr3) (I r c : nat) : Z :=
  match get3 a (Z.of_nat I) (Z.of_nat r) (Z.of_nat c) with
  | Ok v => v
  | Raise _ => 0%Z
  end.

(** [np.float32(self.T)[I]] as a matrix, [np.float32(self.gamma)[I,J,K]]. *)
Definition gen (I : 'I_rank) : 'M[R]_dim :=
  \matrix_(r, c) IZR (cell (alg_T A) I r c).

Definition gam (I J K : 'I_rank) : R := IZR (cell (alg_gamma A) I J K).

(** [x = einsum('jk,ljk->l', X, T) / 2]: the coefficient read-out. *)
Definition coeffs_of (X : 'M[R]_dim) (I : 'I_rank) : R :=
  (\sum_r \sum_c X r c * gen I r c) / 2%:R.

(** [einsum('j,jkl->kl', x, T)]: the algebra element of a coefficient
    vector. *)
Definition alg_mx (x : 'I_rank -> R) : 'M[R]_dim := \sum_I x I *: gen I.

End GeneratorMatrices.

(** ** [OrthoOptimizer]: the orthogonality-preserving update *)

Module Ortho.

Definition InvalidArgumentError : exn := "InvalidArgumentError"%string.

Section Rows.

(** [v.shape[1]] *)
Variable n : nat.

(** What [tf.matrix_inverse] does with a matrix that has no inverse is
    left open by its documentation (it may raise or return garbage); the
    CPU kernel raises [InvalidArgumentError]. *)
Variable on_singular : 'M[R]_n -> res 'M[R]_n.

Definition matrix_inverse (M : 'M[R]_n) : res 'M[R]_n :=
  if M \in unitmx then Ok (invmx M) else on_singular M.

(** [tf.einsum('jk,jl->kl', a, b)], one item of the batch. *)
Definition einsum_jk_jl_kl (a b : 'M[R]_n) : 'M[R]_n :=
  \matrix_(k, l) \sum_j a j k * b j l.

(** [get_grads], one row [var] of the table with its gradient [grad]:
    [mod = part1 - part2]. *)
Definition get_grads_row (var grad : 'M[R]_n) : 'M[R]_n :=
  let part1 := einsum_jk_jl_kl var grad in
  let part2 := einsum_jk_jl_kl grad var in
  part1 - part2.

(** [apply_grads], one row: [update = var . (I - lr*grad/2) . inv(I + lr*grad/2)]. *)
Definition apply_grads_row (lr : R) (grad var : 'M[R]_n) : res 'M[R]_n :=
  let I := 1%:M in
  let mul1 := I - 2%:R^-1 *: (lr *: grad) in
  mul2 <-- matrix_inverse (I + 2%:R^-1 *: (lr *: grad)) ;;
  let mul := mul1 *m mul2 in
  Ok (var *m mul).

End Rows.

Section Table.

Variable n : nat.
Variable on_singular : 'M[R]_n -> res 'M[R]_n.

(** The gradient of the loss with respect to the table: an
    [IndexedSlices] of row indices and per-row gradients. *)
Record indexed_slices : Type := IndexedSlices {
  indices : seq nat;
  values : seq 'M[R]_n
}.

(** [tf.scatter_update(v, indices, update)] *)
Fixpoint scatter_update (v : seq 'M[R]_n) (idx : seq nat)
    (update : seq 'M[R]_n) : seq 'M[R]_n :=
  match idx, update with
  | i :: idx', u :: update' => scatter_update (set_nth 0 v i u) idx' update'
  | _, _ => v
  end.

Definition get_grads (g : indexed_slices) (v : seq 'M[R]_n) :=
  let var := [seq nth 0 v i | i <- indices g] in
  let grad := values g in
  let mod' := [seq get_grads_row p.1 p.2 | p <- zip var grad] in
  (mod', var, v, indices g).

Definition apply_grads (lr : R)
    (grad_and_vars : seq 'M[R]_n * seq 'M[R]_n * seq 'M[R]_n * seq nat)
    : res (seq 'M[R]_n) :=
  let: (grad, var, v, idx) := grad_and_vars in
  update <-- map_res (fun p => apply_grads_row on_singular lr p.1 p.2)
               (zip grad var) ;;
  Ok (scatter_update v idx update).

Definition minimize (lr : R) (g : indexed_slices) (v : seq 'M[R]_n) :=
  apply_grads lr (get_grads g v).

End Table.

End Ortho.

(** ** [OrthoOptimizer] on tensors of any shape *)

Module OrthoGraph.
Import Ortho.

(** The same update with the shapes of the tensors left open, as
    TensorFlow has them.  The operations are first assembled into a graph,
    where an operation whose operands do not fit raises [ValueError]; the
    graph is run afterwards, and only then can the matrix inverse fail. *)

Section Graph.

(** What [tf.matrix_inverse] does with a singular matrix, at every size. *)
Variable on_singular : forall m : nat, 'M[R]_m -> res 'M[R]_m.
















End Graph.

End OrthoGraph.

(** ** The matrix exponential *)

Section ExpSeries.

(** The coefficients [1/k!] and the partial sums of [sum_k X^k / k!]. *)
Definition exp_coef (k : nat) : R := Rinv (INR (fact k)).

Definition exp_psum (n : nat) (X : 'M[R]_n) (m : nat) : 'M[R]_n :=
  \sum_(k < m.+1) exp_coef k *: X ^+ k.

Variable n : nat.
Implicit Types (A X : 'M[R]_n) (b : R).

(** The terms of the series at one entry. *)
Definition exp_term X (i j : 'I_n) (k : nat) : R :=
  exp_coef k * (X ^+ k) i j.

(** [rowbound A b]: every row of [A] has absolute sum at most [b]. *)
Definition rowbound A b : Prop :=
  forall i, (\sum_j Rabs (A i j) <= b)%Re.

Definition mxnorm A : R := \sum_i \sum_j Rabs (A i j).

End ExpSeries.

(** *** Convergence of the series *)

Section ExpCoefficients.

Lemma factE (k : nat) : fact k = k`!.
Proof. by elim: k => [|k IH] //=; rewrite factS -IH. Qed.

Lemma INR_natr (k : nat) : INR k = k%:R.
Proof.
elim: k => [|k IH] //; rewrite S_INR IH -[k.+1]addn1 natrD.
by rewrite RaddE.
Qed.

Lemma RpowE (x : R) (k : nat) : x ^+ k = pow x k.
Proof. by elim: k => [|k IH] //=; rewrite exprS IH. Qed.

Lemma natr_neq0 (k : nat) : (0 < k)%nat -> (k%:R : R) != 0.
Proof.
move=> /ltP Hk; rewrite -INR_natr; apply/eqP; apply: not_0_INR.
by move=> Hk0; rewrite Hk0 in Hk; exact: (Nat.lt_irrefl _ Hk).
Qed.

Lemma exp_coefE (k : nat) : exp_coef k = (k`!%:R)^-1.
Proof. by rewrite /exp_coef factE INR_natr RinvE. Qed.

Lemma exp_coef_ge0 (k : nat) : (0 <= exp_coef k)%Re.
Proof.
by apply: Rlt_le; apply: Rinv_0_lt_compat; apply: INR_fact_lt_0.
Qed.

End ExpCoefficients.

Section RealSums.

Variables (I : Type).
Implicit Types (r : seq I) (P : pred I) (F G : I -> R).

Lemma bigsum_ge0 r P F :
  (forall i, P i -> (0 <= F i)%Re) -> (0 <= \sum_(i <- r | P i) F i)%Re.
Proof.
move=> HF; elim/big_rec: _ => [|i x Pi Hx]; first exact: Rle_refl.
by apply: Rplus_le_le_0_compat => //; apply: HF.
Qed.

Lemma bigsum_le r P F G :
  (forall i, P i -> (F i <= G i)%Re) ->
  (\sum_(i <- r | P i) F i <= \sum_(i <- r | P i) G i)%Re.
Proof.
move=> HFG; elim/big_rec2: _ => [|i x y Pi Hxy]; first exact: Rle_refl.
by apply: Rplus_le_compat => //; apply: HFG.
Qed.

Lemma bigsum_Rabs r P F :
  (Rabs (\sum_(i <- r | P i) F i) <= \sum_(i <- r | P i) Rabs (F i))%Re.
Proof.
elim/big_rec2: _ => [|i x y Pi Hxy]; first by rewrite Rabs_R0; exact: Rle_refl.
apply: Rle_trans (Rabs_triang _ _) _.
by apply: Rplus_le_compat_l.
Qed.

End RealSums.

Section RowBounds.

Variable n : nat.
Implicit Types (A B X : 'M[R]_n) (a b : R).

Lemma mxnorm_ge0 A : (0 <= mxnorm A)%Re.
Proof.
rewrite /mxnorm.
apply: bigsum_ge0 => i _; apply: bigsum_ge0 => j _; exact: Rabs_pos.
Qed.

Lemma rowbound_mxnorm A : rowbound A (mxnorm A).
Proof.
move=> i; rewrite /mxnorm.
have ->: \sum_k \sum_j Rabs (A k j) =
         \sum_j Rabs (A i j) + \sum_(k < n | k != i) \sum_j Rabs (A k j).
  by rewrite (bigD1 i).
set rest := \sum_(k < n | k != i) _.
have Hrest : (0 <= rest)%Re.
  by rewrite /rest; apply: bigsum_ge0 => k _; apply: bigsum_ge0 => j _;
     exact: Rabs_pos.
set s := \sum_j _.
have ->: s + rest = (s + rest)%Re by [].
by Lra.lra.
Qed.

Lemma rowbound_entry A a i j : rowbound A a -> (Rabs (A i j) <= a)%Re.
Proof.
move=> /(_ i); rewrite (bigD1 j) //=.
set rest := \sum_(j0 < n | j0 != j) _.
have Hrest : (0 <= rest)%Re.
  by rewrite /rest; apply: bigsum_ge0 => k _; exact: Rabs_pos.
set s := Rabs _.
have ->: s + rest = (s + rest)%Re by [].
by Lra.lra.
Qed.

Lemma rowbound1 : rowbound (1%:M : 'M[R]_n) 1.
Proof.
move=> i; rewrite (bigD1 i) //= big1 ?addr0.
  move=> j Hj; rewrite !mxE eq_sym (negbTE Hj) /=.
  by rewrite mulr0n Rabs_R0.
by rewrite !mxE eqxx /= Rabs_R1; exact: Rle_refl.
Qed.

Lemma rowbound_mul A B a b :
  rowbound A a -> rowbound B b -> (0 <= b)%Re -> rowbound (A * B) (a * b).
Proof.
move=> HA HB Hb i.
have H1 : (\sum_j Rabs ((A * B) i j) <=
           \sum_j \sum_k Rabs (A i k) * Rabs (B k j))%Re.
  apply: bigsum_le => j _; rewrite mxE.
  apply: Rle_trans (bigsum_Rabs _ _ _) _.
  by apply: bigsum_le => k _; rewrite RmulE Rabs_mult; exact: Rle_refl.
have H2 : \sum_j \sum_k Rabs (A i k) * Rabs (B k j) =
          \sum_k Rabs (A i k) * \sum_j Rabs (B k j).
  by rewrite exchange_big /=; apply: eq_bigr => k _; rewrite mulr_sumr.
have H3 : (\sum_k Rabs (A i k) * \sum_j Rabs (B k j) <=
           \sum_k Rabs (A i k) * b)%Re.
  apply: bigsum_le => k _; rewrite !RmulE.
  by apply: Rmult_le_compat_l; [exact: Rabs_pos|exact: HB].
have H4 : (\sum_k Rabs (A i k) * b <= a * b)%Re.
  rewrite -mulr_suml !RmulE.
  by apply: Rmult_le_compat_r => //; exact: HA.
rewrite H2 in H1.
have H5 := Rle_trans _ _ _ H1 H3.
have H6 := Rle_trans _ _ _ H5 H4.
exact: H6.
Qed.

Lemma pow_ge0 b k : (0 <= b)%Re -> (0 <= b ^+ k)%Re.
Proof. by move=> Hb; rewrite RpowE; apply: pow_le. Qed.

Lemma rowbound_exp X b k :
  rowbound X b -> (0 <= b)%Re -> rowbound (X ^+ k) (b ^+ k).
Proof.
move=> HX Hb; elim: k => [|k IH]; first by rewrite !expr0; exact: rowbound1.
by rewrite !exprS; apply: rowbound_mul => //; exact: pow_ge0.
Qed.

End RowBounds.

Section ExpConvergence.

Variable n : nat.
Implicit Types (X Y : 'M[R]_n).

Lemma exp_term_le X i j k :
  (0 <= Rabs (exp_term X i j k) <=
   Rinv (INR (fact k)) * pow (mxnorm X) k)%Re.
Proof.
split; first exact: Rabs_pos.
rewrite /exp_term RmulE Rabs_mult (Rabs_pos_eq _ (exp_coef_ge0 k)).
apply: Rmult_le_compat_l; first exact: exp_coef_ge0.
rewrite -RpowE; apply: rowbound_entry.
by apply: rowbound_exp (mxnorm_ge0 X); exact: rowbound_mxnorm.
Qed.

(** Every entry of the exponential series converges. *)
Lemma exp_series_cv X (i j : 'I_n) :
  { l : R | Un_cv (fun m => sum_f_R0 (exp_term X i j) m) l }.
Proof.
apply: cv_cauchy_2; apply: cauchy_abs; apply: cv_cauchy_1.
apply: Rseries_CV_comp (exp_term_le X i j) _.
by exists (exp (mxnorm X)); exact: (proj2_sig (exist_exp (mxnorm X))).
Qed.

(** [tf.linalg.expm]: the matrix exponential, the sum of the series
    [sum_k X^k / k!]. *)
Definition expmx X : 'M[R]_n := \matrix_(i, j) sval (exp_series_cv X i j).

End ExpConvergence.

(** ** [liegr.expm] and [liegr._exp_grad] *)

Module ExpMap.
Import Ortho.

Section Maps.

Variable A : algebra.

(** What [tf.matrix_inverse] does with a singular matrix. *)
Variable on_singular : 'M[R]_(rank A) -> res 'M[R]_(rank A).

(** [liegr.expm]: one coefficient row per item;
    [x = einsum('ij,jkl->ikl', alg, T)], [out = tf.linalg.expm(x)]. *)
Definition expm (alg : seq 'rV[R]_(rank A)) : seq 'M[R]_(dim A) :=
  let x := [seq alg_mx (fun j => (a : 'rV[R]_(rank A)) 0 j) | a <- alg] in
  [seq expmx X | X <- x].

(** [deltaq = 1e-4] *)
Definition deltaq : R := (10%:R ^+ 4)^-1.

(** [liegr._exp_grad] on one item: [x_raw] is the item of [op.inputs[0]],
    [y] the item of [op.outputs[0]] and [grad] the item of the upstream
    gradient; the name [grad] is bound again before it is read. *)
Definition exp_grad_item (x_raw y grad : 'M[R]_(dim A))
    : res 'M[R]_(dim A) :=
  let x := coeffs_of x_raw in
  let b : 'M[R]_(rank A) :=
    \matrix_(k, l) (\sum_j x j * gam j k l) + deltaq *: 1%:M in
  let c := 1%:M - expmx (- b) in
  b_inv <-- matrix_inverse on_singular b ;;
  let s := c *m b_inv in
  let t (j : 'I_(rank A)) : 'M[R]_(dim A) :=
    \matrix_(l, m) \sum_k s j k * gen k l m in
  let grad (l : 'I_(rank A)) : 'M[R]_(dim A) :=
    \matrix_(j, m) \sum_k y j k * t l k m in
  let out_vec (l : 'I_(rank A)) : R := \sum_m \sum_j grad l j m in
  let out := \sum_j out_vec j *: gen j in
  Ok out.

(** The batched function: one result per item of [op.inputs[0]].  The
    einsum of [y] with [t] is formed only when [op.outputs[0]] has as many
    items as [op.inputs[0]]; the upstream batch [grad] is never read, so
    its length does not matter. *)
Definition exp_grad (op_inputs op_outputs grad : seq 'M[R]_(dim A))
    : res (seq 'M[R]_(dim A)) :=
  if size op_inputs != size op_outputs then Raise ValueError
  else map_res (fun i => exp_grad_item (nth 0 op_inputs i)
                           (nth 0 op_outputs i) (nth 0 grad i))
         (iota 0 (size op_inputs)).


End Maps.


End ExpMap.

(** ** The loss of [liegr.make_embeddings] *)

Module Embeddings.

Section Loss.

(** [self.n] *)
Variable n : nat.

(** [tf.einsum('jk,jk->', a, b)] for one item of the batch. *)
Definition einsum_jk_jk (a b : 'M[R]_n) : R := \sum_j \sum_k a j k * b j k.

(** [trace = tf.square(tf.einsum('ijk,ijk->i', pairs[:,0], pairs[:,1])
    / self.n)], the entry of one pair. *)
Definition trace (pair : 'M[R]_n * 'M[R]_n) : R :=
  (einsum_jk_jk pair.1 pair.2 / n%:R) ^+ 2.

(** [loss = tf.reduce_sum(tf.abs(trace - similarity))] *)
Definition loss (pairs : seq ('M[R]_n * 'M[R]_n)) (similarity : seq R) : R :=
  \sum_(p <- zip pairs similarity) Rabs (trace p.1 - p.2).

End Loss.

End Embeddings.

(** ** [liegr.chunks]: windows of tokens *)

Module Corpus.
Import Np.
Local Open Scope Z_scope.

(** Python's [range(start, stop, step)]: a zero step is refused; the
    number of elements is that of [len(range(...))]. *)
Definition range3 (start stop step : Z) : res (list Z) :=
  if step =? 0 then Raise ValueError
  else
    let count :=
      if 0 <? step then (stop - start + step - 1) / step
      else (start - stop - step - 1) / (- step) in
    Ok [seq start + Z.of_nat k * step | k <- iota 0 (Z.to_nat count)].

(** A bound of a slice: a negative bound counts from the end, and the
    result is clipped to the list. *)
Definition slice_bound (len i : Z) : Z :=
  let k := if i <? 0 then i + len else i in
  Z.max 0 (Z.min len k).

(** [l[i:j]] *)
Definition slice {A : Type} (l : list A) (i j : Z) : list A :=
  let a := slice_bound (zlen l) i in
  let b := slice_bound (zlen l) j in
  take (Z.to_nat (b - a)) (drop (Z.to_nat a) l).

(** [liegr.chunks]: the chunks that the generator yields, in order. *)
Definition chunks {A : Type} (l : list A) (n : Z) : res (list (list A)) :=
  starts <-- range3 0 (zlen l) n ;;
  Ok [seq slice l i (i + n) | i <- starts].

End Corpus.

(** ** Python dictionaries and [liegr.build_vocab] *)

(** Strings and integers are compared with their decidable equalities. *)
HB.instance Definition _ := hasDecEq.Build string String.eqb_spec.
HB.instance Definition _ := hasDecEq.Build Z Z.eqb_spec.

Definition KeyError : exn := "KeyError"%string.

Module Dict.

Section Defs.

Variables (K : eqType) (V : Type).

(** A dictionary keeps its items in the order in which their keys were
    first inserted. *)
Definition dict : Type := seq (K * V).

(** [d[k] = v] *)
Fixpoint dict_set (d : dict) (k : K) (v : V) : dict :=
  match d with
  | [::] => [:: (k, v)]
  | (k', v') :: d' =>
      if k' == k then (k', v) :: d' else (k', v') :: dict_set d' k v
  end.

(** [d.get(k)] *)
Fixpoint dict_find (d : dict) (k : K) : option V :=
  match d with
  | [::] => None
  | (k', v') :: d' => if k' == k then Some v' else dict_find d' k
  end.

(** [d[k]] *)
Definition dict_get (d : dict) (k : K) : res V :=
  match dict_find d k with
  | Some v => Ok v
  | None => Raise KeyError
  end.

(** [k in d.keys()] *)
Definition dict_has (d : dict) (k : K) : bool :=
  match dict_find d k with
  | Some _ => true
  | None => false
  end.

Definition keys (d : dict) : seq K := [seq p.1 | p <- d].
Definition values (d : dict) : seq V := [seq p.2 | p <- d].

(** [{k: v for (k, v) in items}] *)
Definition dict_of (items : seq (K * V)) : dict :=
  foldl (fun d p => dict_set d p.1 p.2) [::] items.

End Defs.

(** [enumerate(s)] *)
Definition enumerate (A : Type) (s : seq A) : seq (Z * A) :=
  zip [seq Z.of_nat i | i <- iota 0 (size s)] s.

End Dict.

Module Vocab.
Import Np Dict.
Local Open Scope Z_scope.

Section BuildVocab.

(** [twtk.tokenize], [str.lower] and the order in which a [set] built
    from a list is iterated belong to libraries and to the interpreter. *)
Variable tokenize : string -> seq string.
Variable lower : string -> string.
Variable set_iter : seq string -> seq string.

(** [liegr.to_tokens] *)
Definition to_tokens (text : string) : seq string :=
  [seq lower token | token <- tokenize text & (0 < String.length token)%nat].

(** [Counter.update(iterable)]: one more for every element. *)
Definition counter_update (c : dict string Z) (ws : seq string)
    : dict string Z :=
  foldl (fun c w =>
           dict_set c w (match dict_find c w with
                         | Some k => k + 1
                         | None => 0 + 1
                         end)) c ws.

Record vocabulary : Type := Vocabulary {
  vocab_count : dict string Z;
  vocab : dict string (Z * Z);
  token_count : Z;
  vocab_size : Z;
  word_id : dict string Z;
  id_word : dict Z string;
  id_count : dict Z Z
}.

(** [liegr.build_vocab] *)
Definition build_vocab (freq_threshold : Z) (corpora : seq string)
    : res vocabulary :=
  let vocab_count :=
    foldl (fun c doc => counter_update c (set_iter (to_tokens doc)))
      [::] corpora in
  let vocab :=
    dict_of [seq (p.2.1, (p.1, p.2.2))
            | p <- enumerate vocab_count & freq_threshold <=? p.2.2] in
  let token_count :=
    foldr Z.add 0 [seq elem.2 | elem <- values vocab] in
  let vocab_size := zlen vocab in
  let word_id := dict_of [seq (p.2, p.1) | p <- enumerate (keys vocab)] in
  let id_word := dict_of [seq (p.2, p.1) | p <- word_id] in
  id_count_items <--
    map_res (fun p => i <-- dict_get word_id p.1 ;; Ok (i, p.2.2)) vocab ;;
  Ok (Vocabulary vocab_count vocab token_count vocab_size word_id id_word
        (dict_of id_count_items)).

End BuildVocab.

End Vocab.

(** ** [liegr.build_cooccur]: the co-occurrence counts *)

Module Cooccur.
Import Np Dict Vocab Corpus.
Local Open Scope Z_scope.

(** [np.zeros(d)] and [np.zeros([d0,d1])] *)
Definition zeros1 (d : Z) : res (list Z) :=
  if d <? 0 then Raise ValueError else Ok (repeatz d 0).

Definition zeros2 (d0 d1 : Z) : res mat :=
  if (d0 <? 0) || (d1 <? 0) then Raise ValueError
  else Ok (repeatz d0 (repeatz d1 0)).

(** The two tables are [float32] arrays that hold whole numbers.  A whole
    number is rounded to the nearest [float32], ties to the even
    significand: below 2^24 in absolute value nothing changes, and from
    there on only multiples of 2, then of 4, .. are kept (no count comes
    near the largest [float32]). *)
Definition float32_round (z : Z) : Z :=
  let a := Z.abs z in
  let e := Z.log2 a - 23 in
  if e <=? 0 then z
  else
    let q := a / 2 ^ e in
    let r := a mod 2 ^ e in
    let half := 2 ^ (e - 1) in
    let q' := if r <? half then q
              else if half <? r then q + 1
              else if Z.even q then q else q + 1 in
    Z.sgn z * (q' * 2 ^ e).

(** [a[i] += v] and [a[i,j] += v] on [float32] arrays *)
Definition add_at1 (a : list Z) (i v : Z) : res (list Z) :=
  x <-- getitem a i ;; setitem a i (float32_round (x + v)).

Definition add_at2 (m : mat) (i j v : Z) : res mat :=
  x <-- get2 m i j ;; set2 m i j (float32_round (x + v)).

(** [l[i:]] *)
Definition slice_from {A : Type} (l : list A) (i : Z) : list A :=
  drop (Z.to_nat (slice_bound (zlen l) i)) l.

(** A [for] loop over the elements of a list. *)
Fixpoint for_in {S A : Type} (body : S -> A -> res S) (l : seq A) (s : S)
    : res S :=
  match l with
  | [::] => Ok s
  | x :: l' => s' <-- body s x ;; for_in body l' s'
  end.

(** [m.nonzero()], zipped: the positions of the non-zero cells, row by
    row. *)
Definition nonzero2 (m : mat) : seq (Z * Z) :=
  flatten [seq [seq (p.1, q.1) | q <- enumerate p.2 & negb (q.2 =? 0)]
          | p <- enumerate m].

(** The two tables hold counts: their cells start at 0 and grow by 1, so
    they are whole numbers, kept as integers here. *)
Record tables : Type := Tables {
  occur : list Z;
  cooccur : mat
}.

Record cooccurrences : Type := Cooccurrences {
  co_tables : tables;
  nonzero : seq (Z * Z);
  index_pairs : seq (Z * Z);
  remaining_DoF : Z;
  co_p : seq R
}.

(** [self.epsilon = 1e-5] *)
Definition epsilon : R := ((10%:R ^+ 5)^-1)%R.

(** One entry of [self.p]:
    [(cooccur[i,j] / max([np.sqrt(occur[i] * occur[j]), epsilon])) ** 2] *)
Definition p_entry (t : tables) (pair : Z * Z) : res R :=
  let: (i, j) := pair in
  c <-- get2 (cooccur t) i j ;;
  oi <-- getitem (occur t) i ;;
  oj <-- getitem (occur t) j ;;
  Ok ((IZR c / Rmax (sqrt (IZR oi * IZR oj)) epsilon) ^+ 2)%R.

Section BuildCooccur.

Variable tokenize : string -> seq string.
Variable lower : string -> string.

(** [self.N] and the fields that [build_vocab] has set. *)
Variable N : Z.
Variable voc : vocabulary.

Local Notation to_tokens := (to_tokens tokenize lower).

(** [windows = [' '.join(window) for doc in corpora_tokens
                for window in self.chunks(doc, window_size)]] *)
Definition windows (corpora : seq string) (window_size : Z)
    : res (seq string) :=
  chunked <-- map_res (fun doc => chunks (to_tokens doc) window_size)
                corpora ;;
  Ok [seq String.concat " " window | window <- flatten chunked].

(** [token_ids = [self.word_id[word] for word in tokens
                  if word in self.word_id.keys()]] *)
Definition token_ids (window : string) : res (seq Z) :=
  map_res (fun word => dict_get (word_id voc) word)
    [seq word <- to_tokens window | dict_has (word_id voc) word].

(** Body of [for coword in token_ids[i+1:]]. *)
Definition count_pair (word : Z) (c : mat) (coword : Z) : res mat :=
  c1 <-- add_at2 c word coword 1 ;;
  add_at2 c1 coword word 1.

(** Body of [for i,word in enumerate(token_ids)]. *)
Definition count_position (ids : seq Z) (t : tables) (p : Z * Z)
    : res tables :=
  let: (i, word) := p in
  o <-- add_at1 (occur t) word 1 ;;
  c <-- for_in (count_pair word) (slice_from ids (i + 1)) (cooccur t) ;;
  Ok (Tables o c).

(** Body of [for window in tqdm(windows)]. *)
Definition count_window (t : tables) (window : string) : res tables :=
  ids <-- token_ids window ;;
  for_in (count_position ids) (enumerate ids) t.

(** [liegr.build_cooccur]; the row-normalised table [self.prob] is not
    modelled (a row without co-occurrences divides 0 by 0). *)
Definition build_cooccur (corpora : seq string) (window_size : Z)
    : res cooccurrences :=
  ws <-- windows corpora window_size ;;
  c0 <-- zeros2 (vocab_size voc) (vocab_size voc) ;;
  o0 <-- zeros1 (vocab_size voc) ;;
  t <-- for_in count_window ws (Tables o0 c0) ;;
  let nonzero := nonzero2 (cooccur t) in
  let index_pairs := [seq p <- nonzero | p.1 <? p.2] in
  let remaining_DoF := vocab_size voc * N - zlen index_pairs in
  p <-- map_res (p_entry t) index_pairs ;;
  Ok (Cooccurrences t nonzero index_pairs remaining_DoF p).

End BuildCooccur.

End Cooccur.

(** * Properties of the program *)

(** ** Arrays refine index functions *)

Module NpFacts.
Import Np.
Local Open Scope Z_scope.

Lemma zlen_ge0 (A : Type) (l : list A) : 0 <= zlen l.
Proof. elim: l => [|x l IH] /=; lia. Qed.

Lemma znth_range (A : Type) (l : list A) (i : Z) :
  0 <= i < zlen l -> exists x, znth l i = Some x.
Proof.
elim: l i => [|x l IH] i /=; first lia.
move=> Hi; case: (Z.eqb_spec i 0) => Hi0; first by exists x.
apply: IH; lia.
Qed.

Lemma zlen_zupd (A : Type) (l : list A) (i : Z) (v : A) :
  zlen (zupd l i v) = zlen l.
Proof.
elim: l i => [|x l IH] i //=.
by case: (Z.eqb_spec i 0) => _ //=; rewrite IH.
Qed.

Lemma znth_zupd (A : Type) (l : list A) (i k : Z) (v : A) :
  0 <= i < zlen l -> 0 <= k ->
  znth (zupd l i v) k = if k =? i then Some v else znth l k.
Proof.
elim: l i k => [|x l IH] i k /=; first lia.
move=> Hi Hk.
case: (Z.eqb_spec i 0) => Hi0 /=.
  subst i; case: (Z.eqb_spec k 0) => //.
case: (Z.eqb_spec k 0) => Hk0.
  by subst k; case: (Z.eqb_spec 0 i) => // H; lia.
rewrite IH; try lia.
case: (Z.eqb_spec (k - 1) (i - 1)); case: (Z.eqb_spec k i) => //; lia.
Qed.

Lemma norm_index_range (len i : Z) :
  0 <= i < len -> norm_index len i = Ok i.
Proof.
move=> Hi; rewrite /norm_index.
have ->: (i <? 0) = false by apply/Z.ltb_ge; lia.
have ->: (0 <=? i) = true by apply/Z.leb_le; lia.
by have ->: (i <? len) = true by apply/Z.ltb_lt; lia.
Qed.

(** [repr R l d f]: the list [l] has [d] elements, element [i] being
    related by [R] to [f i]. *)
Definition repr (A B : Type) (R : A -> B -> Prop) (l : list A) (d : Z)
    (f : Z -> B) : Prop :=
  zlen l = d /\
  forall i, 0 <= i < d -> exists2 x, znth l i = Some x & R x (f i).

Definition repr1 (d : Z) : list Z -> (Z -> Z) -> Prop :=
  fun l f => repr eq l d f.

Definition repr2 (d1 d2 : Z) : mat -> (Z -> Z -> Z) -> Prop :=
  fun m f => repr (repr1 d2) m d1 f.

Definition repr3 (d0 d1 d2 : Z) : arr3 -> (Z -> Z -> Z -> Z) -> Prop :=
  fun a f => repr (repr2 d1 d2) a d0 f.

(** Functional update of one cell. *)
Definition fupd (B : Type) (f : Z -> B) (i : Z) (b : B) : Z -> B :=
  fun k => if k =? i then b else f k.

Definition fupd3 (f : Z -> Z -> Z -> Z) (I i j v : Z) : Z -> Z -> Z -> Z :=
  fupd f I (fupd (f I) i (fupd (f I i) j v)).

Lemma getitem_repr (A B : Type) (R : A -> B -> Prop) l d f i :
  repr R l d f -> 0 <= i < d ->
  exists2 x, getitem l i = Ok x & R x (f i).
Proof.
move=> [Hlen Hcell] Hi; have [x Hx Rx] := Hcell i Hi.
exists x => //.
by rewrite /getitem Hlen norm_index_range //= Hx.
Qed.

Lemma setitem_with_repr (A B : Type) (R : A -> B -> Prop) l d f i g b :
  repr R l d f -> 0 <= i < d ->
  (forall x, R x (f i) -> exists2 y, g x = Ok y & R y b) ->
  exists2 l', setitem_with l i g = Ok l' & repr R l' d (fupd f i b).
Proof.
move=> Hl Hi Hg.
have [x Hx Rx] := getitem_repr Hl Hi.
have [y Hy Ry] := Hg x Rx.
case: Hl => Hlen Hcell.
exists (zupd l i y).
  by rewrite /setitem_with Hx /= Hy /= Hlen norm_index_range.
split; first by rewrite zlen_zupd.
move=> k Hk; rewrite znth_zupd /fupd; try lia.
case: (Z.eqb_spec k i) => _; first by exists y.
exact: Hcell.
Qed.

Lemma get3_repr d0 d1 d2 a f I i j :
  repr3 d0 d1 d2 a f -> 0 <= I < d0 -> 0 <= i < d1 -> 0 <= j < d2 ->
  get3 a I i j = Ok (f I i j).
Proof.
move=> Ha HI Hi Hj.
have [m Hm Rm] := getitem_repr Ha HI.
have [row Hrow Rrow] := getitem_repr Rm Hi.
have [x Hx Rx] := getitem_repr Rrow Hj.
by rewrite /get3 Hm /= /get2 Hrow /= Hx Rx.
Qed.

Lemma set3_repr d0 d1 d2 a f I i j v :
  repr3 d0 d1 d2 a f -> 0 <= I < d0 -> 0 <= i < d1 -> 0 <= j < d2 ->
  exists2 a', set3 a I i j v = Ok a' &
              repr3 d0 d1 d2 a' (fupd3 f I i j v).
Proof.
move=> Ha HI Hi Hj.
apply: (setitem_with_repr Ha HI) => m Rm.
apply: (setitem_with_repr Rm Hi) => row Rrow.
apply: (setitem_with_repr Rrow Hj) => x _.
by exists v.
Qed.

Lemma zlen_repeat (A : Type) (k : nat) (x : A) :
  zlen (List.repeat x k) = Z.of_nat k.
Proof. elim: k => [|k IH] //=; rewrite IH; lia. Qed.

Lemma znth_repeat (A : Type) (k : nat) (x : A) (i : Z) :
  0 <= i < Z.of_nat k -> znth (List.repeat x k) i = Some x.
Proof.
elim: k i => [|k IH] i Hi /=; first lia.
case: (Z.eqb_spec i 0) => // Hi0; apply: IH; lia.
Qed.

Lemma repr_repeatz (A B : Type) (R : A -> B -> Prop) d x b :
  0 <= d -> R x b -> repr R (repeatz d x) d (fun _ => b).
Proof.
move=> Hd Rx; split; first by rewrite /repeatz zlen_repeat; lia.
move=> i Hi; exists x => //.
by rewrite /repeatz znth_repeat //; lia.
Qed.

Lemma zeros3_repr d0 d1 d2 :
  0 <= d0 -> 0 <= d1 -> 0 <= d2 ->
  exists2 a, zeros3 d0 d1 d2 = Ok a &
             repr3 d0 d1 d2 a (fun _ _ _ => 0).
Proof.
move=> H0 H1 H2; exists (repeatz d0 (repeatz d1 (repeatz d2 0))).
  rewrite /zeros3.
  have ->: (d0 <? 0) = false by apply/Z.ltb_ge.
  have ->: (d1 <? 0) = false by apply/Z.ltb_ge.
  by have ->: (d2 <? 0) = false by apply/Z.ltb_ge.
by do 3![apply: repr_repeatz => //].
Qed.

Lemma range_fromS lo hi :
  lo < hi -> range_from lo hi = lo :: range_from (lo + 1) hi.
Proof.
move=> Hlt; rewrite /range_from.
have ->: Z.to_nat (hi - lo) = S (Z.to_nat (hi - (lo + 1))) by lia.
rewrite /= Z.add_0_r; congr (_ :: _).
rewrite -List.seq_shift List.map_map.
by apply: List.map_ext => d; lia.
Qed.

Lemma range_from_nil lo hi : hi <= lo -> range_from lo hi = nil.
Proof. by move=> Hle; rewrite /range_from; have ->: Z.to_nat (hi - lo) = 0%nat by lia. Qed.

Lemma range_from0 k : range k = range_from 0 k.
Proof. by rewrite /range /range_from Z.sub_0_r. Qed.

Lemma zlen_app (A : Type) (l1 l2 : list A) :
  zlen (l1 ++ l2) = zlen l1 + zlen l2.
Proof. by elim: l1 => [|x l1 IH] /=; lia. Qed.

Lemma znth_app (A : Type) (l1 l2 : list A) (k : Z) :
  0 <= k ->
  znth (l1 ++ l2) k = if k <? zlen l1 then znth l1 k else znth l2 (k - zlen l1).
Proof.
elim: l1 k => [|x l1 IH] k Hk /=.
  by have ->: (k <? 0) = false; [apply/Z.ltb_ge|rewrite Z.sub_0_r].
have H1 := @zlen_ge0 _ l1.
case: (Z.eqb_spec k 0) => Hk0.
  by have ->: (k <? zlen l1 + 1) = true by apply/Z.ltb_lt; lia.
rewrite IH; first lia.
have ->: k - 1 - zlen l1 = k - (zlen l1 + 1) by lia.
by case: (Z.ltb_spec (k - 1) (zlen l1)); case: (Z.ltb_spec k (zlen l1 + 1)) => //; lia.
Qed.

Lemma zlen_map (A B : Type) (f : A -> B) (l : list A) :
  zlen (List.map f l) = zlen l.
Proof. by elim: l => [|x l IH] //=; rewrite IH. Qed.

Lemma znth_map (A B : Type) (f : A -> B) (l : list A) (k : Z) :
  znth (List.map f l) k = option_map f (znth l k).
Proof.
by elim: l k => [|x l IH] k //=; case: (Z.eqb_spec k 0) => // _; apply: IH.
Qed.

Lemma zlen_range_from (lo hi : Z) : lo <= hi -> zlen (range_from lo hi) = hi - lo.
Proof.
move=> Hle.
have [m Hm]: exists m : nat, hi - lo = Z.of_nat m.
  by exists (Z.to_nat (hi - lo)); lia.
elim: m lo Hle Hm => [|m IH] lo Hle Hm.
  by rewrite range_from_nil /=; lia.
by rewrite range_fromS /= ?IH; lia.
Qed.

Lemma znth_range_from (lo hi k : Z) :
  0 <= k < hi - lo -> znth (range_from lo hi) k = Some (lo + k).
Proof.
move=> Hk.
have [m Hm]: exists m : nat, k = Z.of_nat m by exists (Z.to_nat k); lia.
elim: m lo k Hk Hm => [|m IH] lo k Hk Hm.
  by rewrite range_fromS /=; [lia|rewrite Hm /= Z.add_0_r].
rewrite range_fromS /=; first lia.
have ->: (k =? 0) = false by apply/Z.eqb_neq; lia.
by rewrite (IH (lo + 1)); [lia|lia|congr Some; lia].
Qed.

End NpFacts.

(** ** The index bijection between [0..N-1] and pairs [i < j] *)

Module Index.
Import Np NpFacts Liegr.
Local Open Scope Z_scope.

Lemma consecutive_even (a b : Z) : (a + b) mod 2 = 1 -> exists k, a * b = 2 * k.
Proof.
move=> Hab.
have [q Hq]: exists q, a = 2 * q \/ b = 2 * q.
  have := Z.mod_pos_bound a 2; have := Z.mod_pos_bound b 2.
  have := Z.div_mod a 2; have := Z.div_mod b 2.
  have := Z.div_mod (a + b) 2.
  move=> H1 H2 H3 H4 H5.
  have [Ha|Ha]: a mod 2 = 0 \/ a mod 2 = 1 by lia.
    by exists (a / 2); left; lia.
  by exists (b / 2); right; lia.
by case: Hq => ->; [exists (q * b)|exists (a * q)]; lia.
Qed.

Lemma row_start_double (n i : Z) : 2 * row_start n i = i * (2 * n - i - 1).
Proof.
have [k Hk]: exists k, i * (2 * n - i - 1) = 2 * k.
  apply: consecutive_even.
  have ->: i + (2 * n - i - 1) = 1 + (n - 1) * 2 by lia.
  by rewrite Z.mod_add.
by rewrite /row_start Hk (Z.mul_comm 2 k) Z.div_mul //; lia.
Qed.

Lemma dimN_double (n : Z) : 2 * dimN n = n * (n - 1).
Proof.
have [k Hk]: exists k, n * (n - 1) = 2 * k.
  apply: consecutive_even.
  have ->: n + (n - 1) = 1 + (n - 1) * 2 by lia.
  by rewrite Z.mod_add.
by rewrite /dimN Hk (Z.mul_comm 2 k) Z.quot_mul //; lia.
Qed.

Lemma dimN_ge0 (n : Z) : 0 <= dimN n.
Proof. have := dimN_double n; nia. Qed.

Lemma row_start_succ (n i : Z) :
  row_start n (i + 1) = row_start n i + (n - 1 - i).
Proof.
have := row_start_double n i; have := row_start_double n (i + 1); nia.
Qed.

Lemma row_start_last (n : Z) : row_start n (n - 1) = dimN n.
Proof. have := row_start_double n (n - 1); have := dimN_double n; nia. Qed.

Lemma row_start_mono (n i i' : Z) :
  0 <= i <= i' -> i' <= n - 1 -> row_start n i <= row_start n i'.
Proof.
move=> Hi Hi'.
have := row_start_double n i; have := row_start_double n i'; nia.
Qed.

(** [row_of n I] is the row [i] whose block of indices contains [I]. *)
Lemma row_of_spec (n I : Z) :
  0 <= n -> 0 <= I < dimN n ->
  exists2 i, row_of n I = Ok i &
             0 <= i <= n - 2 /\ row_start n i <= I < row_start n (i + 1).
Proof.
move=> Hn HI.
have HN := dimN_double n.
set E := (2 * n - 1) * (2 * n - 1) - 8 * (I + 1).
have HE : 1 <= E by rewrite /E; nia.
have [Hs1 Hs2] := Z.sqrt_spec E ltac:(lia).
set s := Z.sqrt E in Hs1 Hs2.
have Hs0 : 1 <= s by have := Z.sqrt_nonneg E; rewrite -/s; nia.
set q := (s + 1 - 2 * n) / 2.
have Hq : 2 * q <= s + 1 - 2 * n < 2 * q + 2.
  have := Z.div_mod (s + 1 - 2 * n) 2 ltac:(lia).
  have := Z.mod_pos_bound (s + 1 - 2 * n) 2 ltac:(lia).
  by rewrite -/q; lia.
exists (- q - 1).
  rewrite /row_of -/E.
  by have ->: (E <? 0) = false by apply/Z.ltb_ge; lia.
set i := - q - 1.
have Hi : 2 * n - 3 - 2 * i <= s < 2 * n - 1 - 2 * i by rewrite /i; lia.
have Hlo := row_start_double n i.
have Hhi := row_start_double n (i + 1).
have Hub : s <= 2 * n - 2.
  have: s * s < (2 * n - 1) * (2 * n - 1) by rewrite /E in Hs1; lia.
  by nia.
have Hi0 : 0 <= i <= n - 2 by lia.
split=> //.
have H1 : E < (2 * n - 1 - 2 * i) * (2 * n - 1 - 2 * i) by nia.
have H2 : (2 * n - 3 - 2 * i) * (2 * n - 3 - 2 * i) <= E by nia.
rewrite /E in H1 H2.
by nia.
Qed.

Lemma row_unique (n I i i' : Z) :
  0 <= i <= n - 2 -> 0 <= i' <= n - 2 ->
  row_start n i <= I < row_start n (i + 1) ->
  row_start n i' <= I < row_start n (i' + 1) -> i = i'.
Proof.
move=> Hi Hi' HI HI'.
have [Hlt|[//|Hlt]]: i < i' \/ i = i' \/ i' < i by lia.
  have := @row_start_mono n (i + 1) i'; lia.
have := @row_start_mono n (i' + 1) i; lia.
Qed.

Lemma pair_of_spec (n I : Z) :
  0 <= n -> 0 <= I < dimN n ->
  exists i j, [/\ pair_of n I = (i, j), row_of n I = Ok i,
                  0 <= i < j, j < n & pair_idx n i j = I].
Proof.
move=> Hn HI; have [i Hrow [Hi Hblk]] := row_of_spec Hn HI.
exists i, (col_of n I i); rewrite /pair_of Hrow; split=> //.
- by rewrite /col_of; lia.
- by rewrite /col_of; have := row_start_succ n i; lia.
- by rewrite /pair_idx /col_of; lia.
Qed.

Lemma pair_idx_range (n i j : Z) :
  0 <= i < j -> j < n -> 0 <= pair_idx n i j < dimN n.
Proof.
move=> Hi Hj; rewrite /pair_idx.
have H0 := @row_start_mono n 0 i ltac:(lia) ltac:(lia).
have H1 := @row_start_mono n (i + 1) (n - 1) ltac:(lia) ltac:(lia).
have := row_start_succ n i; have := row_start_last n.
have := row_start_double n 0; lia.
Qed.

Lemma pair_of_idx (n i j : Z) :
  0 <= i < j -> j < n -> pair_of n (pair_idx n i j) = (i, j).
Proof.
move=> Hi Hj.
have HI := pair_idx_range Hi Hj.
have [i' [j' [-> Hrow Hi' Hj' Hidx]]] := @pair_of_spec n _ ltac:(lia) HI.
have Hii : i' = i.
  apply: (@row_unique n (pair_idx n i j)); try lia.
    by rewrite -{1 2}Hidx /pair_idx; have := row_start_succ n i'; lia.
  by rewrite /pair_idx; have := row_start_succ n i; lia.
by subst i'; congr (_, _); move: Hidx; rewrite /pair_idx; lia.
Qed.

Lemma pair_of_inj (n I J : Z) :
  0 <= n -> 0 <= I < dimN n -> 0 <= J < dimN n ->
  pair_of n I = pair_of n J -> I = J.
Proof.
move=> Hn HI HJ.
have [i [j [-> _ _ _ <-]]] := pair_of_spec Hn HI.
by have [i' [j' [-> _ _ _ <-]]] := pair_of_spec Hn HJ; case=> -> ->.
Qed.

(** Position [pair_idx n i j] of the row-major enumeration holds [(i,j)]. *)
Lemma upper_pairs_from (n lo i j : Z) :
  0 <= lo <= i -> i < j -> j < n ->
  znth (List.flat_map
          (fun i => List.map (fun j => (i, j)) (range_from (i + 1) n))
          (range_from lo n))
       (row_start n i - row_start n lo + (j - i - 1)) = Some (i, j).
Proof.
move=> Hlo Hi Hj.
have [m Hm]: exists m : nat, i - lo = Z.of_nat m.
  by exists (Z.to_nat (i - lo)); lia.
elim: m lo Hlo Hm => [|m IH] lo Hlo Hm.
  have ->: lo = i by lia.
  rewrite range_fromS /=; first lia.
  rewrite znth_app; first lia.
  rewrite zlen_map zlen_range_from; first lia.
  have ->: (row_start n i - row_start n i + (j - i - 1) <? n - (i + 1)) = true.
    by apply/Z.ltb_lt; lia.
  rewrite znth_map znth_range_from /=; first lia.
  by congr (Some (_, _)); lia.
rewrite range_fromS /=; first lia.
have Hmono := @row_start_mono n (lo + 1) i ltac:(lia) ltac:(lia).
have Hsucc := row_start_succ n lo.
rewrite znth_app; first lia.
rewrite zlen_map zlen_range_from; first lia.
have ->: (row_start n i - row_start n lo + (j - i - 1) <? n - (lo + 1)) = false.
  by apply/Z.ltb_ge; lia.
rewrite -(IH (lo + 1)); try lia.
by congr (znth _ _); lia.
Qed.

Lemma upper_pairs_nth (n i j : Z) :
  0 <= i < j -> j < n -> znth (upper_pairs n) (pair_idx n i j) = Some (i, j).
Proof.
move=> Hi Hj; rewrite /upper_pairs range_from0 /pair_idx.
rewrite -(@upper_pairs_from n 0 i j); try lia.
by congr (znth _ _); have := row_start_double n 0; lia.
Qed.

End Index.

(** ** The row index and the real-valued expression of the source *)

Section RowOfReal.
Import Np Liegr.
Local Open Scope Z_scope.

(** [row_of] against the floating-point expression it stands for: with
    [x = -0.5 + n - sqrt ((n-0.5)^2 - 2(I+1))] over the reals, the result
    [i] satisfies [i < x <= i + 1], that is [ceil x = i + 1] and
    [int (ceil x - 1.) = i]. *)
Lemma row_of_ceil (n I i : Z) :
  row_of n I = Ok i ->
  (IZR i <
   - / 2 + IZR n - sqrt ((IZR n - / 2) * (IZR n - / 2) - 2 * (IZR I + 1)) <=
   IZR i + 1)%Re.
Proof.
rewrite /row_of.
set E := (2 * n - 1) * (2 * n - 1) - 8 * (I + 1).
case: (Z.ltb_spec E 0) => [//|HE] [<-].
set y := sqrt _.
have [Hs1 Hs2] := Z.sqrt_spec E HE.
have Hs0 := Z.sqrt_nonneg E.
set s := Z.sqrt E in Hs1 Hs2 Hs0 *.
have Hq := Z.div_mod (s + 1 - 2 * n) 2 ltac:(lia).
have Hm := Z.mod_pos_bound (s + 1 - 2 * n) 2 ltac:(lia).
set q := (s + 1 - 2 * n) / 2 in Hq *.
have Hq1 : 2 * q <= s + 1 - 2 * n by lia.
have Hq2 : s + 1 - 2 * n <= 2 * q + 1 by lia.
have HER : (IZR E = 4 * ((IZR n - / 2) * (IZR n - / 2) - 2 * (IZR I + 1)))%Re.
  rewrite /E minus_IZR !mult_IZR !minus_IZR !plus_IZR !mult_IZR.
  by rewrite /=; Lra.lra.
have Hrad : (0 <= (IZR n - / 2) * (IZR n - / 2) - 2 * (IZR I + 1))%Re.
  by have := IZR_le _ _ HE; rewrite HER; Lra.lra.
have Hy0 : (0 <= y)%Re by exact: sqrt_pos.
have Hyy : (y * y = (IZR n - / 2) * (IZR n - / 2) - 2 * (IZR I + 1))%Re.
  exact: sqrt_sqrt.
have Hs1R : (IZR s * IZR s <= (2 * y) * (2 * y))%Re.
  by have := IZR_le _ _ Hs1; rewrite mult_IZR HER -Hyy; Lra.lra.
have Hs2R : ((2 * y) * (2 * y) < (IZR s + 1) * (IZR s + 1))%Re.
  have := IZR_lt _ _ Hs2; rewrite /Z.succ mult_IZR plus_IZR HER -Hyy /=.
  by Lra.lra.
have Hs0R : (0 <= IZR s)%Re by exact: IZR_le.
have Hlo : (IZR s <= 2 * y)%Re by Lra.nra.
have Hhi : (2 * y < IZR s + 1)%Re by Lra.nra.
have := IZR_le _ _ Hq1; have := IZR_le _ _ Hq2.
rewrite !minus_IZR !plus_IZR !mult_IZR opp_IZR /= => H2 H1.
by split; Lra.lra.
Qed.

End RowOfReal.

(** ** What the two construction loops compute *)

Module Build.
Import Np NpFacts Liegr Index.
Local Open Scope Z_scope.

Lemma repr_ext (A B : Type) (R : A -> B -> Prop) l d f g :
  (forall i x, 0 <= i < d -> R x (f i) -> R x (g i)) ->
  repr R l d f -> repr R l d g.
Proof.
move=> Hfg [Hlen Hcell]; split=> // i Hi.
by have [x Hx Rx] := Hcell i Hi; exists x => //; apply: Hfg.
Qed.

Lemma repr3_ext d0 d1 d2 a f g :
  (forall I i j, 0 <= I < d0 -> 0 <= i < d1 -> 0 <= j < d2 ->
     f I i j = g I i j) ->
  repr3 d0 d1 d2 a f -> repr3 d0 d1 d2 a g.
Proof.
move=> Hfg; apply: repr_ext => I m HI; apply: repr_ext => i row Hi.
by apply: repr_ext => j x Hj ->; apply: Hfg.
Qed.

Lemma fupd3E f I i j v a b k :
  fupd3 f I i j v a b k =
  if [&& a =? I, b =? i & k =? j] then v else f a b k.
Proof.
rewrite /fupd3 /fupd.
case: (Z.eqb_spec a I) => [->|//] /=.
case: (Z.eqb_spec b i) => [->|//] /=.
by case: (Z.eqb_spec k j).
Qed.

(** A counted loop that keeps an invariant runs to completion. *)
Lemma for_each_range (S : Type) (body : S -> Z -> res S)
    (Inv : Z -> S -> Prop) (lo hi : Z) (s : S) :
  lo <= hi -> Inv lo s ->
  (forall k t, lo <= k < hi -> Inv k t ->
     exists2 t', body t k = Ok t' & Inv (k + 1) t') ->
  exists2 s', for_each body (range_from lo hi) s = Ok s' & Inv hi s'.
Proof.
move=> Hle Hinv Hstep.
have [m Hm]: exists m : nat, hi - lo = Z.of_nat m.
  by exists (Z.to_nat (hi - lo)); lia.
elim: m lo s Hle Hinv Hstep Hm => [|m IH] lo s Hle Hinv Hstep Hm.
  have ->: hi = lo by lia.
  by rewrite range_from_nil; [lia|exists s].
rewrite range_fromS; first lia.
have [t Ht Hinv'] := Hstep lo s ltac:(lia) Hinv.
have [s' Hs' Hfin] := IH (lo + 1) t ltac:(lia) Hinv'
  ltac:(move=> k u Hk; apply: Hstep; lia) ltac:(lia).
by exists s' => //=; rewrite Ht.
Qed.

(** The generator loop fills [T[I]] with [gen_entry n I]. *)
Lemma build_T_spec (n : Z) :
  0 <= n ->
  exists2 T, build_T n = Ok T & repr3 (dimN n) n n T (gen_entry n).
Proof.
move=> Hn; rewrite /build_T.
have HN := @dimN_ge0 n.
have [T0 -> HT0] /= := zeros3_repr HN Hn Hn.
rewrite range_from0.
pose Inv k T := repr3 (dimN n) n n T
  (fun I r c => if I <? k then gen_entry n I r c else 0).
have [T HT HinvT] : exists2 T,
    for_each (gen_step n) (range_from 0 (dimN n)) T0 = Ok T & Inv (dimN n) T.
  apply: (@for_each_range _ _ Inv) => //.
    by apply: repr3_ext HT0 => I r c HI _ _; case: Z.ltb_spec => //; lia.
  move=> k T Hk HT.
  have [i [j [Hpair Hrow Hi Hj Hidx]]] := pair_of_spec Hn Hk.
  have Hjdef : col_of n k i = j by move: Hpair; rewrite /pair_of Hrow; case.
  rewrite /gen_step Hrow /= Hjdef.
  set sg := minus_one_pow (i + j + 1).
  have [T1 -> HT1] /= := @set3_repr _ _ _ _ _ k i j sg HT
    ltac:(lia) ltac:(lia) ltac:(lia).
  rewrite (get3_repr HT1) /=; try lia.
  rewrite fupd3E !Z.eqb_refl /=.
  have [T2 -> HT2] := @set3_repr _ _ _ _ _ k j i (- sg) HT1
    ltac:(lia) ltac:(lia) ltac:(lia).
  exists T2 => //; apply: repr3_ext HT2 => I r c HI Hr Hc.
  rewrite !fupd3E.
  case: (Z.eqb_spec I k) => [->|HIk] /=; last first.
    by do 2![case: Z.ltb_spec => ?]; try lia.
  have ->: (k <? k + 1) = true by apply/Z.ltb_lt; lia.
  have ->: (k <? k) = false by apply/Z.ltb_ge; lia.
  rewrite /gen_entry Hpair -/sg.
  case: (Z.eqb_spec r j) => [->|_] /=.
    case: (Z.eqb_spec c i) => [->|_] /=.
      by have ->: (j =? i) = false by apply/Z.eqb_neq; lia.
    by case: (Z.eqb_spec j i) => [?|_] //=; lia.
  by case: (Z.eqb_spec r i) => _ //=; case: (Z.eqb_spec c j).
exists T => //; apply: repr3_ext HinvT => I r c HI _ _.
by case: Z.ltb_spec => //; lia.
Qed.

(** Antisymmetry in the first two indices, over the stored cells. *)
Definition antisym3 (N : Z) (f : Z -> Z -> Z -> Z) : Prop :=
  forall a b k, 0 <= a < N -> 0 <= b < N -> 0 <= k < N ->
    f a b k = - f b a k.

Definition gamma_inv (N : Z) (g : arr3) : Prop :=
  exists2 f, repr3 N N N g f & antisym3 N f.

Lemma gamma_write_inv N g I J K v :
  gamma_inv N g -> 0 <= I < N -> 0 <= J < N -> I <> J -> 0 <= K < N ->
  exists2 g', gamma_write g I J K v = Ok g' & gamma_inv N g'.
Proof.
move=> [f Hg Hf] HI HJ HIJ HK; rewrite /gamma_write.
have [g1 -> Hg1] /= := @set3_repr _ _ _ _ _ I J K v Hg HI HJ HK.
have [g2 -> Hg2] := @set3_repr _ _ _ _ _ J I K (- v) Hg1 HJ HI HK.
exists g2 => //; exists (fupd3 (fupd3 f I J K v) J I K (- v)) => //.
move=> a b k Ha Hb Hk; rewrite !fupd3E.
have H := Hf a b k Ha Hb Hk.
by repeat match goal with
  | |- context [Z.eqb ?x ?y] => destruct (Z.eqb_spec x y)
  end; simpl; lia.
Qed.

Lemma gamma_case_inv n N c a b v I J g :
  gamma_inv N g -> 0 <= I < N -> 0 <= J < N -> I <> J ->
  exists2 g', gamma_case n N c a b v I J g = Ok g' & gamma_inv N g'.
Proof.
move=> Hg HI HJ HIJ; rewrite /gamma_case; case: c; last by exists g.
rewrite /pair_index.
have ->: (N =? 0) = false by apply/Z.eqb_neq; lia.
apply: gamma_write_inv => //.
by apply: Z.mod_pos_bound; lia.
Qed.

Lemma gamma_step_inv n N I J g :
  0 <= n -> N = dimN n -> gamma_inv N g -> 0 <= I < J -> J < N ->
  exists2 g', gamma_step n N I g J = Ok g' & gamma_inv N g'.
Proof.
move=> Hn HN Hg HI HJ; rewrite /gamma_step.
have [iI -> _] /= := @row_of_spec n I Hn ltac:(lia).
have [iJ -> _] /= := @row_of_spec n J Hn ltac:(lia).
case: ifP => _; first by exists g.
have [g1 -> Hg1] /= := @gamma_case_inv n N (iI =? iJ)
  (col_of n J iJ) (col_of n I iI) 1 I J g Hg
  ltac:(lia) ltac:(lia) ltac:(lia).
have [g2 -> Hg2] /= := @gamma_case_inv n N (col_of n I iI =? col_of n J iJ)
  iJ iI 1 I J g1 Hg1 ltac:(lia) ltac:(lia) ltac:(lia).
have [g3 -> Hg3] /= := @gamma_case_inv n N (col_of n I iI =? iJ)
  (col_of n J iJ) iI (-1) I J g2 Hg2 ltac:(lia) ltac:(lia) ltac:(lia).
by apply: gamma_case_inv => //; lia.
Qed.

(** The structure-constant loops run to completion and leave an array
    that is antisymmetric in its first two indices. *)
Lemma build_gamma_spec (n : Z) :
  0 <= n ->
  exists2 g, build_gamma n = Ok g & gamma_inv (dimN n) g.
Proof.
move=> Hn; rewrite /build_gamma.
have HN := @dimN_ge0 n.
have [g0 -> Hg0] /= := zeros3_repr HN HN HN.
rewrite range_from0.
apply: (@for_each_range _ _ (fun _ g => gamma_inv (dimN n) g)) => //.
  by exists (fun _ _ _ => 0).
move=> I g HI Hg; rewrite /gamma_row.
have [Hlt|Hge]: I + 1 <= dimN n \/ dimN n < I + 1 by lia.
  apply: (@for_each_range _ _ (fun _ g => gamma_inv (dimN n) g)) => //.
  by move=> J g' HJ Hg'; apply: gamma_step_inv => //; lia.
by rewrite range_from_nil; [lia|exists g].
Qed.

Lemma init_total (n : Z) :
  0 <= n ->
  exists T g, [/\ init n = Ok (Algebra n (dimN n) T g),
                  repr3 (dimN n) n n T (gen_entry n) &
                  gamma_inv (dimN n) g].
Proof.
move=> Hn; rewrite /init.
have [T -> HT] /= := build_T_spec Hn.
have [g -> Hg] /= := build_gamma_spec Hn.
by exists T, g.
Qed.

End Build.

(** ** Properties of the constructed algebra *)

Section Construction.
Import Np NpFacts Liegr Index Build.
Local Open Scope Z_scope.

Lemma forallb_range (P : Z -> bool) (N I : Z) :
  List.forallb P (range N) = true -> 0 <= I < N -> P I = true.
Proof.
move=> /List.forallb_forall H HI; apply: H.
rewrite /range; apply/List.in_map_iff; exists (Z.to_nat I).
by split; [lia|apply/List.in_seq; lia].
Qed.

Definition list_eqb (u v : list Z) : bool :=
  (Nat.eqb (List.length u) (List.length v)) &&
  List.forallb (fun p => fst p =? snd p) (List.combine u v).

Definition mat_eqb (a b : mat) : bool :=
  (Nat.eqb (List.length a) (List.length b)) &&
  List.forallb (fun p => list_eqb (fst p) (snd p)) (List.combine a b).

Lemma list_eqbP (u v : list Z) : list_eqb u v = true -> u = v.
Proof.
elim: u v => [|x u IH] [|y v] //= /andP[Hlen /andP[Hxy Hall]].
have ->: x = y by apply/Z.eqb_eq.
by rewrite (IH v) //; apply/andP.
Qed.

Lemma mat_eqbP (a b : mat) : mat_eqb a b = true -> a = b.
Proof.
elim: a b => [|x a IH] [|y b] //= /andP[Hlen /andP[Hxy Hall]].
have ->: x = y by apply: list_eqbP.
by rewrite (IH b) //; apply/andP.
Qed.

(** The commutator identity at one pair of generators, as a test. *)
Definition commutator_check (A : algebra) (I J : Z) : bool :=
  match getitem (alg_T A) I, getitem (alg_T A) J,
        (gI <-- getitem (alg_gamma A) I ;; getitem gI J) with
  | Ok TI, Ok TJ, Ok gIJ =>
      mat_eqb (commutator TI TJ) (lincomb (alg_n A) gIJ (alg_T A))
  | _, _, _ => false
  end.

Definition commutator_check_all (n : Z) : bool :=
  match init n with
  | Ok A =>
      List.forallb (fun I =>
        List.forallb (fun J => commutator_check A I J) (range (alg_N A)))
        (range (alg_N A))
  | Raise _ => false
  end.

Lemma commutator_check_allP (n I J : Z) :
  commutator_check_all n = true ->
  0 <= I < dimN n -> 0 <= J < dimN n ->
  exists A TI TJ gI gIJ,
    [/\ init n = Ok A,
        getitem (alg_T A) I = Ok TI /\ getitem (alg_T A) J = Ok TJ,
        getitem (alg_gamma A) I = Ok gI /\ getitem gI J = Ok gIJ &
        commutator TI TJ = lincomb n gIJ (alg_T A)].
Proof.
rewrite /commutator_check_all.
case Hinit: (init n) => [A|//] Hall HI HJ.
have HA : alg_N A = dimN n /\ alg_n A = n.
  move: Hinit; rewrite /init.
  case: (build_T n) => [T|//] /=; case: (build_gamma n) => [g|//] /=.
  by case=> <-.
case: HA => HN Hn; rewrite HN in Hall.
have := forallb_range (forallb_range Hall HI) HJ.
rewrite /commutator_check.
case E1: (getitem (alg_T A) I) => [TI|//].
case E2: (getitem (alg_T A) J) => [TJ|//].
case E3: (getitem (alg_gamma A) I) => [gI|//] /=.
case E4: (getitem gI J) => [gIJ|//] /mat_eqbP; rewrite Hn => Heq.
by exists A, TI, TJ, gI, gIJ; split.
Qed.

End Construction.

(** ** Entries of the generators *)

Section EntryFacts.
Import Np NpFacts Liegr Index Build.
Local Open Scope Z_scope.

Lemma minus_one_pow_sq k : minus_one_pow k * minus_one_pow k = 1.
Proof. by rewrite /minus_one_pow; case: Z.even. Qed.

Lemma gen_entry_upper n J r c :
  0 <= n -> 0 <= J < dimN n -> 0 <= r < c -> c < n ->
  gen_entry n J r c =
  if J =? pair_idx n r c then minus_one_pow (r + c + 1) else 0.
Proof.
move=> Hn HJ Hr Hc.
have [i [j [Hpair _ Hi Hj Hidx]]] := pair_of_spec Hn HJ.
have Hkey : J = pair_idx n r c <-> i = r /\ j = c.
  split=> [HJe|[<- <-]] //.
  by have := @pair_of_idx n r c ltac:(lia) ltac:(lia); rewrite -HJe Hpair; case.
rewrite /gen_entry Hpair.
by repeat match goal with
  | |- context [Z.eqb ?x ?y] => destruct (Z.eqb_spec x y)
  end; simpl; try lia; subst; try lia; f_equal; lia.
Qed.

Lemma gen_entry_antisym n J r c :
  0 <= n -> 0 <= J < dimN n -> gen_entry n J r c = - gen_entry n J c r.
Proof.
move=> Hn HJ.
have [i [j [Hpair _ Hi Hj Hidx]]] := pair_of_spec Hn HJ.
rewrite /gen_entry Hpair.
by repeat match goal with
  | |- context [Z.eqb ?x ?y] => destruct (Z.eqb_spec x y)
  end; simpl; lia.
Qed.

End EntryFacts.

(** ** Independence, span and normalisation of the generators *)

Import NpFacts Index Build.

Lemma antisymE (m : nat) (B : 'M[R]_m) r c : B^T = - B -> B r c = - B c r.
Proof. by move=> /matrixP/(_ c r); rewrite mxE [RHS]mxE. Qed.

Section GeneratorFacts.

Variables (n : Z) (T g : arr3).
Hypothesis Hn : (0 <= n)%Z.
Hypothesis HT : repr3 (dimN n) n n T (gen_entry n).

Local Notation A := (Algebra n (dimN n) T g).

Lemma ord_dim (r : 'I_(dim A)) : (0 <= Z.of_nat r < n)%Z.
Proof. by have /ltP := ltn_ord r; rewrite /dim /=; lia. Qed.

Lemma ord_rank (I : 'I_(rank A)) : (0 <= Z.of_nat I < dimN n)%Z.
Proof. by have /ltP := ltn_ord I; rewrite /rank /=; lia. Qed.

Lemma Zeqb_ord (m : nat) (r i : 'I_m) :
  (Z.of_nat r =? Z.of_nat i)%Z = (r == i).
Proof.
apply/idP/eqP => [/Z.eqb_eq H|->]; last exact: Z.eqb_refl.
by apply: val_inj => /=; lia.
Qed.

Lemma genE (I : 'I_(rank A)) (r c : 'I_(dim A)) :
  gen I r c = IZR (gen_entry n (Z.of_nat I) (Z.of_nat r) (Z.of_nat c)).
Proof.
rewrite /gen mxE /cell /= (get3_repr HT) //.
- exact: ord_rank.
- exact: ord_dim.
- exact: ord_dim.
Qed.

(** The pair of a generator, as positions of the matrix. *)
Lemma pair_ordP (I : 'I_(rank A)) :
  exists i j : 'I_(dim A),
    pair_of n (Z.of_nat I) = (Z.of_nat i, Z.of_nat j) /\ (i < j)%nat.
Proof.
have [i [j [Hpair _ Hi Hj _]]] := pair_of_spec Hn (ord_rank I).
have Hi' : (Z.to_nat i < dim A)%nat by apply/ltP; rewrite /dim /=; lia.
have Hj' : (Z.to_nat j < dim A)%nat by apply/ltP; rewrite /dim /=; lia.
exists (Ordinal Hi'), (Ordinal Hj'); split=> /=.
  by rewrite Hpair !Z2Nat.id //; lia.
by apply/ltP; lia.
Qed.

(** The generator of a pair of positions. *)
Lemma idx_ordP (i j : 'I_(dim A)) :
  (i < j)%nat ->
  exists I : 'I_(rank A),
    pair_of n (Z.of_nat I) = (Z.of_nat i, Z.of_nat j).
Proof.
move=> /ltP Hij.
have [Hi Hj] := (ord_dim i, ord_dim j).
have HI := @pair_idx_range n (Z.of_nat i) (Z.of_nat j)
  ltac:(lia) ltac:(lia).
have HI' : (Z.to_nat (pair_idx n (Z.of_nat i) (Z.of_nat j)) < rank A)%nat.
  by apply/ltP; rewrite /rank /=; lia.
exists (Ordinal HI') => /=.
by rewrite Z2Nat.id; [lia|apply: pair_of_idx; lia].
Qed.

Definition sign_of (i j : nat) : R :=
  IZR (minus_one_pow (Z.of_nat i + Z.of_nat j + 1)).

Lemma sign_of_sq i j : sign_of i j * sign_of i j = 1.
Proof. by rewrite /sign_of RmulE -mult_IZR minus_one_pow_sq. Qed.

Lemma gen_cases (I : 'I_(rank A)) (i j r c : 'I_(dim A)) :
  pair_of n (Z.of_nat I) = (Z.of_nat i, Z.of_nat j) ->
  gen I r c = if (r == i) && (c == j) then sign_of i j
              else if (r == j) && (c == i) then - sign_of i j else 0.
Proof.
move=> Hpair; rewrite genE /gen_entry Hpair !Zeqb_ord.
case: ifP => _ //; case: ifP => _ //.
by rewrite RoppE -opp_IZR.
Qed.

Lemma pair_ord_inj (I J : 'I_(rank A)) p :
  pair_of n (Z.of_nat I) = p -> pair_of n (Z.of_nat J) = p -> I = J.
Proof.
move=> HI HJ; apply: val_inj => /=.
have := @pair_of_inj n (Z.of_nat I) (Z.of_nat J) Hn (ord_rank I) (ord_rank J).
by rewrite HI HJ => /(_ erefl); lia.
Qed.

(** Contracting a matrix against a generator reads two of its entries. *)
Lemma contract_gen (f : 'M[R]_(dim A)) (I : 'I_(rank A)) (i j : 'I_(dim A)) :
  pair_of n (Z.of_nat I) = (Z.of_nat i, Z.of_nat j) -> (i < j)%nat ->
  \sum_r \sum_c f r c * gen I r c = sign_of i j * (f i j - f j i).
Proof.
move=> Hpair Hij.
have Hne : j != i by rewrite neq_ltn Hij orbT.
have Hrow r : \sum_c f r c * gen I r c =
    if r == i then sign_of i j * f i j
    else if r == j then - sign_of i j * f j i else 0.
  have [->|Hri] := eqVneq r i.
    rewrite (bigD1 j) //= big1 ?addr0.
      move=> c Hc; rewrite (gen_cases _ _ Hpair) eqxx (negbTE Hc) /=.
      by rewrite eq_sym (negbTE Hne) /= mulr0.
    by rewrite (gen_cases _ _ Hpair) !eqxx /= mulrC.
  have [->|Hrj] := eqVneq r j.
    rewrite (bigD1 i) //= big1 ?addr0.
      move=> c Hc; rewrite (gen_cases _ _ Hpair) eqxx (negbTE Hc) (negbTE Hne) /=.
      by rewrite ?andbF mulr0.
    by rewrite (gen_cases _ _ Hpair) !eqxx (negbTE Hne) /= mulrC.
  rewrite big1 // => c _.
  by rewrite (gen_cases _ _ Hpair) (negbTE Hri) (negbTE Hrj) /= mulr0.
rewrite (eq_bigr _ (fun r _ => Hrow r)).
rewrite (bigD1 i) //= eqxx (bigD1 j) //= (negbTE Hne) eqxx big1 ?addr0.
  by move=> r /andP[/negbTE -> /negbTE ->].
by rewrite mulrBr mulNr.
Qed.

Lemma gen_antisym (I : 'I_(rank A)) : (gen I)^T = - gen I.
Proof.
apply/matrixP => r c; rewrite mxE [RHS]mxE !genE.
by rewrite (@gen_entry_antisym n _ _ _ Hn (ord_rank I)) opp_IZR.
Qed.

Lemma two_neq0 : (2%:R : R) != 0.
Proof.
apply/eqP => H.
have H2 : (R1 + R1 = R0)%Re by exact: H.
by move: H2; Lra.lra.
Qed.

(** The Frobenius products of generators. *)
Lemma gen_frobenius (I J : 'I_(rank A)) :
  \sum_r \sum_c gen I r c * gen J r c = if I == J then 2%:R else 0.
Proof.
have [i [j [Hpair Hij]]] := pair_ordP J.
rewrite (contract_gen _ Hpair Hij).
have ->: gen I j i = - gen I i j by apply: antisymE (gen_antisym I).
rewrite opprK -mulr2n mulrnAr.
have [->|HIJ] := eqVneq I J.
  by rewrite (gen_cases _ _ Hpair) !eqxx /= sign_of_sq.
have [i' [j' [Hpair' Hij']]] := pair_ordP I.
rewrite (gen_cases _ _ Hpair').
have Hne : (i == i') && (j == j') = false.
  apply/negP => /andP[/eqP Hi /eqP Hj]; move/eqP: HIJ; apply.
  by apply: pair_ord_inj Hpair' _; rewrite Hpair Hi Hj.
have Hne' : (i == j') && (j == i') = false.
  apply/negP => /andP[/eqP Hi /eqP Hj].
  by move: Hij Hij'; rewrite Hi Hj => /ltnW; rewrite leqNgt => /negP.
by rewrite Hne Hne' mulr0 mul0rn.
Qed.

Lemma gen_trace (I J : 'I_(rank A)) :
  \tr ((gen I)^T *m gen J) = if I == J then 2%:R else 0.
Proof.
rewrite -gen_frobenius /mxtrace exchange_big /=.
apply: eq_bigr => c _; rewrite mxE.
by apply: eq_bigr => r _; rewrite mxE.
Qed.

(** The read-out inverts the formation of an algebra element. *)
Lemma coeffs_of_alg_mx (x : 'I_(rank A) -> R) (I : 'I_(rank A)) :
  coeffs_of (alg_mx x) I = x I.
Proof.
rewrite /coeffs_of /alg_mx.
have ->: \sum_r \sum_c (\sum_J x J *: gen J) r c * gen I r c =
         \sum_J \sum_r \sum_c x J * (gen J r c * gen I r c).
  rewrite [RHS]exchange_big /=; apply: eq_bigr => r _.
  rewrite [RHS]exchange_big /=; apply: eq_bigr => c _.
  rewrite summxE mulr_suml; apply: eq_bigr => J _.
  by rewrite mxE mulrA.
have ->: \sum_J \sum_r \sum_c x J * (gen J r c * gen I r c) =
         \sum_J x J * (\sum_r \sum_c gen J r c * gen I r c).
  apply: eq_bigr => J _; rewrite mulr_sumr; apply: eq_bigr => r _.
  by rewrite mulr_sumr.
rewrite (bigD1 I) //= gen_frobenius eqxx [X in _ + X]big1 ?addr0.
  by move=> J HJ; rewrite gen_frobenius (negbTE HJ) mulr0.
by rewrite mulfK // two_neq0.
Qed.

Lemma alg_mx_antisym (x : 'I_(rank A) -> R) : (alg_mx x)^T = - alg_mx x.
Proof.
rewrite /alg_mx raddf_sum /= -sumrN; apply: eq_bigr => I _.
by rewrite linearZ /= gen_antisym scalerN.
Qed.

(** The generators are linearly independent. *)
Lemma gen_free (x : 'I_(rank A) -> R) :
  alg_mx x = 0 -> forall I, x I = 0.
Proof.
move=> Hx I; rewrite -(coeffs_of_alg_mx x I) Hx /coeffs_of.
rewrite big1 ?mul0r // => r _; rewrite big1 // => c _.
by rewrite mxE mul0r.
Qed.

(** Every antisymmetric matrix is the algebra element of its read-out. *)
Lemma gen_span (M : 'M[R]_(dim A)) :
  M^T = - M -> M = alg_mx (coeffs_of M).
Proof.
move=> HM.
have Hanti (B : 'M[R]_(dim A)) r c : B^T = - B -> B r c = - B c r.
  exact: antisymE.
have Hupper (r c : 'I_(dim A)) :
    (r < c)%nat -> M r c = alg_mx (coeffs_of M) r c.
  move=> Hrc; have [I HI] := idx_ordP Hrc.
  rewrite /alg_mx summxE (bigD1 I) //= big1 ?addr0.
    move=> J HJ; rewrite mxE.
    have [i [j [Hpair Hij]]] := pair_ordP J.
    rewrite (gen_cases _ _ Hpair).
    have ->: (r == i) && (c == j) = false.
      apply/negP => /andP[/eqP Hi /eqP Hj]; move/eqP: HJ; apply.
      by apply: pair_ord_inj Hpair _; rewrite HI Hi Hj.
    have ->: (r == j) && (c == i) = false.
      apply/negP => /andP[/eqP Hi /eqP Hj].
      by move: Hrc Hij; rewrite Hi Hj => /ltnW; rewrite leqNgt => /negP.
    by rewrite mulr0.
  rewrite mxE /coeffs_of (contract_gen _ HI Hrc) (gen_cases _ _ HI) !eqxx /=.
  rewrite (Hanti M c r HM) opprK -mulr2n mulrnAr -mulr_natr mulfK ?two_neq0 //.
  by rewrite mulrC mulrA sign_of_sq mul1r.
apply/matrixP => r c.
have [Hrc|Hrc|Hrc] := ltngtP r c.
- exact: Hupper.
- by rewrite (Hanti M r c HM) (Hanti _ r c (alg_mx_antisym _)) Hupper.
- have -> : c = r by apply: val_inj.
  have H0 (B : 'M[R]_(dim A)) : B^T = - B -> B r r = 0.
    move=> HB; have := Hanti B r r HB.
    move/eqP; rewrite -addr_eq0 -mulr2n -mulr_natr mulf_eq0.
    by rewrite (negbTE two_neq0) orbF => /eqP.
  by rewrite (H0 M HM) (H0 _ (alg_mx_antisym _)).
Qed.

End GeneratorFacts.

Section OrthoFacts.
Import Ortho.

Variable n : nat.
Variable on_singular : 'M[R]_n -> res 'M[R]_n.

Lemma einsum_jk_jl_klE (a b : 'M[R]_n) : einsum_jk_jl_kl a b = a^T *m b.
Proof.
apply/matrixP => k l; rewrite !mxE.
by apply: eq_bigr => j _; rewrite mxE.
Qed.

Lemma get_grads_rowE (V G : 'M[R]_n) : get_grads_row V G = V^T *m G - G^T *m V.
Proof. by rewrite /get_grads_row !einsum_jk_jl_klE. Qed.

Lemma get_grads_row_antisym (V G : 'M[R]_n) :
  (get_grads_row V G)^T = - get_grads_row V G.
Proof.
by rewrite get_grads_rowE linearB /= !trmx_mul !trmxK opprB.
Qed.

(** The Cayley transform of an antisymmetric matrix is orthogonal. *)
Lemma cayley_orthogonal (S : 'M[R]_n) :
  S^T = - S -> 1%:M + S \in unitmx ->
  ((1%:M - S) *m invmx (1%:M + S))^T *m ((1%:M - S) *m invmx (1%:M + S))
  = 1%:M.
Proof.
move=> HS HD.
have HDt : (1%:M + S)^T = 1%:M - S by rewrite linearD /= trmx1 HS.
have HNt : (1%:M - S)^T = 1%:M + S by rewrite linearB /= trmx1 HS opprK.
have HN : 1%:M - S \in unitmx by rewrite -HDt unitmx_tr.
have Hcomm : (1%:M + S) *m (1%:M - S) = (1%:M - S) *m (1%:M + S).
  rewrite mulmxDl !mulmxBr !mulmx1 mul1mx addrA subrK.
  by rewrite mulmxBl mul1mx mulmxDr mulmx1 opprD addrA addrK.
rewrite trmx_mul trmx_inv HDt HNt.
rewrite -mulmxA [(1%:M + S) *m _]mulmxA Hcomm -mulmxA mulmxV //.
by rewrite mulmx1 mulVmx.
Qed.

Lemma sum_sq_ge0 (m : nat) (f : 'I_m -> R) (P : pred 'I_m) :
  (0 <= \sum_(i | P i) f i * f i)%Re.
Proof.
elim/big_rec: _ => [|i x _ Hx]; first exact: Rle_refl.
by apply: Rplus_le_le_0_compat => //; apply: Rle_0_sqr.
Qed.

Lemma sum_sq_eq0 (m : nat) (f : 'I_m -> R) :
  \sum_i f i * f i = 0 -> forall i, f i = 0.
Proof.
move=> Hsum i; move: Hsum; rewrite (bigD1 i) //=.
have := sum_sq_ge0 f (fun j => j != i).
set rest := \sum_(j < m | j != i) _ => H1 Hsum.
have H2 : (0 <= f i * f i)%Re by apply: Rle_0_sqr.
have H3 : (f i * f i + rest = 0)%Re by [].
have H4 : (f i * f i = 0)%Re by move: H1 H2 H3; Lra.lra.
by case: (Rmult_integral _ _ H4).
Qed.

(** Over the real numbers the denominator of the Cayley transform of an
    antisymmetric matrix is always invertible. *)
Lemma cayley_denominator_unit (S : 'M[R]_n) :
  S^T = - S -> 1%:M + S \in unitmx.
Proof.
move=> HS; rewrite unitmxE unitfE; apply/negP => /det0P[v Hv0 Hv].
case/negP: Hv0; apply/eqP.
have Hq : v *m v^T + v *m S *m v^T = 0.
  by rewrite -mulmxDl -[v in v + _]mulmx1 -mulmxDr Hv mul0mx.
have HvSv : v *m S *m v^T = 0.
  have Ht : (v *m S *m v^T)^T = - (v *m S *m v^T).
    by rewrite !trmx_mul trmxK HS mulNmx mulmxN mulmxA.
  apply/matrixP => i j; rewrite !ord1 [RHS]mxE.
  have := @antisymE _ _ 0 0 Ht; move/eqP; rewrite -addr_eq0 -mulr2n -mulr_natr.
  by rewrite mulf_eq0 (negbTE two_neq0) orbF => /eqP.
move: Hq; rewrite HvSv addr0 => /matrixP/(_ 0 0); rewrite !mxE => Hsq.
apply/matrixP => i j; rewrite ord1 mxE.
apply: (sum_sq_eq0 (f := fun k => v 0 k)).
by rewrite -[RHS]Hsq; apply: eq_bigr => k _; rewrite mxE.
Qed.

End OrthoFacts.

(** *** The update on tensors of any shape *)

Section GraphFacts.
Import Ortho OrthoGraph.

Variable on_singular : forall m : nat, 'M[R]_m -> res 'M[R]_m.




















End GraphFacts.

(** ** The exponential of a sum of commuting matrices *)

Section ExpProducts.

(** [C(k,q) / k! = 1 / ((k-q)! q!)] *)
Lemma exp_coef_bin (k q : nat) :
  (q <= k)%nat ->
  exp_coef k * 'C(k, q)%:R = exp_coef (k - q) * exp_coef q.
Proof.
move=> Hqk; rewrite !exp_coefE -(bin_fact Hqk) !natrM !invfM.
rewrite mulrC mulrA divff ?mul1r 1?mulrC //.
by apply: natr_neq0; rewrite bin_gt0.
Qed.

(** Summing along the antidiagonals of a triangle or along its rows. *)
Lemma triangle_sum (V : zmodType) (m : nat) (F : nat -> nat -> V) :
  \sum_(0 <= k < m.+1) \sum_(0 <= q < k.+1) F (k - q)%nat q =
  \sum_(0 <= p < m.+1) \sum_(0 <= q < m.+1 | (p + q <= m)%nat) F p q.
Proof.
have Hrow q : (q < m.+1)%nat ->
    \sum_(0 <= k < m.+1 | (q < k.+1)%nat) F (k - q)%nat q =
    \sum_(0 <= p < m.+1 | (p + q <= m)%nat) F p q.
  move=> Hq.
  rewrite (big_cat_nat (n := q)) //=; try exact: ltnW.
  have ->: \sum_(0 <= k < q | (q < k.+1)%nat) F (k - q)%nat q = 0.
    rewrite big_nat_cond; apply: big_pred0 => k.
    by rewrite ltnS; case: (leqP q k) => //; rewrite andbF.
  have ->: \sum_(q <= k < m.+1 | (q < k.+1)%nat) F (k - q)%nat q =
           \sum_(0 + q <= k < m.+1) F (k - q)%nat q.
    rewrite add0n big_nat_cond [RHS]big_nat_cond; apply: eq_bigl => k.
    by rewrite andbT !ltnS; case: (leqP q k) => //= _; rewrite andbT.
  rewrite add0r big_addn.
  have ->: \sum_(0 <= p < m.+1 - q) F (p + q - q)%nat q =
           \sum_(0 <= p < m.+1 - q) F p q.
    by apply: eq_bigr => p _; rewrite addnK.
  rewrite (@big_nat_widen _ _ _ 0 (m.+1 - q) m.+1) ?leq_subr //.
  by apply: eq_bigl => p /=; rewrite ltn_subRL addnC.
have ->: \sum_(0 <= k < m.+1) \sum_(0 <= q < k.+1) F (k - q)%nat q =
         \sum_(0 <= k < m.+1)
            \sum_(0 <= q < m.+1 | (q < k.+1)%nat) F (k - q)%nat q.
  apply: eq_big_nat => k /andP[_ Hk].
  by rewrite (@big_nat_widen _ _ _ 0 k.+1 m.+1).
rewrite (exchange_big_dep_nat predT) //=.
have ->: \sum_(0 <= q < m.+1)
            \sum_(0 <= k < m.+1 | (q < k.+1)%nat) F (k - q)%nat q =
         \sum_(0 <= q < m.+1)
            \sum_(0 <= p < m.+1 | (p + q <= m)%nat) F p q.
  by apply: eq_big_nat => q /andP[_ Hq]; rewrite -Hrow.
by rewrite [RHS](exchange_big_dep_nat predT).
Qed.

(** The product of two partial sums, for commuting matrices: the partial
    sum of the sum, and the terms above the antidiagonal. *)
Lemma exp_psum_mul (n : nat) (X Y : 'M[R]_n) (m : nat) :
  X * Y = Y * X ->
  exp_psum X m * exp_psum Y m =
  exp_psum (X + Y) m +
  \sum_(0 <= p < m.+1) \sum_(0 <= q < m.+1 | (m < p + q)%nat)
     (exp_coef p * exp_coef q) *: (X ^+ p * Y ^+ q).
Proof.
move=> Hcomm.
pose F p q : 'M[R]_n := (exp_coef p * exp_coef q) *: (X ^+ p * Y ^+ q).
have ->: exp_psum X m * exp_psum Y m =
         \sum_(0 <= p < m.+1) \sum_(0 <= q < m.+1) F p q.
  rewrite /exp_psum -!(big_mkord predT (fun k => exp_coef k *: _ ^+ k)).
  rewrite big_distrlr /=; apply: eq_bigr => p _; apply: eq_bigr => q _.
  by rewrite -scalerAl -scalerAr scalerA.
have ->: exp_psum (X + Y) m =
         \sum_(0 <= p < m.+1) \sum_(0 <= q < m.+1 | (p + q <= m)%nat) F p q.
  rewrite -triangle_sum /exp_psum.
  rewrite -(big_mkord predT (fun k => exp_coef k *: (X + Y) ^+ k)).
  apply: eq_bigr => k _; rewrite exprDn_comm // scaler_sumr.
  rewrite -(big_mkord predT (fun q => exp_coef k *:
              ((X ^+ (k - q) * Y ^+ q) *+ 'C(k, q)))).
  rewrite big_nat_cond [RHS]big_nat_cond; apply: eq_bigr => q.
  rewrite andbT => /andP[_ Hq].
  by rewrite -scaler_nat scalerA /F -exp_coef_bin.
rewrite -big_split /=; apply: eq_bigr => p _.
rewrite (bigID (fun q => (p + q <= m)%nat)) /=; congr (_ + _).
by apply: eq_bigl => q; rewrite ltnNge.
Qed.

End ExpProducts.

Section Remainder.

(** The terms of the product of two partial sums that lie above the
    antidiagonal, for matrices and for their bounds. *)
Definition exp_rest (n : nat) (X Y : 'M[R]_n) (m : nat) : 'M[R]_n :=
  \sum_(0 <= p < m.+1) \sum_(0 <= q < m.+1 | (m < p + q)%nat)
     (exp_coef p * exp_coef q) *: (X ^+ p * Y ^+ q).

Definition exp_rest_bound (a b : R) (m : nat) : R :=
  \sum_(0 <= p < m.+1) \sum_(0 <= q < m.+1 | (m < p + q)%nat)
     (exp_coef p * exp_coef q) * (a ^+ p * b ^+ q).

(** The partial sums of the scalar exponential series. *)
Definition exp_psum1 (x : R) (m : nat) : R :=
  \sum_(k < m.+1) exp_coef k * x ^+ k.

Lemma exp_rest_le (n : nat) (X Y : 'M[R]_n) (a b : R) (m : nat) i j :
  rowbound X a -> rowbound Y b -> (0 <= a)%Re -> (0 <= b)%Re ->
  (Rabs (exp_rest X Y m i j) <= exp_rest_bound a b m)%Re.
Proof.
move=> HX HY Ha Hb; rewrite /exp_rest /exp_rest_bound summxE.
apply: Rle_trans (bigsum_Rabs _ _ _) _.
apply: bigsum_le => p _; rewrite summxE.
apply: Rle_trans (bigsum_Rabs _ _ _) _.
apply: bigsum_le => q _; rewrite mxE RmulE Rabs_mult.
have Hc : (0 <= exp_coef p * exp_coef q)%Re.
  by apply: Rmult_le_pos; exact: exp_coef_ge0.
rewrite (Rabs_pos_eq _ Hc) RmulE; apply: Rmult_le_compat_l => //.
apply: rowbound_entry.
have HXp := rowbound_exp p HX Ha.
have HYq := rowbound_exp q HY Hb.
exact: rowbound_mul HXp HYq (pow_ge0 q Hb).
Qed.

Lemma exp_psum_scalar (x : R) (m : nat) :
  exp_psum (x%:M : 'M[R]_1) m = (exp_psum1 x m)%:M.
Proof.
rewrite /exp_psum /exp_psum1 raddf_sum /=; apply: eq_bigr => k _.
by rewrite -rmorphXn /= scale_scalar_mx.
Qed.

Lemma exp_rest_scalar (a b : R) (m : nat) :
  exp_rest (a%:M : 'M[R]_1) b%:M m = (exp_rest_bound a b m)%:M.
Proof.
rewrite /exp_rest /exp_rest_bound raddf_sum /=; apply: eq_bigr => p _.
rewrite raddf_sum /=; apply: eq_bigr => q _.
by rewrite -!rmorphXn /= -rmorphM /= scale_scalar_mx.
Qed.

(** The scalar remainder, in closed form. *)
Lemma exp_rest_boundE (a b : R) (m : nat) :
  exp_rest_bound a b m =
  exp_psum1 a m * exp_psum1 b m - exp_psum1 (a + b) m.
Proof.
have Hcomm : (a%:M : 'M[R]_1) * b%:M = b%:M * a%:M.
  by rewrite -!rmorphM /= mulrC.
have := exp_psum_mul m Hcomm.
rewrite -/(exp_rest _ _ m) -raddfD /= !exp_psum_scalar exp_rest_scalar.
rewrite -rmorphM /= -raddfD /= => /matrixP/(_ 0 0).
rewrite !mxE eqxx !mulr1n => ->.
by rewrite addrC addKr.
Qed.

End Remainder.

Section Limits.

Lemma sum_f_R0E (f : nat -> R) (m : nat) :
  sum_f_R0 f m = \sum_(k < m.+1) f k.
Proof.
elim: m => [|m IH] /=; first by rewrite big_ord_recl big_ord0 addr0.
by rewrite IH [RHS]big_ord_recr.
Qed.

Lemma Un_cv_eq (u v : nat -> R) (l : R) :
  (forall m, u m = v m) -> Un_cv u l -> Un_cv v l.
Proof.
move=> Huv Hu eps Heps; have [N HN] := Hu eps Heps.
by exists N => m Hm; rewrite -Huv; apply: HN.
Qed.

Lemma Un_cv_const (c : R) : Un_cv (fun _ => c) c.
Proof.
move=> eps Heps; exists 0%nat => m _.
by rewrite /Rdist Rminus_diag Rabs_R0.
Qed.

(** A sequence dominated by one that tends to 0 tends to 0. *)
Lemma Un_cv_squeeze (u v : nat -> R) :
  (forall m, (Rabs (u m) <= v m)%Re) -> Un_cv v 0 -> Un_cv u 0.
Proof.
move=> Huv Hv eps Heps; have [N HN] := Hv eps Heps.
exists N => m Hm; have := HN m Hm; have := Huv m.
rewrite /Rdist !Rminus_0_r => H1 H2.
apply: Rle_lt_trans H1 _.
by apply: Rle_lt_trans (Rle_abs _) H2.
Qed.

Lemma Un_cv_bigsum (I : Type) (r : seq I) (u : I -> nat -> R) (l : I -> R) :
  (forall i, Un_cv (u i) (l i)) ->
  Un_cv (fun m => \sum_(i <- r) u i m) (\sum_(i <- r) l i).
Proof.
move=> Hu; elim: r => [|i r IH].
  rewrite big_nil; apply: Un_cv_eq (Un_cv_const 0) => m.
  by rewrite big_nil.
rewrite big_cons.
apply: Un_cv_eq (CV_plus _ _ _ _ (Hu i) IH) => m.
by rewrite big_cons.
Qed.

(** The scalar partial sums tend to the exponential. *)
Lemma exp_psum1_cv (x : R) : Un_cv (exp_psum1 x) (exp x).
Proof.
have := proj2_sig (exist_exp x); rewrite -/(exp x) /exp_in /infinite_sum.
move=> H; apply: Un_cv_eq H => m.
rewrite sum_f_R0E /exp_psum1; apply: eq_bigr => k _.
by rewrite RpowE.
Qed.

Lemma exp_rest_bound_cv (a b : R) : Un_cv (exp_rest_bound a b) 0.
Proof.
have H1 := CV_mult _ _ _ _ (exp_psum1_cv a) (exp_psum1_cv b).
have H2 := CV_minus _ _ _ _ H1 (exp_psum1_cv (a + b)).
have Hlim : (exp a * exp b - exp (a + b))%Re = 0.
  by rewrite [exp (a + b)]exp_plus Rminus_diag.
rewrite -Hlim; apply: Un_cv_eq H2 => m.
by rewrite exp_rest_boundE.
Qed.

End Limits.

Section Exponential.

Variable n : nat.
Implicit Types (X Y : 'M[R]_n).

Lemma exp_psum_entry X m i j :
  exp_psum X m i j = sum_f_R0 (exp_term X i j) m.
Proof.
rewrite sum_f_R0E /exp_psum summxE; apply: eq_bigr => k _.
by rewrite mxE.
Qed.

Lemma expmx_cv X i j : Un_cv (fun m => exp_psum X m i j) (expmx X i j).
Proof.
rewrite mxE; apply: Un_cv_eq (svalP (exp_series_cv X i j)) => m.
by rewrite exp_psum_entry.
Qed.

Lemma expmx_unique X (M : 'M[R]_n) :
  (forall i j, Un_cv (fun m => exp_psum X m i j) (M i j)) -> expmx X = M.
Proof.
move=> HM; apply/matrixP => i j.
exact: UL_sequence (expmx_cv X i j) (HM i j).
Qed.

(** The exponential of a sum of commuting matrices. *)
Lemma expmxD X Y : X * Y = Y * X -> expmx (X + Y) = expmx X * expmx Y.
Proof.
move=> Hcomm; apply: expmx_unique => i j.
have Hprod : Un_cv (fun m => (exp_psum X m * exp_psum Y m) i j)
                   ((expmx X * expmx Y) i j).
  rewrite mxE.
  apply: Un_cv_eq (Un_cv_bigsum (index_enum _)
    (fun k => CV_mult _ _ _ _ (expmx_cv X i k) (expmx_cv Y k j))) => m.
  by rewrite mxE.
have Hrest : Un_cv (fun m => exp_rest X Y m i j) 0.
  apply: Un_cv_squeeze (exp_rest_bound_cv (mxnorm X) (mxnorm Y)) => m.
  by apply: exp_rest_le; [exact: rowbound_mxnorm|exact: rowbound_mxnorm|
                          exact: mxnorm_ge0|exact: mxnorm_ge0].
have := CV_minus _ _ _ _ Hprod Hrest.
rewrite Rminus_0_r; apply: Un_cv_eq => m.
by rewrite exp_psum_mul // -/(exp_rest X Y m) mxE /Rminus -RoppE -RaddE addrK.
Qed.

End Exponential.

Section ExponentialFacts.

Variable n : nat.
Implicit Types (X Y : 'M[R]_n).

Lemma exp_coef0 : exp_coef 0 = 1.
Proof. by rewrite /exp_coef /= Rinv_1. Qed.

Lemma exp_psum0 m : exp_psum (0 : 'M[R]_n) m = 1.
Proof.
rewrite /exp_psum big_ord_recl expr0 exp_coef0 scale1r big1 ?addr0 //.
by move=> k _; rewrite /= /bump /= add1n exprS mul0r scaler0.
Qed.

Lemma expmx0 : expmx (0 : 'M[R]_n) = 1.
Proof.
apply: expmx_unique => i j.
by apply: Un_cv_eq (Un_cv_const _) => m; rewrite exp_psum0.
Qed.

Lemma trmx_exp X k : (X ^+ k)^T = X^T ^+ k.
Proof.
elim: k => [|k IH]; first by rewrite !expr0 trmx1.
by rewrite exprS exprSr -IH; exact: trmx_mul.
Qed.

Lemma exp_psum_tr X m : (exp_psum X m)^T = exp_psum X^T m.
Proof.
rewrite /exp_psum raddf_sum /=; apply: eq_bigr => k _.
by rewrite linearZ /= trmx_exp.
Qed.

Lemma expmx_tr X : (expmx X)^T = expmx X^T.
Proof.
symmetry; apply: expmx_unique => i j; rewrite mxE.
apply: Un_cv_eq (expmx_cv X j i) => m.
by rewrite -exp_psum_tr mxE.
Qed.

(** The exponential of an antisymmetric matrix is orthogonal. *)
Lemma expmx_orthogonal X : X^T = - X -> (expmx X)^T *m expmx X = 1%:M.
Proof.
move=> HX; rewrite expmx_tr HX.
have Hcomm : - X * X = X * - X by rewrite mulNr mulrN.
by rewrite -[_ *m _]/(expmx (- X) * expmx X) -expmxD // addNr expmx0.
Qed.

Lemma expmx_half X : expmx X = expmx (2%:R^-1 *: X) * expmx (2%:R^-1 *: X).
Proof.
rewrite -expmxD // -scalerDl.
have ->: 2%:R^-1 + 2%:R^-1 = 1 :> R.
  by rewrite -mulr2n -mulr_natr mulVf // two_neq0.
by rewrite scale1r.
Qed.

(** ... and has determinant 1: it is the square of an orthogonal matrix. *)
Lemma expmx_det1 X : X^T = - X -> \det (expmx X) = 1.
Proof.
move=> HX; set P := expmx (2%:R^-1 *: X).
have HP : P^T *m P = 1%:M.
  by apply: expmx_orthogonal; rewrite linearZ /= HX scalerN.
rewrite expmx_half -/P -[P * P]/(P *m P) det_mulmx.
by rewrite -{1}(det_tr P) -det_mulmx HP det1.
Qed.

End ExponentialFacts.

(** * The specified behaviour *)

(** ** The generator basis and the structure constants *)

Section BasisClaims.
Import Np NpFacts Liegr Index Build.
Local Open Scope Z_scope.

(** C1: for n in {2,3,4,5} and all generator indices I, J the commutator
    of the constructed generators, T[I].T[J] - T[J].T[I], equals the
    combination sum_K gamma[I,J,K].T[K] of the constructed structure
    constants. *)
Theorem commutator_identity (n I J : Z) :
  n = 2 \/ n = 3 \/ n = 4 \/ n = 5 ->
  0 <= I < dimN n -> 0 <= J < dimN n ->
  exists A TI TJ gI gIJ,
    [/\ init n = Ok A,
        getitem (alg_T A) I = Ok TI /\ getitem (alg_T A) J = Ok TJ,
        getitem (alg_gamma A) I = Ok gI /\ getitem gI J = Ok gIJ &
        commutator TI TJ = lincomb n gIJ (alg_T A)].
Proof.
move=> Hn; apply: commutator_check_allP.
by case: Hn => [->|[->|[->|->]]]; vm_compute.
Qed.

Lemma commutator_identity_witness :
  (0 <= 1 < dimN 4 /\ 0 <= 3 < dimN 4) /\
  exists A TI TJ gI gIJ,
    [/\ init 4 = Ok A,
        getitem (alg_T A) 1 = Ok TI /\ getitem (alg_T A) 3 = Ok TJ,
        getitem (alg_gamma A) 1 = Ok gI /\ getitem gI 3 = Ok gIJ &
        commutator TI TJ = lincomb 4 gIJ (alg_T A)].
Proof.
have H1 : 0 <= 1 < dimN 4 by vm_compute; split; congruence.
have H3 : 0 <= 3 < dimN 4 by vm_compute; split; congruence.
split; first by [].
exact: (@commutator_identity 4 1 3 (or_intror (or_intror (or_introl erefl)))
          H1 H3).
Defined.

(** C5: for n >= 2 and I, J, K in 0..N-1 the structure constants satisfy
    gamma[I,J,K] = - gamma[J,I,K] and gamma[I,I,K] = 0. *)
Theorem gamma_antisymmetric (n I J K : Z) :
  2 <= n ->
  0 <= I < dimN n -> 0 <= J < dimN n -> 0 <= K < dimN n ->
  exists A x,
    [/\ init n = Ok A,
        get3 (alg_gamma A) I J K = Ok x,
        get3 (alg_gamma A) J I K = Ok (- x) &
        get3 (alg_gamma A) I I K = Ok 0].
Proof.
move=> Hn HI HJ HK.
have [T [g [Hinit _ [f Hg Hf]]]] := @init_total n ltac:(lia).
exists (Algebra n (dimN n) T g), (f I J K); split=> //=.
- exact: get3_repr Hg _ _ _.
- by rewrite (get3_repr Hg) // (Hf I J K) // Z.opp_involutive.
- by rewrite (get3_repr Hg) //; congr Ok; have := Hf I I K HI HI HK; lia.
Qed.

Lemma gamma_antisymmetric_witness :
  (2 <= 3 /\ 0 <= 0 < dimN 3 /\ 0 <= 1 < dimN 3 /\ 0 <= 2 < dimN 3) /\
  exists A x,
    [/\ init 3 = Ok A,
        get3 (alg_gamma A) 0 1 2 = Ok x,
        get3 (alg_gamma A) 1 0 2 = Ok (- x) &
        get3 (alg_gamma A) 0 0 2 = Ok 0].
Proof.
have H0 : 0 <= 0 < dimN 3 by vm_compute; split; congruence.
have H1 : 0 <= 1 < dimN 3 by vm_compute; split; congruence.
have H2 : 0 <= 2 < dimN 3 by vm_compute; split; congruence.
have Hn : 2 <= 3 by vm_compute; congruence.
split; first by [].
exact: (@gamma_antisymmetric 3 0 1 2 Hn H0 H1 H2).
Defined.

(** C6, as the claim states it, fails: for n = 3 the generator of index 1
    belongs to the pair (0,2), the second pair in row-major order, and
    holds -1 at (0,2) and +1 at (2,0). *)
Lemma generator_sign_counterexample :
  exists A,
    [/\ init 3 = Ok A,
        znth (upper_pairs 3) 1 = Some (0, 2),
        get3 (alg_T A) 1 0 2 = Ok (-1) &
        get3 (alg_T A) 1 2 0 = Ok 1].
Proof. by eexists; split; vm_compute; reflexivity. Qed.

(** C6, amended: for n >= 2 and I in 0..N-1, with (i,j) the I-th pair in
    row-major order of the upper triangle, T[I] holds (-1)^(i+j+1) at
    (i,j), the opposite value at (j,i) and 0 elsewhere; the index map
    I -> (i,j) is the closed form [pair_of], a bijection between 0..N-1
    and the pairs 0 <= i < j < n whose inverse is [pair_idx]. *)
Theorem generator_entries (n I : Z) :
  2 <= n -> 0 <= I < dimN n ->
  exists A i j,
    [/\ init n = Ok A,
        znth (upper_pairs n) I = Some (i, j) /\ pair_of n I = (i, j),
        0 <= i < j /\ j < n,
        forall r c, 0 <= r < n -> 0 <= c < n ->
          get3 (alg_T A) I r c =
          Ok (if (r =? i) && (c =? j) then minus_one_pow (i + j + 1)
              else if (r =? j) && (c =? i) then - minus_one_pow (i + j + 1)
              else 0) &
        (forall J, 0 <= J < dimN n -> pair_of n J = (i, j) -> J = I) /\
        (forall a b, 0 <= a < b -> b < n ->
           0 <= pair_idx n a b < dimN n /\ pair_of n (pair_idx n a b) = (a, b))].
Proof.
move=> Hn HI.
have [T [g [Hinit HT _]]] := @init_total n ltac:(lia).
have [i [j [Hpair Hrow Hi Hj Hidx]]] := @pair_of_spec n I ltac:(lia) HI.
exists (Algebra n (dimN n) T g), i, j; split=> //=.
- by split=> //; rewrite -Hidx; apply: upper_pairs_nth.
- move=> r c Hr Hc; rewrite (get3_repr HT) //.
  by rewrite /gen_entry Hpair.
- split.
    move=> J HJ HpJ; apply: (@pair_of_inj n) => //; try lia.
    by rewrite HpJ.
  move=> a b Ha Hb; split; first exact: pair_idx_range.
  exact: pair_of_idx.
Qed.

Lemma generator_entries_witness :
  (2 <= 4 /\ 0 <= 4 < dimN 4) /\
  exists A i j,
    [/\ init 4 = Ok A,
        znth (upper_pairs 4) 4 = Some (i, j) /\ pair_of 4 4 = (i, j),
        0 <= i < j /\ j < 4,
        forall r c, 0 <= r < 4 -> 0 <= c < 4 ->
          get3 (alg_T A) 4 r c =
          Ok (if (r =? i) && (c =? j) then minus_one_pow (i + j + 1)
              else if (r =? j) && (c =? i) then - minus_one_pow (i + j + 1)
              else 0) &
        (forall J, 0 <= J < dimN 4 -> pair_of 4 J = (i, j) -> J = 4) /\
        (forall a b, 0 <= a < b -> b < 4 ->
           0 <= pair_idx 4 a b < dimN 4 /\ pair_of 4 (pair_idx 4 a b) = (a, b))].
Proof.
have Hn : 2 <= 4 by vm_compute; congruence.
have HI : 0 <= 4 < dimN 4 by vm_compute; split; congruence.
split; first by [].
exact: (@generator_entries 4 4 Hn HI).
Defined.

(** C9, as the claim states it, fails: constructing with n = 1 raises
    nothing and returns an empty basis. *)
Lemma init_dimension_counterexample :
  1 < 2 /\ init 1 = Ok (Algebra 1 0 nil nil) /\ ~ exists e, init 1 = Raise e.
Proof. by split=> //; split; [vm_compute|case=> e; vm_compute]. Qed.

(** C9, amended: for n < 2 no InvalidDimension error exists; n = 0 and
    n = 1 construct an empty basis with N = 0, and a negative n fails with
    the ValueError of np.zeros on a negative dimension. *)
Theorem init_small_dimension (n : Z) :
  n < 2 ->
  (0 <= n -> init n = Ok (Algebra n 0 nil nil)) /\
  (n < 0 -> init n = Raise ValueError).
Proof.
move=> Hn; split=> Hn0.
  by have [->| ->] : n = 0 \/ n = 1 by lia.
rewrite /init /build_T /zeros3.
have ->: (n <? 0) = true by apply/Z.ltb_lt.
by rewrite !orbT.
Qed.

Lemma init_small_dimension_witness :
  -3 < 2 /\
  (0 <= -3 -> init (-3) = Ok (Algebra (-3) 0 nil nil)) /\
  (-3 < 0 -> init (-3) = Raise ValueError).
Proof.
have Hn : -3 < 2 by vm_compute.
split; first by [].
exact: (@init_small_dimension (-3) Hn).
Defined.

End BasisClaims.

(** ** The basis of so(n) *)

Section BasisOfAlgebra.

Lemma In_znth (B : Type) (l : list B) (x : B) :
  List.In x l -> exists2 k, (0 <= k < zlen l)%Z & znth l k = Some x.
Proof.
elim: l => [|y l IH] //= [->|Hin].
  by exists 0%Z => //; have := @zlen_ge0 _ l; lia.
have [k Hk Hx] := IH Hin; exists (k + 1)%Z; first lia.
have ->: (k + 1 =? 0)%Z = false by apply/Z.eqb_neq; lia.
by rewrite Z.add_simpl_r.
Qed.

Lemma repr_In (B C : Type) (P : B -> C -> Prop) l d f x :
  repr P l d f -> List.In x l -> exists2 i, (0 <= i < d)%Z & P x (f i).
Proof.
move=> [Hlen Hcell] Hin; have [k Hk Hx] := In_znth Hin.
exists k; first lia.
have Hk' : (0 <= k < d)%Z by lia.
have [y Hy Py] := Hcell k Hk'.
by move: Hy; rewrite Hx => -[->].
Qed.

(** C4: for n >= 2 the construction yields exactly N = n(n-1)/2
    generators, each an n x n antisymmetric matrix; they are linearly
    independent and span the antisymmetric n x n matrices; n = 2 gives
    N = 1. *)
Theorem generators_basis (n : Z) :
  (2 <= n)%Z ->
  exists A,
    [/\ init n = Ok A,
        [/\ (2 * alg_N A = n * (n - 1))%Z, zlen (alg_T A) = alg_N A &
            (n = 2%Z -> alg_N A = 1%Z)],
        (forall m, List.In m (alg_T A) ->
           zlen m = n /\ (forall row, List.In row m -> zlen row = n)),
        (forall I : 'I_(rank A), (gen I)^T = - gen I) &
        (forall x : 'I_(rank A) -> R,
           alg_mx x = 0 -> forall I, x I = 0) /\
        (forall M : 'M[R]_(dim A),
           M^T = - M -> exists x : 'I_(rank A) -> R, M = alg_mx x)].
Proof.
move=> Hn.
have Hn0 : (0 <= n)%Z by lia.
have [T [g [Hinit HT _]]] := init_total Hn0.
exists (Algebra n (dimN n) T g); split=> //=.
- split; first exact: dimN_double.
    by case: HT.
  by move=> ->.
- move=> m Hin; have [I _ Hm] := repr_In HT Hin.
  split; first by case: Hm.
  by move=> row Hrow; have [r _ [Hlen _]] := repr_In Hm Hrow.
- exact: gen_antisym.
- split; first exact: gen_free.
  by move=> M HM; exists (coeffs_of M); apply: gen_span.
Qed.

Lemma generators_basis_witness :
  (2 <= 3)%Z /\
  exists A,
    [/\ init 3 = Ok A,
        [/\ (2 * alg_N A = 3 * (3 - 1))%Z, zlen (alg_T A) = alg_N A &
            (3%Z = 2%Z -> alg_N A = 1%Z)],
        (forall m, List.In m (alg_T A) ->
           zlen m = 3%Z /\ (forall row, List.In row m -> zlen row = 3%Z)),
        (forall I : 'I_(rank A), (gen I)^T = - gen I) &
        (forall x : 'I_(rank A) -> R,
           alg_mx x = 0 -> forall I, x I = 0) /\
        (forall M : 'M[R]_(dim A),
           M^T = - M -> exists x : 'I_(rank A) -> R, M = alg_mx x)].
Proof.
have Hn : (2 <= 3)%Z by vm_compute; congruence.
split; first by [].
exact: (@generators_basis 3 Hn).
Defined.

(** C10: for n >= 2 the generators are orthogonal for the Frobenius inner
    product with squared norm 2, trace(T_I^T.T_J) = 2.delta_IJ, so that the
    read-out x_I = sum_jk X[j,k].T_I[j,k] / 2 inverts the formation of
    X = sum_I x_I.T_I. *)
Theorem generators_orthonormal (n : Z) :
  (2 <= n)%Z ->
  exists A,
    [/\ init n = Ok A,
        (forall I J : 'I_(rank A),
           \tr ((gen I)^T *m gen J) = if I == J then 2%:R else 0) &
        (forall (x : 'I_(rank A) -> R) (I : 'I_(rank A)),
           coeffs_of (alg_mx x) I = x I)].
Proof.
move=> Hn.
have Hn0 : (0 <= n)%Z by lia.
have [T [g [Hinit HT _]]] := init_total Hn0.
exists (Algebra n (dimN n) T g); split=> //.
- exact: gen_trace.
- exact: coeffs_of_alg_mx.
Qed.

Lemma generators_orthonormal_witness :
  (2 <= 4)%Z /\
  exists A,
    [/\ init 4 = Ok A,
        (forall I J : 'I_(rank A),
           \tr ((gen I)^T *m gen J) = if I == J then 2%:R else 0) &
        (forall (x : 'I_(rank A) -> R) (I : 'I_(rank A)),
           coeffs_of (alg_mx x) I = x I)].
Proof.
have Hn : (2 <= 4)%Z by vm_compute; congruence.
split; first by [].
exact: (@generators_orthonormal 4 Hn).
Defined.

End BasisOfAlgebra.

(** ** The update of a row stays on the manifold *)

Section OrthoClaims.
Import Ortho OrthoGraph.

(** C2: for an orthogonal V and any gradient G of the same shape, with
    skew = V^T.G - G^T.V (antisymmetric) and
    M = (I - (lr/2).skew).(I + (lr/2).skew)^-1, the update V.M computed by
    the optimizer is orthogonal, for every learning rate for which
    I + (lr/2).skew is invertible. *)
Theorem cayley_update_orthogonal (n : nat)
    (on_singular : 'M[R]_n -> res 'M[R]_n) (lr : R) (V G : 'M[R]_n) :
  V^T *m V = 1%:M ->
  1%:M + 2%:R^-1 *: (lr *: get_grads_row V G) \in unitmx ->
  [/\ get_grads_row V G = V^T *m G - G^T *m V,
      (get_grads_row V G)^T = - get_grads_row V G &
      exists2 Vnew,
        apply_grads_row on_singular lr (get_grads_row V G) V = Ok Vnew &
        Vnew = V *m ((1%:M - 2%:R^-1 *: (lr *: get_grads_row V G)) *m
                     invmx (1%:M + 2%:R^-1 *: (lr *: get_grads_row V G))) /\
        Vnew^T *m Vnew = 1%:M].
Proof.
move=> HV HD; split; first exact: get_grads_rowE.
  exact: get_grads_row_antisym.
set S := get_grads_row V G in HD *.
set A := 2%:R^-1 *: (lr *: S) in HD *.
have HA : A^T = - A.
  by rewrite /A !linearZ /= get_grads_row_antisym !scalerN.
exists (V *m ((1%:M - A) *m invmx (1%:M + A))).
  by rewrite /apply_grads_row /matrix_inverse -/A HD.
split=> //.
rewrite trmx_mul mulmxA -[_ *m V^T *m V]mulmxA HV mulmx1.
exact: cayley_orthogonal.
Qed.

Lemma cayley_update_orthogonal_witness :
  let V : 'M[R]_2 := 1%:M in
  let G : 'M[R]_2 := \matrix_(i, j) (i + 2 * j)%:R in
  let lr : R := 10%:R^-1 in
  let raise : 'M[R]_2 -> res 'M[R]_2 := fun _ => Raise InvalidArgumentError in
  (V^T *m V = 1%:M /\
   1%:M + 2%:R^-1 *: (lr *: get_grads_row V G) \in unitmx) /\
  [/\ get_grads_row V G = V^T *m G - G^T *m V,
      (get_grads_row V G)^T = - get_grads_row V G &
      exists2 Vnew,
        apply_grads_row raise lr (get_grads_row V G) V = Ok Vnew &
        Vnew = V *m ((1%:M - 2%:R^-1 *: (lr *: get_grads_row V G)) *m
                     invmx (1%:M + 2%:R^-1 *: (lr *: get_grads_row V G))) /\
        Vnew^T *m Vnew = 1%:M].
Proof.
move=> V G lr raise.
have HV : V^T *m V = 1%:M by rewrite /V trmx1 mulmx1.
have HD : 1%:M + 2%:R^-1 *: (lr *: get_grads_row V G) \in unitmx.
  apply: cayley_denominator_unit.
  by rewrite !linearZ /= get_grads_row_antisym !scalerN.
split; first by [].
exact: (@cayley_update_orthogonal 2 raise lr V G HV HD).
Defined.



End OrthoClaims.

(** ** The exponential map and its gradient *)

Section ExpClaims.
Import Ortho ExpMap.

(** C3: for every coefficient vector x of length N the output of the
    exponential map, exp(sum_I x_I.T_I), is an orthogonal matrix of
    determinant +1. *)
Theorem expm_special_orthogonal (n : Z) :
  (2 <= n)%Z ->
  exists A,
    init n = Ok A /\
    forall alg : seq 'rV[R]_(rank A),
      size (expm alg) = size alg /\
      forall M, M \in expm alg -> M^T *m M = 1%:M /\ \det M = 1.
Proof.
move=> Hn.
have Hn0 : (0 <= n)%Z by lia.
have [T [g [Hinit HT _]]] := init_total Hn0.
exists (Algebra n (dimN n) T g); split=> // alg.
split; first by rewrite /expm !size_map.
move=> M; rewrite /expm -map_comp => /mapP[a _ ->] /=.
have Hanti := @alg_mx_antisym n T g Hn0 HT (fun j => a 0 j).
by split; [exact: expmx_orthogonal|exact: expmx_det1].
Qed.

Lemma expm_special_orthogonal_witness :
  (2 <= 3)%Z /\
  exists A,
    init 3 = Ok A /\
    forall alg : seq 'rV[R]_(rank A),
      size (expm alg) = size alg /\
      forall M, M \in expm alg -> M^T *m M = 1%:M /\ \det M = 1.
Proof.
have Hn : (2 <= 3)%Z by vm_compute; congruence.
split; first by [].
exact: (@expm_special_orthogonal 3 Hn).
Defined.

Lemma deltaqE : deltaq * 10%:R ^+ 4 = 1.
Proof.
rewrite /deltaq mulVf // expf_neq0 //.
by apply: natr_neq0.
Qed.

Lemma deltaq_neq0 : deltaq != 0.
Proof.
by apply/eqP => H0; have := deltaqE; rewrite H0 mul0r => /eqP;
   rewrite eq_sym oner_eq0.
Qed.

(** The upstream gradient is never read. *)
Lemma exp_grad_item_upstream (A : algebra)
    (on_singular : 'M[R]_(rank A) -> res 'M[R]_(rank A))
    (x_raw y g1 g2 : 'M[R]_(dim A)) :
  exp_grad_item on_singular x_raw y g1 = exp_grad_item on_singular x_raw y g2.
Proof. by []. Qed.


End ExpClaims.

(** * Further properties of the program *)

(** ** The structure constants in closed form *)

Module GammaBuild.
Import Np NpFacts Liegr Index Build.
Local Open Scope Z_scope.

(** Generators are numbered row by row: a later generator sits in the same
    or a later row, and in the same row further right. *)
Lemma pair_of_mono (n I J : Z) :
  0 <= n -> 0 <= I < J -> J < dimN n ->
  exists iI jI iJ jJ,
    [/\ pair_of n I = (iI, jI), pair_of n J = (iJ, jJ),
        row_of n I = Ok iI /\ row_of n J = Ok iJ,
        0 <= iI < jI /\ jI < n /\ 0 <= iJ < jJ /\ jJ < n &
        iI < iJ \/ (iI = iJ /\ jI < jJ)].
Proof.
move=> Hn HI HJ.
have [iI [jI [HpI HrI HiI HjI HxI]]] := @pair_of_spec n I Hn ltac:(lia).
have [iJ [jJ [HpJ HrJ HiJ HjJ HxJ]]] := @pair_of_spec n J Hn ltac:(lia).
exists iI, jI, iJ, jJ; split=> //.
have [Hlt|[Heq|Hgt]] : iI < iJ \/ iI = iJ \/ iJ < iI by lia.
- by left.
- by right; split=> //; move: HxI HxJ; rewrite /pair_idx Heq; lia.
- exfalso; move: HxI HxJ; rewrite /pair_idx.
  have := @row_start_mono n (iJ + 1) iI ltac:(lia) ltac:(lia).
  have := row_start_succ n iJ; lia.
Qed.

Lemma pair_index_small (n a b : Z) :
  0 <= b < a -> a < n ->
  pair_index n (dimN n) a b = Ok (pair_idx n b a) /\
  0 <= pair_idx n b a < dimN n.
Proof.
move=> Hb Ha; have HK := @pair_idx_range n b a ltac:(lia) ltac:(lia).
split=> //; rewrite /pair_index.
have ->: (dimN n =? 0) = false by apply/Z.eqb_neq; lia.
congr Ok; rewrite /pair_idx in HK *.
by rewrite Z.mod_small; lia.
Qed.

(** The body of the inner loop writes at most one pair of cells. *)
Lemma gamma_step_pick (n I J : Z) (g : arr3) :
  0 <= n -> 0 <= I < J -> J < dimN n ->
  gamma_step n (dimN n) I g J =
  match gamma_pick n I J with
  | Some (K, v) => gamma_write g I J K v
  | None => Ok g
  end /\
  (forall K v, gamma_pick n I J = Some (K, v) ->
     0 <= K < dimN n /\ (v = 1 \/ v = -1)).
Proof.
move=> Hn HI HJ.
have [iI [jI [iJ [jJ [HpI HpJ [HrI HrJ] Hrng Hord]]]]] := pair_of_mono Hn HI HJ.
have HjI : col_of n I iI = jI by move: HpI; rewrite /pair_of HrI; case.
have HjJ : col_of n J iJ = jJ by move: HpJ; rewrite /pair_of HrJ; case.
rewrite /gamma_step /gamma_pick HrI HrJ /= HjI HjJ HpI HpJ.
case: (Z.eqb_spec iI iJ) => [Hi|Hi] /=.
  have ->: (jI =? jJ) = false by apply/Z.eqb_neq; lia.
  have ->: (jI =? iJ) = false by apply/Z.eqb_neq; lia.
  have ->: (iI =? jJ) = false by apply/Z.eqb_neq; lia.
  have [HK Hr] := @pair_index_small n jJ jI ltac:(lia) ltac:(lia).
  rewrite /gamma_case HK /=; split; first by case: (gamma_write _ _ _ _ _).
  by move=> K v [<- <-]; split=> //; left.
have ->: (iI =? jJ) = false by apply/Z.eqb_neq; lia.
case: (Z.eqb_spec jI jJ) => [Hj|Hj] /=.
  have ->: (jI =? iJ) = false by apply/Z.eqb_neq; lia.
  have [HK Hr] := @pair_index_small n iJ iI ltac:(lia) ltac:(lia).
  rewrite /gamma_case HK /=; split; first by case: (gamma_write _ _ _ _ _).
  by move=> K v [<- <-]; split=> //; left.
case: (Z.eqb_spec jI iJ) => [Hji|Hji] /=.
  have [HK Hr] := @pair_index_small n jJ iI ltac:(lia) ltac:(lia).
  rewrite /gamma_case HK /=; split; first by case: (gamma_write _ _ _ _ _).
  by move=> K v [<- <-]; split=> //; right.
by split.
Qed.

Lemma gamma_upper_range (n I J K : Z) :
  0 <= n -> 0 <= I < J -> J < dimN n ->
  gamma_upper n I J K <> 0 -> 0 <= K < dimN n.
Proof.
move=> Hn HI HJ; rewrite /gamma_upper.
have [_ Hrng] := gamma_step_pick nil Hn HI HJ.
case Hp: (gamma_pick n I J) Hrng => [[K' v]|] // /(_ K' v erefl) [HK _].
by case: (Z.eqb_spec K K') => [->|].
Qed.

(** The cells that the loops have visited before the iteration [(I, J)]. *)
Definition visited (I J a b : Z) : bool :=
  (Z.min a b <? I) || ((Z.min a b =? I) && (Z.max a b <? J)).

Definition gamma_upto (n I J : Z) : Z -> Z -> Z -> Z :=
  fun a b c => if visited I J a b then gamma_entry n a b c else 0.

Lemma gamma_entry_diag n a c : gamma_entry n a a c = 0.
Proof. by rewrite /gamma_entry Z.ltb_irrefl. Qed.

Lemma gamma_upto_new (n I J c : Z) :
  I < J ->
  gamma_upto n I (J + 1) I J c = gamma_upper n I J c /\
  gamma_upto n I (J + 1) J I c = - gamma_upper n I J c.
Proof.
move=> HIJ; rewrite /gamma_upto /visited /gamma_entry.
have ->: (Z.min I J =? I) = true by apply/Z.eqb_eq; lia.
have ->: (Z.min J I =? I) = true by apply/Z.eqb_eq; lia.
have ->: (Z.max I J <? J + 1) = true by apply/Z.ltb_lt; lia.
have ->: (Z.max J I <? J + 1) = true by apply/Z.ltb_lt; lia.
have ->: (J <? I) = false by apply/Z.ltb_ge; lia.
have ->: (I <? J) = true by apply/Z.ltb_lt; lia.
by rewrite !orbT.
Qed.

Lemma gamma_upto_old (n I J c : Z) :
  I < J -> gamma_upto n I J I J c = 0 /\ gamma_upto n I J J I c = 0.
Proof.
move=> HIJ; rewrite /gamma_upto /visited.
have ->: (Z.min I J <? I) = false by apply/Z.ltb_ge; lia.
have ->: (Z.min J I <? I) = false by apply/Z.ltb_ge; lia.
have ->: (Z.max I J <? J) = false by apply/Z.ltb_ge; lia.
have ->: (Z.max J I <? J) = false by apply/Z.ltb_ge; lia.
by rewrite !andbF.
Qed.

Lemma gamma_upto_other (n I J a b c : Z) :
  I < J -> a <> I \/ b <> J -> a <> J \/ b <> I ->
  gamma_upto n I (J + 1) a b c = gamma_upto n I J a b c.
Proof.
move=> HIJ H1 H2; rewrite /gamma_upto /visited.
case: (Z.ltb_spec (Z.min a b) I) => //= Hmin.
case: (Z.eqb_spec (Z.min a b) I) => //= Hmin'.
by case: (Z.ltb_spec (Z.max a b) (J + 1));
   case: (Z.ltb_spec (Z.max a b) J) => //; lia.
Qed.

Lemma gamma_step_spec (n I J : Z) (g : arr3) :
  0 <= n -> 0 <= I < J -> J < dimN n ->
  repr3 (dimN n) (dimN n) (dimN n) g (gamma_upto n I J) ->
  exists2 g', gamma_step n (dimN n) I g J = Ok g' &
    repr3 (dimN n) (dimN n) (dimN n) g' (gamma_upto n I (J + 1)).
Proof.
move=> Hn HI HJ Hg.
have HIJ : I < J by lia.
have [-> Hrng] := gamma_step_pick g Hn HI HJ.
have Hcell a b c :
    gamma_upto n I (J + 1) a b c =
    if (a =? I) && (b =? J) then gamma_upper n I J c
    else if (a =? J) && (b =? I) then - gamma_upper n I J c
    else gamma_upto n I J a b c.
  have [Hnew1 Hnew2] := gamma_upto_new n c HIJ.
  case: (Z.eqb_spec a I) => [Ha|Ha] /=.
    case: (Z.eqb_spec b J) => [Hb|Hb] /=; first by rewrite Ha Hb.
    have HIJ' : a <> J by lia.
    have ->: (a =? J) = false by apply/Z.eqb_neq.
    by rewrite /= (gamma_upto_other n c HIJ (or_intror Hb) (or_introl HIJ')).
  case: (Z.eqb_spec a J) => [Ha'|Ha'] /=; last first.
    by rewrite (gamma_upto_other n c HIJ (or_introl Ha) (or_introl Ha')).
  case: (Z.eqb_spec b I) => [Hb|Hb] /=; first by rewrite Ha' Hb.
  by rewrite (gamma_upto_other n c HIJ (or_introl Ha) (or_intror Hb)).
case Hp: (gamma_pick n I J) Hrng => [[K v]|] Hrng.
  have [HK Hv] := Hrng K v erefl.
  rewrite /gamma_write.
  have [g1 -> Hg1] /= := @set3_repr _ _ _ _ _ I J K v Hg
    ltac:(lia) ltac:(lia) HK.
  have [g2 -> Hg2] := @set3_repr _ _ _ _ _ J I K (- v) Hg1
    ltac:(lia) ltac:(lia) HK.
  exists g2 => //; apply: repr3_ext Hg2 => a b c Ha Hb Hc.
  rewrite !fupd3E Hcell /gamma_upper Hp.
  have [Hold1 Hold2] := gamma_upto_old n c HIJ.
  case: (Z.eqb_spec a J) => [->|HaJ] /=.
    have ->: (J =? I) = false by apply/Z.eqb_neq; lia.
    case: (Z.eqb_spec b I) => [->|HbI] //=.
    by rewrite Hold2; case: (Z.eqb_spec c K).
  case: (Z.eqb_spec a I) => [->|HaI] //=.
  case: (Z.eqb_spec b J) => [->|HbJ] //=.
  by rewrite Hold1; case: (Z.eqb_spec c K).
exists g => //; apply: repr3_ext Hg => a b c Ha Hb Hc.
rewrite Hcell /gamma_upper Hp.
have [Hold1 Hold2] := gamma_upto_old n c HIJ.
have HneIJ : (I =? J) = false by apply/Z.eqb_neq; lia.
case: (Z.eqb_spec a I) => [->|HaI] /=.
  by case: (Z.eqb_spec b J) => [->|HbJ] /=; rewrite ?Hold1 ?HneIJ.
case: (Z.eqb_spec a J) => [->|HaJ] //=.
by case: (Z.eqb_spec b I) => [->|HbI] //=; rewrite Hold2.
Qed.

(** The structure-constant loops leave the closed form in every cell. *)
Lemma build_gamma_entries (n : Z) :
  0 <= n ->
  exists2 g, build_gamma n = Ok g &
    repr3 (dimN n) (dimN n) (dimN n) g (gamma_entry n).
Proof.
move=> Hn; rewrite /build_gamma.
have HN := @dimN_ge0 n.
have [g0 -> Hg0] /= := zeros3_repr HN HN HN.
rewrite range_from0.
pose Inv k g := repr3 (dimN n) (dimN n) (dimN n) g (gamma_upto n k 0).
have [g Hg HinvG] : exists2 g,
    for_each (gamma_row n (dimN n)) (range_from 0 (dimN n)) g0 = Ok g &
    Inv (dimN n) g.
  apply: (@for_each_range _ _ Inv) => //.
    apply: repr3_ext Hg0 => a b c Ha Hb Hc.
    rewrite /gamma_upto /visited.
    have ->: (Z.min a b <? 0) = false by apply/Z.ltb_ge; lia.
    have ->: (Z.max a b <? 0) = false by apply/Z.ltb_ge; lia.
    by rewrite andbF.
  move=> I g HI Hg; rewrite /gamma_row.
  have [g' Hg' Hinv'] : exists2 g',
      for_each (gamma_step n (dimN n) I) (range_from (I + 1) (dimN n)) g
        = Ok g' &
      repr3 (dimN n) (dimN n) (dimN n) g' (gamma_upto n I (dimN n)).
    apply: (@for_each_range _ _
      (fun J g => repr3 (dimN n) (dimN n) (dimN n) g (gamma_upto n I J)));
      first lia.
      apply: repr3_ext Hg => a b c Ha Hb Hc.
      rewrite /gamma_upto /visited.
      have ->: (Z.max a b <? 0) = false by apply/Z.ltb_ge; lia.
      rewrite andbF orbF.
      case: (Z.ltb_spec (Z.min a b) I) => //= Hmin.
      case: (Z.eqb_spec (Z.min a b) I) => //= Hmin'.
      case: (Z.ltb_spec (Z.max a b) (I + 1)) => //= Hmax.
      have ->: a = b by lia.
      by rewrite gamma_entry_diag.
    by move=> J g1 HJ Hg1; apply: gamma_step_spec => //; lia.
  exists g' => //; apply: repr3_ext Hinv' => a b c Ha Hb Hc.
  rewrite /gamma_upto /visited.
  have ->: (Z.max a b <? dimN n) = true by apply/Z.ltb_lt; lia.
  have ->: (Z.max a b <? 0) = false by apply/Z.ltb_ge; lia.
  rewrite andbT andbF orbF.
  by case: Z.ltb_spec; case: Z.eqb_spec; case: Z.ltb_spec => //; lia.
exists g => //; apply: repr3_ext HinvG => a b c Ha Hb Hc.
rewrite /gamma_upto /visited.
by have ->: (Z.min a b <? dimN n) = true by apply/Z.ltb_lt; lia.
Qed.

End GammaBuild.

Import GammaBuild.

Section InitEntries.
Local Open Scope Z_scope.

Lemma init_entries (n : Z) :
  0 <= n ->
  exists T g, [/\ init n = Ok (Algebra n (dimN n) T g),
                  repr3 (dimN n) n n T (gen_entry n) &
                  repr3 (dimN n) (dimN n) (dimN n) g (gamma_entry n)].
Proof.
move=> Hn; rewrite /init.
have [T -> HT] /= := build_T_spec Hn.
have [g -> Hg] /= := build_gamma_entries Hn.
by exists T, g.
Qed.

Lemma minus_one_pow_triple (a b c : Z) :
  minus_one_pow (a + b + 1) * minus_one_pow (a + c + 1) =
  - minus_one_pow (b + c + 1).
Proof.
rewrite /minus_one_pow !Z.even_add.
by case: (Z.even a); case: (Z.even b); case: (Z.even c).
Qed.

Lemma minus_one_pow_sym (a b : Z) :
  minus_one_pow (a + b + 1) = minus_one_pow (b + a + 1).
Proof. by rewrite (Z.add_comm a b). Qed.

End InitEntries.

Section CommutatorFacts.

Variables (n : Z) (T g : arr3).
Hypothesis Hn : (0 <= n)%Z.
Hypothesis HT : repr3 (dimN n) n n T (gen_entry n).
Hypothesis Hg : repr3 (dimN n) (dimN n) (dimN n) g (gamma_entry n).

Local Notation A := (Algebra n (dimN n) T g).

Lemma gamE (I J K : 'I_(rank A)) :
  gam I J K = IZR (gamma_entry n (Z.of_nat I) (Z.of_nat J) (Z.of_nat K)).
Proof.
rewrite /gam /cell /= (get3_repr Hg) //; exact: (@ord_rank n T g).
Qed.

Lemma sign_of_sym (i j : nat) : sign_of i j = sign_of j i.
Proof. by rewrite /sign_of minus_one_pow_sym. Qed.

Lemma sign_of_triple (a b c : nat) :
  sign_of a b * sign_of a c = - sign_of b c.
Proof.
by rewrite /sign_of RmulE -mult_IZR minus_one_pow_triple opp_IZR.
Qed.

(** The elementary antisymmetric matrix of a pair of positions. *)
Definition skew_unit (i j : 'I_(dim A)) : 'M[R]_(dim A) :=
  delta_mx i j - delta_mx j i.

Lemma gen_skew_unit (I : 'I_(rank A)) (i j : 'I_(dim A)) :
  pair_of n (Z.of_nat I) = (Z.of_nat i, Z.of_nat j) -> (i < j)%nat ->
  gen I = sign_of i j *: skew_unit i j.
Proof.
move=> Hpair Hij; apply/matrixP => r c.
have Hne : (i == j) = false by apply/negbTE; rewrite neq_ltn Hij.
rewrite (gen_cases HT r c Hpair) /skew_unit !mxE.
have [->|Hri] := eqVneq r i; have [->|Hcj] := eqVneq c j;
  rewrite /= ?Hne ?[j == i]eq_sym ?Hne ?andbF ?andbT /=
          ?subr0 ?sub0r ?subrr ?mulr1 ?mulr0 ?mulrN1 ?mulrN ?mulr1 //.
by case: ((r == j) && (c == i)); rewrite ?mulr1 ?mulr0 ?oppr0.
Qed.

Lemma skew_unit_mul (i j k l : 'I_(dim A)) :
  skew_unit i j *m skew_unit k l =
  delta_mx i l *+ (j == k) - delta_mx i k *+ (j == l)
  - delta_mx j l *+ (i == k) + delta_mx j k *+ (i == l).
Proof.
rewrite /skew_unit mulmxBl !mulmxBr !mul_delta_mx_cond.
by rewrite opprD opprK addrA.
Qed.

Lemma skew_unit_row (i j l : 'I_(dim A)) :
  i != j -> i != l -> j != l ->
  skew_unit i j *m skew_unit i l - skew_unit i l *m skew_unit i j =
  - skew_unit j l.
Proof.
move=> Hij Hil Hjl; rewrite !skew_unit_mul.
rewrite eqxx (negbTE Hij) (negbTE Hil) (negbTE Hjl).
rewrite ![_ == i]eq_sym (negbTE Hij) (negbTE Hil) [l == j]eq_sym (negbTE Hjl).
rewrite !mulr0n !mulr1n.
by rewrite /skew_unit !subr0 !addr0 !sub0r opprK opprB addrC.
Qed.

Lemma skew_unit_col (i k j : 'I_(dim A)) :
  i != j -> k != j -> i != k ->
  skew_unit i j *m skew_unit k j - skew_unit k j *m skew_unit i j =
  - skew_unit i k.
Proof.
move=> Hij Hkj Hik; rewrite !skew_unit_mul.
rewrite eqxx (negbTE Hij) (negbTE Hkj) (negbTE Hik).
rewrite ![j == _]eq_sym (negbTE Hij) (negbTE Hkj) [k == i]eq_sym (negbTE Hik).
rewrite !mulr0n !mulr1n.
by rewrite /skew_unit !subr0 !addr0 !sub0r opprK opprB addrC.
Qed.

Lemma skew_unit_chain (i j l : 'I_(dim A)) :
  i != j -> i != l -> j != l ->
  skew_unit i j *m skew_unit j l - skew_unit j l *m skew_unit i j =
  skew_unit i l.
Proof.
move=> Hij Hil Hjl; rewrite !skew_unit_mul.
rewrite !eqxx (negbTE Hij) (negbTE Hil) (negbTE Hjl).
rewrite ![_ == i]eq_sym (negbTE Hij) (negbTE Hil) [l == j]eq_sym (negbTE Hjl).
rewrite !mulr0n !mulr1n.
by rewrite /skew_unit !subr0 !addr0 !add0r.
Qed.

Lemma skew_unit_apart (i j k l : 'I_(dim A)) :
  i != k -> i != l -> j != k -> j != l ->
  skew_unit i j *m skew_unit k l - skew_unit k l *m skew_unit i j = 0.
Proof.
move=> Hik Hil Hjk Hjl; rewrite !skew_unit_mul.
rewrite (negbTE Hik) (negbTE Hil) (negbTE Hjk) (negbTE Hjl).
rewrite [k == i]eq_sym [l == i]eq_sym [k == j]eq_sym [l == j]eq_sym.
rewrite (negbTE Hik) (negbTE Hil) (negbTE Hjk) (negbTE Hjl).
by rewrite !mulr0n !(subr0, addr0).
Qed.

Lemma pair_idx_ord (K : 'I_(rank A)) (a b : Z) :
  pair_of n (Z.of_nat K) = (a, b) -> Z.of_nat K = pair_idx n a b.
Proof.
have [i [j [-> _ _ _ Hidx]]] := pair_of_spec Hn (@ord_rank n T g K).
by case=> <- <-.
Qed.

Lemma commutator_scaled (a b : R) (X Y : 'M[R]_(dim A)) :
  (a *: X) *m (b *: Y) - (b *: Y) *m (a *: X) =
  (a * b) *: (X *m Y - Y *m X).
Proof.
by rewrite -!scalemxAl -!scalemxAr !scalerA scalerBr [b * a]mulrC.
Qed.

Lemma gam_sum_pick (I J K0 : 'I_(rank A)) (v : Z) :
  (I < J)%nat ->
  gamma_pick n (Z.of_nat I) (Z.of_nat J) = Some (Z.of_nat K0, v) ->
  \sum_K gam I J K *: gen K = IZR v *: gen K0.
Proof.
move=> /ltP HIJ Hp.
have Hlt : (Z.of_nat I <? Z.of_nat J)%Z = true by apply/Z.ltb_lt; lia.
rewrite (bigD1 K0) //= big1 ?addr0.
  move=> K HK; rewrite gamE /gamma_entry Hlt /gamma_upper Hp Zeqb_ord.
  by rewrite (negbTE HK) scale0r.
by rewrite gamE /gamma_entry Hlt /gamma_upper Hp Z.eqb_refl.
Qed.

Lemma gam_sum_none (I J : 'I_(rank A)) :
  (I < J)%nat ->
  gamma_pick n (Z.of_nat I) (Z.of_nat J) = None ->
  \sum_K gam I J K *: gen K = 0.
Proof.
move=> /ltP HIJ Hp.
have Hlt : (Z.of_nat I <? Z.of_nat J)%Z = true by apply/Z.ltb_lt; lia.
rewrite big1 // => K _.
by rewrite gamE /gamma_entry Hlt /gamma_upper Hp scale0r.
Qed.

(** The commutator of two generators, the first of smaller index. *)
Lemma commutator_upper (I J : 'I_(rank A)) :
  (I < J)%nat ->
  gen I *m gen J - gen J *m gen I = \sum_K gam I J K *: gen K.
Proof.
move=> HIJ.
have [i [j [HpI Hij]]] := @pair_ordP n T g Hn I.
have [k [l [HpJ Hkl]]] := @pair_ordP n T g Hn J.
have HIJz : (0 <= Z.of_nat I < Z.of_nat J)%Z by move/ltP: HIJ; lia.
have HJz := @ord_rank n T g J.
have [iI [jI [iJ [jJ [HpI' HpJ' _ _ Hord]]]]] :=
  @pair_of_mono n _ _ Hn HIJz (proj2 HJz).
move: HpI' HpJ'; rewrite HpI HpJ => -[HiI HjI] [HiJ HjJ].
have Hord' : (i < k)%nat \/ (i = k /\ (j < l)%nat).
  case: Hord => [Hlt|[Heq Hlt]].
    by left; apply/ltP; lia.
  by right; split; [apply: val_inj => /=; lia|apply/ltP; lia].
have Hne_ij : i != j by rewrite neq_ltn Hij.
have Hne_kl : k != l by rewrite neq_ltn Hkl.
rewrite (gen_skew_unit HpI Hij) (gen_skew_unit HpJ Hkl) commutator_scaled.
have Hpick : gamma_pick n (Z.of_nat I) (Z.of_nat J) =
    if (i == k) && (j == l) then None
    else if i == k then Some (pair_idx n (Z.of_nat j) (Z.of_nat l), 1%Z)
    else if j == l then Some (pair_idx n (Z.of_nat i) (Z.of_nat k), 1%Z)
    else if j == k then Some (pair_idx n (Z.of_nat i) (Z.of_nat l), (-1)%Z)
    else None.
  by rewrite /gamma_pick HpI HpJ !Zeqb_ord.
have [Hik|Hik] := eqVneq i k.
  subst k; case: Hord' => [|[_ Hjl]]; first by rewrite ltnn.
  have Hne_jl : j != l by rewrite neq_ltn Hjl.
  have [K0 HK0] := @idx_ordP n T g j l Hjl.
  move: Hpick; rewrite eqxx (negbTE Hne_jl) /= -(pair_idx_ord HK0) => Hpick.
  rewrite (gam_sum_pick HIJ Hpick) (gen_skew_unit HK0 Hjl) scale1r.
  rewrite (skew_unit_row Hne_ij Hne_kl Hne_jl).
  by rewrite scalerN -scaleNr sign_of_triple opprK.
case: Hord' => [Hlt|[Heq _]]; last by rewrite Heq eqxx in Hik.
have [Hjl|Hjl] := eqVneq j l.
  subst l.
  have [K0 HK0] := @idx_ordP n T g i k Hlt.
  move: Hpick; rewrite (negbTE Hik) eqxx /= -(pair_idx_ord HK0) => Hpick.
  rewrite (gam_sum_pick HIJ Hpick) (gen_skew_unit HK0 Hlt) scale1r.
  rewrite (skew_unit_col Hne_ij Hne_kl Hik).
  rewrite scalerN -scaleNr [sign_of i j]sign_of_sym [sign_of k j]sign_of_sym.
  by rewrite sign_of_triple opprK.
have [Hjk|Hjk] := eqVneq j k.
  subst k.
  have Hil : (i < l)%nat by apply: ltn_trans Hij Hkl.
  have Hne_il : i != l by rewrite neq_ltn Hil.
  have [K0 HK0] := @idx_ordP n T g i l Hil.
  move: Hpick; rewrite (negbTE Hik) (negbTE Hjl) eqxx /=.
  rewrite -(pair_idx_ord HK0) => Hpick.
  rewrite (gam_sum_pick HIJ Hpick) (gen_skew_unit HK0 Hil).
  rewrite (skew_unit_chain Hne_ij Hne_il Hne_kl).
  rewrite [sign_of i j]sign_of_sym sign_of_triple.
  by rewrite (_ : IZR (-1) = -1) // scaleN1r scaleNr.
move: Hpick; rewrite (negbTE Hik) (negbTE Hjl) (negbTE Hjk) /= => Hpick.
have Hne_il : i != l by rewrite neq_ltn (ltn_trans Hlt Hkl).
by rewrite (gam_sum_none HIJ Hpick) (skew_unit_apart Hik Hne_il Hjk Hjl) scaler0.
Qed.

(** The commutator identity for every pair of generators. *)
Lemma commutator_gen (I J : 'I_(rank A)) :
  gen I *m gen J - gen J *m gen I = \sum_K gam I J K *: gen K.
Proof.
have Hanti (K : 'I_(rank A)) : gam I J K = - gam J I K.
  rewrite !gamE /gamma_entry.
  case: (Z.ltb_spec (Z.of_nat I) (Z.of_nat J)) => H1;
    case: (Z.ltb_spec (Z.of_nat J) (Z.of_nat I)) => H2; try lia.
  - by rewrite opp_IZR opprK.
  - by rewrite opp_IZR.
  - by rewrite oppr0.
have [HIJ|HJI|HIJ] := ltngtP I J.
- exact: commutator_upper.
- rewrite -opprB (commutator_upper HJI) -sumrN.
  by apply: eq_bigr => K _; rewrite Hanti scaleNr.
- have -> : I = J by apply: val_inj.
  rewrite subrr big1 // => K _.
  by rewrite gamE /gamma_entry Z.ltb_irrefl scale0r.
Qed.

End CommutatorFacts.

Section StructureConstants.
Import Ortho ExpMap.

Variables (n : Z) (T g : arr3).
Hypothesis Hn : (0 <= n)%Z.
Hypothesis HT : repr3 (dimN n) n n T (gen_entry n).
Hypothesis Hg : repr3 (dimN n) (dimN n) (dimN n) g (gamma_entry n).

Local Notation A := (Algebra n (dimN n) T g).

(** A structure constant is half the Frobenius product of a commutator
    with a generator. *)
Lemma gam_trace (I J K : 'I_(rank A)) :
  \tr ((gen I *m gen J - gen J *m gen I)^T *m gen K) = gam I J K *+ 2.
Proof.
rewrite (commutator_gen Hn HT Hg) raddf_sum /= mulmx_suml raddf_sum /=.
rewrite (bigD1 K) //= big1 ?addr0.
  move=> K' HK'; rewrite linearZ /= -scalemxAl linearZ /=.
  by rewrite (gen_trace Hn HT) (negbTE HK') mulr0.
rewrite linearZ /= -scalemxAl linearZ /= (gen_trace Hn HT) eqxx.
by rewrite mulr_natr.
Qed.

Lemma commutator_trace_swap (X Y W : 'M[R]_(dim A)) :
  X^T = - X -> Y^T = - Y -> W^T = - W ->
  \tr ((X *m Y - Y *m X)^T *m W) = - \tr ((X *m W - W *m X)^T *m Y).
Proof.
move=> HX HY HW.
rewrite !linearB /= !trmx_mul HX HY HW !mulmxN !mulNmx !opprK.
rewrite !mulmxBl !linearB /= opprB.
rewrite -[Y *m X *m W]mulmxA [\tr (Y *m _)]mxtrace_mulC.
by rewrite [\tr (X *m Y *m W)]mxtrace_mulC mulmxA.
Qed.

(** The structure constants are antisymmetric in their last two indices
    as well. *)
Lemma gam_antisym_last (I J K : 'I_(rank A)) : gam I J K = - gam I K J.
Proof.
have H := commutator_trace_swap (gen_antisym Hn HT I) (gen_antisym Hn HT J)
  (gen_antisym Hn HT K).
rewrite (gam_trace I J K) (gam_trace I K J) in H.
move: H; rewrite -(mulr_natr (gam I J K)) -(mulr_natr (gam I K J)) -mulNr.
exact: (mulIf two_neq0).
Qed.

End StructureConstants.

(** ** The Cayley step and the table of rows *)

Section CayleyFacts.
Import Ortho.

Variable n : nat.
Variable on_singular : 'M[R]_n -> res 'M[R]_n.
Implicit Types (S V G : 'M[R]_n) (lr : R).

Lemma half_step_antisym lr S :
  S^T = - S -> (2%:R^-1 *: (lr *: S))^T = - (2%:R^-1 *: (lr *: S)).
Proof. by move=> HS; rewrite !linearZ /= HS !scalerN. Qed.

(** On an antisymmetric gradient the update never meets a singular
    matrix. *)
Lemma apply_grads_row_skew lr S V :
  S^T = - S ->
  apply_grads_row on_singular lr S V =
  Ok (V *m ((1%:M - 2%:R^-1 *: (lr *: S)) *m
            invmx (1%:M + 2%:R^-1 *: (lr *: S)))).
Proof.
move=> HS; rewrite /apply_grads_row /matrix_inverse.
by rewrite (cayley_denominator_unit (half_step_antisym lr HS)).
Qed.

Lemma cayley_det (S : 'M[R]_n) :
  S^T = - S -> \det ((1%:M - S) *m invmx (1%:M + S)) = 1.
Proof.
move=> HS; have HD := cayley_denominator_unit HS.
have HDt : (1%:M + S)^T = 1%:M - S by rewrite linearD /= trmx1 HS.
have Hdet : \det (1%:M + S) != 0 by move: HD; rewrite unitmxE unitfE.
by rewrite det_mulmx -HDt det_tr det_inv mulfV.
Qed.

Lemma cayley_inverse (S : 'M[R]_n) :
  S^T = - S ->
  ((1%:M - S) *m invmx (1%:M + S)) *m ((1%:M + S) *m invmx (1%:M - S)) = 1%:M.
Proof.
move=> HS; have HD := cayley_denominator_unit HS.
have HN : 1%:M - S \in unitmx.
  have ->: 1%:M - S = (1%:M + S)^T by rewrite linearD /= trmx1 HS.
  by rewrite unitmx_tr.
by rewrite mulmxA -[_ *m _ *m (1%:M + S)]mulmxA mulVmx // mulmx1 mulmxV.
Qed.

End CayleyFacts.

Section TableFacts.
Import Ortho.

Variable n : nat.
Variable on_singular : 'M[R]_n -> res 'M[R]_n.
Implicit Types (V G M : 'M[R]_n) (lr : R) (v upd : seq 'M[R]_n)
  (idx : seq nat).

(** The new value of a row, from the row and its raw gradient. *)
Definition cayley_row lr V G : 'M[R]_n :=
  let S := 2%:R^-1 *: (lr *: get_grads_row V G) in
  V *m ((1%:M - S) *m invmx (1%:M + S)).

Lemma cayley_row_orthogonal lr V G :
  V^T *m V = 1%:M -> (cayley_row lr V G)^T *m cayley_row lr V G = 1%:M.
Proof.
move=> HV; rewrite /cayley_row /=.
rewrite trmx_mul mulmxA -[_ *m V^T *m V]mulmxA HV mulmx1.
apply: cayley_orthogonal; last apply: cayley_denominator_unit;
  exact: half_step_antisym (get_grads_row_antisym V G).
Qed.

Lemma update_rows lr (var grad : seq 'M[R]_n) :
  map_res (fun p => apply_grads_row on_singular lr p.1 p.2)
    (zip [seq get_grads_row p.1 p.2 | p <- zip var grad] var) =
  Ok [seq cayley_row lr p.1 p.2 | p <- zip var grad].
Proof.
elim: var grad => [|V var IH] [|G grad] //=.
rewrite (apply_grads_row_skew _ _ _ (get_grads_row_antisym V G)) /=.
by rewrite IH.
Qed.

Lemma minimizeE lr (g : indexed_slices n) v :
  minimize on_singular lr g v =
  Ok (scatter_update v (indices g)
        [seq cayley_row lr p.1 p.2
           | p <- zip [seq nth 0 v i | i <- indices g] (values g)]).
Proof. by rewrite /minimize /get_grads /apply_grads update_rows. Qed.

Lemma size_scatter_update v idx upd :
  all (fun i => i < size v)%nat idx -> size (scatter_update v idx upd) = size v.
Proof.
elim: idx upd v => [|i idx IH] [|u upd] v //= /andP[Hi Hall].
have Hsz : size (set_nth 0 v i u) = size v.
  by rewrite size_set_nth (maxn_idPr Hi).
by rewrite IH Hsz.
Qed.

Lemma nth_scatter_update_out v idx upd k :
  k \notin idx -> nth 0 (scatter_update v idx upd) k = nth 0 v k.
Proof.
elim: idx upd v => [|i idx IH] [|u upd] v //=.
rewrite inE negb_or => /andP[Hki Hk].
by rewrite IH // nth_set_nth /= (negbTE Hki).
Qed.

Lemma nth_scatter_update_in v idx upd j :
  uniq idx -> size upd = size idx -> (j < size idx)%nat ->
  nth 0 (scatter_update v idx upd) (nth 0%nat idx j) = nth 0 upd j.
Proof.
elim: idx upd v j => [|i idx IH] [|u upd] v j //= /andP[Hi Hu] [Hsz].
case: j => [|j] /=.
  by move=> _; rewrite nth_scatter_update_out // nth_set_nth /= eqxx.
by rewrite ltnS => Hj; apply: IH.
Qed.

Lemma scatter_update_all (P : 'M[R]_n -> Prop) v idx upd :
  all (fun i => i < size v)%nat idx ->
  (forall M, M \in v -> P M) -> (forall M, M \in upd -> P M) ->
  forall M, M \in scatter_update v idx upd -> P M.
Proof.
elim: idx upd v => [|i idx IH] [|u upd] v //= /andP[Hi Hall] Hv Hupd.
have Hsz : size (set_nth 0 v i u) = size v.
  by rewrite size_set_nth (maxn_idPr Hi).
apply: IH; rewrite ?Hsz //.
  move=> M /(nthP 0) [k Hk <-]; rewrite nth_set_nth /=.
  case: eqP => _; first by apply: Hupd; rewrite mem_head.
  by apply: Hv; apply: mem_nth; rewrite -Hsz.
by move=> M HM; apply: Hupd; rewrite inE HM orbT.
Qed.

Lemma mem_zip_fst (S1 S2 : eqType) (s : seq S1) (t : seq S2) x y :
  (x, y) \in zip s t -> x \in s.
Proof.
elim: s t => [|a s IH] [|b t] //=; rewrite !inE.
by case/orP => [/eqP[-> _]|/IH ->]; rewrite ?eqxx ?orbT.
Qed.

End TableFacts.

Section ExpGradFacts.
Import Ortho ExpMap.

Variables (n : Z) (T g : arr3).
Hypothesis Hn : (0 <= n)%Z.
Hypothesis HT : repr3 (dimN n) n n T (gen_entry n).
Hypothesis Hg : repr3 (dimN n) (dimN n) (dimN n) g (gamma_entry n).

Local Notation A := (Algebra n (dimN n) T g).

(** The matrix that [_exp_grad] inverts is a non-zero multiple of the
    identity plus an antisymmetric matrix. *)
Lemma exp_grad_denominator_unit (x : 'I_(rank A) -> R) :
  (\matrix_(k, l) (\sum_j x j * gam j k l) + deltaq *: 1%:M
     : 'M[R]_(rank A)) \in unitmx.
Proof.
set M : 'M[R]_(rank A) := \matrix_(k, l) _.
have HM : M^T = - M.
  apply/matrixP => k l; rewrite !mxE -sumrN; apply: eq_bigr => j _.
  by rewrite (gam_antisym_last Hn HT Hg) mulrN.
have HS : (deltaq^-1 *: M)^T = - (deltaq^-1 *: M).
  by rewrite linearZ /= HM scalerN.
have ->: M + deltaq *: 1%:M = deltaq *: (1%:M + deltaq^-1 *: M).
  by rewrite scalerDr scalerA mulfV ?deltaq_neq0 // scale1r addrC.
have := cayley_denominator_unit HS.
rewrite !unitmxE detZ !unitfE mulf_eq0 negb_or => ->.
by rewrite expf_neq0 // deltaq_neq0.
Qed.

Lemma exp_grad_item_ok
    (on_singular : 'M[R]_(rank A) -> res 'M[R]_(rank A))
    (x_raw y grad : 'M[R]_(dim A)) :
  exists out, exp_grad_item on_singular x_raw y grad = Ok out.
Proof.
rewrite /exp_grad_item /matrix_inverse.
rewrite (exp_grad_denominator_unit (coeffs_of x_raw)) /=.
by eexists.
Qed.

End ExpGradFacts.

Section ExpGradItem.
Import Ortho ExpMap.




End ExpGradItem.

(** ** The gradient of the exponential map, as specified *)

Section ExpGradClaim.
Import Ortho ExpMap.








End ExpGradClaim.

Section ExpMapFacts.
Import ExpMap.

Variable A : algebra.
Implicit Types (x : 'I_(rank A) -> R) (a : 'rV[R]_(rank A)).

Lemma alg_mxZ (s : R) x : alg_mx (fun I => s * x I) = s *: alg_mx x.
Proof.
by rewrite /alg_mx scaler_sumr; apply: eq_bigr => I _; rewrite scalerA.
Qed.

Lemma alg_mx_row (s : R) a :
  alg_mx (fun j => (s *: a) 0 j) = s *: alg_mx (fun j => a 0 j).
Proof. by rewrite -alg_mxZ; apply: eq_bigr => j _; rewrite mxE. Qed.

End ExpMapFacts.

Section ExpOneParameter.

Variable n : nat.
Implicit Types (X : 'M[R]_n) (s t : R).

Lemma expmxN X : expmx (- X) *m expmx X = 1%:M.
Proof.
have Hc : (- X) * X = X * (- X) by rewrite mulNr mulrN.
by rewrite -[_ *m _]/(expmx (- X) * expmx X) -(expmxD Hc) addNr expmx0.
Qed.

Lemma expmx_scale_add X s t :
  expmx (s *: X) *m expmx (t *: X) = expmx ((s + t) *: X).
Proof.
have Hc : (s *: X) * (t *: X) = (t *: X) * (s *: X).
  by rewrite -scalerAl -scalerAr -[RHS]scalerAl -[in RHS]scalerAr !scalerA mulrC.
by rewrite -[_ *m _]/(expmx (s *: X) * expmx (t *: X)) -(expmxD Hc) scalerDl.
Qed.

End ExpOneParameter.

(** ** The loss *)

Section LossFacts.
Import Embeddings.

Variable n : nat.
Implicit Types (a b q : 'M[R]_n).

Lemma einsum_jk_jkE a b : einsum_jk_jk a b = \tr (a^T *m b).
Proof.
rewrite /einsum_jk_jk /mxtrace exchange_big /=.
apply: eq_bigr => k _; rewrite mxE.
by apply: eq_bigr => j _; rewrite mxE.
Qed.

Lemma einsum_jk_jkC a b : einsum_jk_jk a b = einsum_jk_jk b a.
Proof.
by apply: eq_bigr => j _; apply: eq_bigr => k _; rewrite mulrC.
Qed.

Lemma einsum_self a : a^T *m a = 1%:M -> einsum_jk_jk a a = n%:R.
Proof. by move=> Ha; rewrite einsum_jk_jkE Ha mxtrace1. Qed.

Lemma einsum_square_ge0 a b (s : R) :
  (0 <= (einsum_jk_jk a a + s * s * einsum_jk_jk b b
         + 2%:R * s * einsum_jk_jk a b)%R)%Re.
Proof.
have ->: einsum_jk_jk a a + s * s * einsum_jk_jk b b
           + 2%:R * s * einsum_jk_jk a b =
         \sum_j \sum_k (a j k + s * b j k) * (a j k + s * b j k).
  rewrite /einsum_jk_jk !mulr_sumr -!big_split /=.
  apply: eq_bigr => j _; rewrite !mulr_sumr -!big_split /=.
  apply: eq_bigr => k _.
  rewrite -[2%:R]/(1 + 1) !(RaddE, RmulE) R1E.
  by Lra.nra.
apply: bigsum_ge0 => j _; apply: bigsum_ge0 => k _.
exact: Rle_0_sqr.
Qed.

Lemma trace_orthogonal a b :
  (0 < n)%nat -> a^T *m a = 1%:M -> b^T *m b = 1%:M ->
  (0 <= trace (a, b) <= 1)%Re.
Proof.
move=> Hn Ha Hb; rewrite /trace /= expr2.
have H1 := einsum_square_ge0 a b 1.
have H2 := einsum_square_ge0 a b (- 1).
move: H1 H2; rewrite !einsum_self // mulr1 mulrNN !mul1r mulrN1 mulNr.
set p := einsum_jk_jk a b.
have HN : (0 < (n%:R : R))%Re by rewrite -INR_natr; apply: lt_0_INR; apply/ltP.
set N : R := n%:R in HN *.
rewrite -[2%:R]/(1 + 1) !(RaddE, RmulE, RoppE) R1E RinvE => H1 H2.
have HNi : (N * / N = 1)%Re by apply: Rinv_r; Lra.lra.
have Hq : (p * / N * N = p)%Re by rewrite Rmult_assoc (Rmult_comm (/ N)) HNi; Lra.lra.
set q := (p * / N)%Re in Hq *.
have Hq1 : (- 1 <= q)%Re by Lra.nra.
have Hq2 : (q <= 1)%Re by Lra.nra.
by split; Lra.nra.
Qed.

Lemma trace_self a :
  (0 < n)%nat -> a^T *m a = 1%:M -> trace (a, a) = 1.
Proof.
move=> Hn Ha; rewrite /trace /= einsum_self // mulfV ?expr1n //.
exact: natr_neq0.
Qed.

Lemma trace_sym a b : trace (a, b) = trace (b, a).
Proof. by rewrite /trace /= einsum_jk_jkC. Qed.

(** Rotating both elements by the same orthogonal matrix changes
    nothing. *)
Lemma trace_rotate q a b :
  q^T *m q = 1%:M -> trace (q *m a, q *m b) = trace (a, b).
Proof.
move=> Hq; rewrite /trace /= !einsum_jk_jkE trmx_mul.
by rewrite mulmxA -[_ *m q^T *m q]mulmxA Hq mulmx1.
Qed.

End LossFacts.

(** ** Chunks of a list *)

Section ChunkFacts.
Import Np NpFacts Corpus.
Local Open Scope Z_scope.

Variable A : Type.
Implicit Types (l c : list A) (n k : Z).

Lemma zlenE l : zlen l = Z.of_nat (size l).
Proof. by elim: l => [|x l IH] //=; rewrite IH; lia. Qed.

Lemma znth_nth (B : Type) (s : list B) (k : Z) (x : B) :
  znth s k = Some x -> 0 <= k < zlen s /\ forall x0, nth x0 s (Z.to_nat k) = x.
Proof.
elim: s k => [|y s IH] k //=.
case: (Z.eqb_spec k 0) => [-> [<-]|Hk Hx].
  by split=> //; have := @zlen_ge0 _ s; lia.
have [Hr Hn] := IH _ Hx; split; first lia.
move=> x0; have ->: Z.to_nat k = (Z.to_nat (k - 1)).+1 by lia.
exact: Hn.
Qed.

Lemma chunk_count (L n : Z) :
  0 <= L -> 0 < n ->
  let c := (L + n - 1) / n in
  0 <= c /\ n * c < L + n /\ L <= n * c.
Proof.
move=> HL Hn c.
have := Z.div_mod (L + n - 1) n ltac:(lia).
have := Z.mod_pos_bound (L + n - 1) n Hn.
rewrite -/c => Hm Hd.
have Hc : 0 <= c by apply: Z.div_pos; lia.
by split=> //; nia.
Qed.

Lemma slice_chunk l (m k : nat) :
  (0 < m)%nat ->
  slice l (0 + Z.of_nat k * Z.of_nat m)
          (0 + Z.of_nat k * Z.of_nat m + Z.of_nat m) =
  take m (drop (k * m) l).
Proof.
move=> /ltP Hm; rewrite /slice /slice_bound zlenE.
set L := size l.
have ->: (0 + Z.of_nat k * Z.of_nat m <? 0) = false by apply/Z.ltb_ge; lia.
have ->: (0 + Z.of_nat k * Z.of_nat m + Z.of_nat m <? 0) = false
  by apply/Z.ltb_ge; lia.
have Hkm : Z.of_nat k * Z.of_nat m = Z.of_nat (k * m).
  by rewrite -multE Nat2Z.inj_mul.
rewrite Hkm; set p := (k * m)%nat.
have [Hle|Hgt] := leqP L p.
  have ->: drop p l = [::] by rewrite drop_oversize.
  have ->: Z.to_nat (Z.max 0 (Z.min (Z.of_nat L) (0 + Z.of_nat p))) = L.
    by move/leP: Hle; lia.
  by rewrite drop_size.
have Ha : Z.to_nat (Z.max 0 (Z.min (Z.of_nat L) (0 + Z.of_nat p))) = p.
  by move/ltP: Hgt; lia.
rewrite Ha.
have Hsz : size (drop p l) = (L - p)%nat by rewrite size_drop.
have [Hfit|Hover] := leqP (p + m)%nat L.
  congr take; move/leP: Hfit; move/ltP: Hgt; rewrite -plusE; lia.
have Hm1 : (size (drop p l) <= m)%nat.
  rewrite Hsz; apply/leP; move/ltP: Hover; move/ltP: Hgt.
  by rewrite -plusE -minusE; lia.
rewrite [RHS]take_oversize // take_oversize // Hsz.
apply/leP; move/ltP: Hover; move/ltP: Hgt.
by rewrite -plusE -minusE; lia.
Qed.

Lemma flatten_chunks l (m c : nat) :
  flatten [seq take m (drop (q * m) l) | q <- iota 0 c] = take (c * m) l.
Proof.
elim: c => [|c IH]; first by rewrite /= take0.
rewrite -addn1 iotaD map_cat flatten_cat IH /= cats0 add0n.
by rewrite mulnDl mul1n takeD.
Qed.

Lemma chunksE l (m : nat) :
  (0 < m)%nat ->
  chunks l (Z.of_nat m) =
  Ok [seq take m (drop (q * m) l)
     | q <- iota 0 (Z.to_nat ((zlen l + Z.of_nat m - 1) / Z.of_nat m))].
Proof.
move=> Hm; rewrite /chunks /range3.
have Hm' : 0 < Z.of_nat m by move/ltP: Hm; lia.
have ->: (Z.of_nat m =? 0) = false by apply/Z.eqb_neq; lia.
have ->: (0 <? Z.of_nat m) = true by apply/Z.ltb_lt.
rewrite /= Z.sub_0_r -map_comp; congr Ok.
by apply: eq_map => q /=; rewrite slice_chunk.
Qed.

End ChunkFacts.

(** ** Dictionaries and the vocabulary *)

Section DictFacts.
Import Np Dict.

Variables (K : eqType) (V : Type).
Implicit Types (d : dict K V) (k : K) (v : V).

Lemma dict_set_new d k v :
  k \notin keys d -> dict_set d k v = rcons d (k, v).
Proof.
elim: d => [|[k' v'] d IH] //=; rewrite inE negb_or eq_sym => /andP[Hk Hd].
by rewrite (negbTE Hk) IH.
Qed.

Lemma keys_dict_set d k v :
  keys (dict_set d k v) = if k \in keys d then keys d else rcons (keys d) k.
Proof.
elim: d => [|[k' v'] d IH] //=; rewrite inE [k == k']eq_sym.
case: eqP => [->|_] /=; first by [].
by rewrite IH; case: ifP.
Qed.

Lemma uniq_dict_set d k v : uniq (keys d) -> uniq (keys (dict_set d k v)).
Proof.
move=> Hu; rewrite keys_dict_set; case: ifP => // Hk.
by rewrite rcons_uniq Hk.
Qed.

Lemma dict_find_set d k v k' :
  dict_find (dict_set d k v) k' = if k == k' then Some v else dict_find d k'.
Proof.
elim: d => [|[k0 v0] d IH] /=; first by [].
case: (eqVneq k0 k) => [->|Hk0] /=; first by case: eqP.
rewrite IH; case: (eqVneq k0 k') => [Hk'|//].
by rewrite -Hk' eq_sym (negbTE Hk0).
Qed.

Lemma dict_find_keys d k : isSome (dict_find d k) = (k \in keys d).
Proof.
elim: d => [|[k' v'] d IH] //=; rewrite inE [k == k']eq_sym.
by case: eqP.
Qed.

Lemma dict_find_none d k : k \notin keys d -> dict_find d k = None.
Proof. by rewrite -dict_find_keys; case: (dict_find d k). Qed.

Lemma dict_find_cat d1 d2 k :
  dict_find (d1 ++ d2) k =
  if dict_find d1 k is Some v then Some v else dict_find d2 k.
Proof. by elim: d1 => [|[k' v'] d1 IH] //=; case: eqP. Qed.

Lemma foldl_dict_set d (items : seq (K * V)) :
  uniq (keys d ++ [seq p.1 | p <- items]) ->
  foldl (fun d p => dict_set d p.1 p.2) d items = d ++ items.
Proof.
elim: items d => [|[k v] items IH] d /= Hu; first by rewrite cats0.
have Hkd : k \notin keys d.
  by move: Hu; rewrite uniq_catC /= mem_cat negb_or => /andP[/andP[]].
rewrite dict_set_new // IH; first by rewrite /keys map_rcons cat_rcons.
by rewrite cat_rcons.
Qed.

(** A comprehension over items with distinct keys keeps the items as
    they come. *)
Lemma dict_of_uniq (items : seq (K * V)) :
  uniq [seq p.1 | p <- items] -> dict_of items = items.
Proof. by move=> Hu; rewrite /dict_of foldl_dict_set. Qed.

End DictFacts.

Section ListFacts.
Import Np Dict.

Lemma filter_zip_snd (A B : Type) (P : pred B) (s : seq B) (t : seq A) :
  size t = size s ->
  [seq p.2 | p <- zip t s & P p.2] = filter P s.
Proof.
elim: s t => [|x s IH] [|y t] //= [Hsz].
by case: ifP => _ /=; rewrite IH.
Qed.

Lemma map_swap_zip (A B : Type) (s : seq A) (t : seq B) :
  [seq (p.2, p.1) | p <- zip s t] = zip t s.
Proof. by elim: s t => [|x s IH] [|y t] //=; rewrite IH. Qed.

Lemma ids_uniq (a m : nat) : uniq [seq Z.of_nat i | i <- iota a m].
Proof.
rewrite map_inj_uniq ?iota_uniq // => i j H.
exact: Nat2Z.inj.
Qed.

Lemma dict_find_zip_ids (K : eqType) (s : seq K) (w : K) (a : nat) :
  w \in s ->
  dict_find (zip s [seq Z.of_nat i | i <- iota a (size s)]) w =
  Some (Z.of_nat (a + seq.index w s)).
Proof.
elim: s a => [|x s IH] a //=; rewrite inE [w == x]eq_sym.
case: eqP => [_ _|_ /= Hw]; first by rewrite addn0.
by rewrite IH // addSnnS.
Qed.

Lemma dict_find_ids_zip (V : Type) (s : seq V) (a k : nat) (x0 : V) :
  (k < size s)%nat ->
  dict_find (zip [seq Z.of_nat i | i <- iota a (size s)] s) (Z.of_nat (a + k))
  = Some (nth x0 s k).
Proof.
elim: s a k => [|x s IH] a [|k] //=.
- by move=> _; rewrite addn0 eqxx.
- rewrite ltnS => Hk.
  have ->: (Z.of_nat a == Z.of_nat (a + k.+1)) = false.
    by apply/eqP => /Nat2Z.inj /eqP; rewrite -{1}[a]addn0 eqn_add2l.
  by rewrite -addSnnS IH.
Qed.

Lemma dict_find_ids_range (V : Type) (s : seq V) (a : nat) (i : Z) (x : V) :
  dict_find (zip [seq Z.of_nat i | i <- iota a (size s)] s) i = Some x ->
  exists2 k, (k < size s)%nat & i = Z.of_nat (a + k).
Proof.
elim: s a => [|y s IH] a //=.
case: eqP => [<- _|_ /IH [k Hk ->]]; first by exists 0%nat; rewrite ?addn0.
by exists k.+1 => //; rewrite addSnnS.
Qed.

Lemma map_index_uniq (K : eqType) (s : seq K) :
  uniq s -> [seq seq.index x s | x <- s] = iota 0 (size s).
Proof.
case: s => [|x0 s] // Hu.
apply: (@eq_from_nth _ 0%nat); first by rewrite size_map size_iota.
move=> k; rewrite size_map => Hk.
by rewrite (nth_map x0) // nth_iota // index_uniq.
Qed.

Lemma dict_find_mem (K V : eqType) (d : dict K V) k v :
  dict_find d k = Some v -> (k, v) \in d.
Proof.
elim: d => [|[k' v'] d IH] //=; case: eqP => [-> [->]|_ /IH H].
  by rewrite mem_head.
by rewrite inE H orbT.
Qed.

Lemma mem_dict_find (K V : eqType) (d : dict K V) k v :
  uniq (keys d) -> (k, v) \in d -> dict_find d k = Some v.
Proof.
elim: d => [|[k' v'] d IH] //= /andP[Hk' Hu]; rewrite inE.
case/orP => [/eqP[-> ->]|Hin]; first by rewrite eqxx.
case: eqP => [Hk|_]; last exact: IH.
by case/negP: Hk'; rewrite Hk; apply/mapP; exists (k, v).
Qed.

Lemma dict_find_zip_mem (K V : eqType) (s : seq K) (t : seq V) x y :
  dict_find (zip s t) x = Some y -> x \in s /\ y \in t.
Proof.
elim: s t => [|a s IH] [|b t] //=; rewrite !inE [x == a]eq_sym.
case: eqP => [_ [->]|_ /IH [-> ->]]; first by rewrite eqxx.
by rewrite !orbT.
Qed.

Lemma dict_find_zip_swap (K V : eqType) (s : seq K) (t : seq V) x y :
  uniq s -> uniq t -> size s = size t ->
  dict_find (zip s t) x = Some y -> dict_find (zip t s) y = Some x.
Proof.
elim: s t => [|a s IH] [|b t] //= /andP[Ha Hs] /andP[Hb Ht] [Hsz].
case: eqP => [-> [->]|_ Hf]; first by rewrite eqxx.
have [_ Hy] := dict_find_zip_mem Hf.
case: eqP => [Hby|_]; first by rewrite Hby Hy in Hb.
exact: IH.
Qed.

End ListFacts.

Section VocabFacts.
Import Np Dict Vocab.
Local Open Scope Z_scope.

Variable tokenize : string -> seq string.
Variable lower : string -> string.
Variable set_iter : seq string -> seq string.

Local Notation to_tokens := (to_tokens tokenize lower).
Local Notation build_vocab := (build_vocab tokenize lower set_iter).

Definition count_docs (c : dict string Z) (corpora : seq string)
    : dict string Z :=
  foldl (fun c doc => counter_update c (set_iter (to_tokens doc))) c corpora.

Lemma counter_update_uniq (c : dict string Z) ws :
  uniq (keys c) -> uniq (keys (counter_update c ws)).
Proof.
rewrite /counter_update; elim: ws c => [|w ws IH] c Hu //=.
by apply: IH; apply: uniq_dict_set.
Qed.

Lemma count_docs_uniq c corpora :
  uniq (keys c) -> uniq (keys (count_docs c corpora)).
Proof.
rewrite /count_docs; elim: corpora c => [|doc docs IH] c Hu //=.
by apply: IH; apply: counter_update_uniq.
Qed.

Section Kept.

Variables (thr : Z) (vc : dict string Z).
Hypothesis Hvc : uniq (keys vc).

Let kept := [seq x <- vc | thr <=? x.2].
Let vocabL : dict string (Z * Z) :=
  [seq (p.2.1, (p.1, p.2.2)) | p <- enumerate vc & thr <=? p.2.2].
Let ks := [seq x.1 | x <- kept].
Let fs := [seq x.2 | x <- kept].
Let ids := [seq Z.of_nat i | i <- iota 0 (size kept)].

Lemma vocabL_keys : keys vocabL = ks.
Proof.
rewrite /keys /vocabL /ks /kept -map_comp.
rewrite -(@filter_zip_snd _ _ (fun x => thr <=? x.2) vc
            [seq Z.of_nat i | i <- iota 0 (size vc)]) -?map_comp //.
by rewrite size_map size_iota.
Qed.

Lemma vocabL_freqs : [seq p.2.2 | p <- vocabL] = fs.
Proof.
rewrite /vocabL /fs /kept -map_comp.
rewrite -(@filter_zip_snd _ _ (fun x => thr <=? x.2) vc
            [seq Z.of_nat i | i <- iota 0 (size vc)]) -?map_comp //.
by rewrite size_map size_iota.
Qed.

Lemma ks_uniq : uniq ks.
Proof.
apply: subseq_uniq Hvc; rewrite /ks /kept /keys.
by apply: map_subseq; apply: filter_subseq.
Qed.

Lemma size_ks : size ks = size kept. Proof. by rewrite size_map. Qed.
Lemma size_fs : size fs = size kept. Proof. by rewrite size_map. Qed.
Lemma size_vocabL : size vocabL = size kept.
Proof. by rewrite -size_ks -vocabL_keys /keys size_map. Qed.

Lemma dict_of_vocabL : dict_of vocabL = vocabL.
Proof. by apply: dict_of_uniq; rewrite -/(keys vocabL) vocabL_keys ks_uniq. Qed.

Lemma word_idE :
  dict_of [seq (p.2, p.1) | p <- enumerate (keys vocabL)] = zip ks ids.
Proof.
rewrite /enumerate map_swap_zip vocabL_keys size_ks.
apply: dict_of_uniq.
rewrite -/(unzip1 _) unzip1_zip ?ks_uniq //.
by rewrite !size_map size_iota.
Qed.

Lemma id_wordE : dict_of [seq (p.2, p.1) | p <- zip ks ids] = zip ids ks.
Proof.
rewrite map_swap_zip; apply: dict_of_uniq.
rewrite -/(unzip1 _) unzip1_zip ?ids_uniq //.
by rewrite !size_map size_iota.
Qed.

Lemma id_count_itemsE :
  map_res (fun p : string * (Z * Z) =>
             i <-- dict_get (zip ks ids) p.1 ;; Ok (i, p.2.2)) vocabL =
  Ok (zip ids fs).
Proof.
have Hfind w : w \in ks ->
    dict_get (zip ks ids) w = Ok (Z.of_nat (seq.index w ks)).
  move=> Hw; rewrite /dict_get /ids -size_ks.
  by rewrite (dict_find_zip_ids 0 Hw) add0n.
have Hall : forall p, p \in vocabL -> p.1 \in ks.
  by move=> p Hp; rewrite -vocabL_keys; apply: map_f.
have -> : zip ids fs =
    [seq (Z.of_nat (seq.index p.1 ks), p.2.2) | p <- vocabL].
  rewrite -[LHS]/(zip ids fs).
  have ->: [seq (Z.of_nat (seq.index p.1 ks), p.2.2) | p <- vocabL] =
           zip [seq Z.of_nat (seq.index w ks) | w <- keys vocabL]
               [seq p.2.2 | p <- vocabL].
    by rewrite /keys; elim: (vocabL) => [|p s IH] //=; rewrite IH.
  rewrite vocabL_freqs vocabL_keys; congr zip.
  by rewrite /ids -size_ks -(map_index_uniq ks_uniq) -map_comp.
elim: (vocabL) Hall => [|p s IH] Hall //=.
have Hp : p.1 \in ks by apply: Hall; rewrite mem_head.
have Hs : forall q, q \in s -> q.1 \in ks.
  by move=> q Hq; apply: Hall; rewrite inE Hq orbT.
by rewrite (Hfind _ Hp) /= (IH Hs).
Qed.

End Kept.

Lemma build_vocabE (thr : Z) (corpora : seq string) :
  let vc := count_docs [::] corpora in
  let kept := [seq x <- vc | thr <=? x.2] in
  let ks := [seq x.1 | x <- kept] in
  let fs := [seq x.2 | x <- kept] in
  let ids := [seq Z.of_nat i | i <- iota 0 (size kept)] in
  build_vocab thr corpora =
  Ok (Vocabulary vc
        [seq (p.2.1, (p.1, p.2.2)) | p <- enumerate vc & thr <=? p.2.2]
        (foldr Z.add 0 fs) (Z.of_nat (size kept))
        (zip ks ids) (zip ids ks) (zip ids fs)).
Proof.
move=> vc kept ks fs ids; rewrite /build_vocab -/(count_docs [::] corpora) -/vc.
have Hvc : uniq (keys vc) by apply: count_docs_uniq.
rewrite (dict_of_vocabL thr Hvc) (word_idE thr Hvc) (id_wordE thr vc).
rewrite (id_count_itemsE thr Hvc) /=.
rewrite dict_of_uniq.
  rewrite -/(unzip1 _) unzip1_zip ?ids_uniq //.
  by rewrite !size_map size_iota.
congr (Ok (Vocabulary _ _ _ _ _ _ _)).
  by congr (foldr _ _ _); rewrite /fs /kept -(vocabL_freqs thr vc) /values -map_comp.
by rewrite zlenE (size_vocabL thr vc).
Qed.

(** The number of documents in which a word occurs. *)
Definition doc_frequency (w : string) (corpora : seq string) : Z :=
  Z.of_nat (count (fun doc => w \in to_tokens doc) corpora).

Lemma counter_update_find (c : dict string Z) ws w :
  uniq ws ->
  dict_find (counter_update c ws) w =
  if w \in ws then Some (odflt 0 (dict_find c w) + 1) else dict_find c w.
Proof.
rewrite /counter_update; elim: ws c => [|x ws IH] c //= /andP[Hx Hu].
rewrite IH // dict_find_set inE [w == x]eq_sym.
case: (eqVneq x w) => [Hxw|Hxw] /=; last by [].
rewrite -Hxw (negbTE Hx).
by case: (dict_find c x).
Qed.

Hypothesis set_iterP : forall l, uniq (set_iter l) /\ set_iter l =i l.

Lemma count_docs_find c corpora w :
  dict_find (count_docs c corpora) w =
  if doc_frequency w corpora =? 0 then dict_find c w
  else Some (odflt 0 (dict_find c w) + doc_frequency w corpora).
Proof.
rewrite /count_docs /doc_frequency.
elim: corpora c => [|doc docs IH] c //=.
have [Hu Hi] := set_iterP (to_tokens doc).
rewrite IH counter_update_find // Hi.
set m := count _ docs.
case: (w \in to_tokens doc) => /=; last by rewrite add0n.
rewrite Zpos_P_of_succ_nat add0n.
by case: (Z.eqb_spec (Z.of_nat m) 0) => Hm; congr Some; lia.
Qed.

End VocabFacts.

Section VocabSpec.
Import Np Dict Vocab.
Local Open Scope Z_scope.

Lemma build_vocab_spec (tokenize : string -> seq string)
    (lower : string -> string) (set_iter : seq string -> seq string)
    (thr : Z) (corpora : seq string) :
  exists2 voc,
    build_vocab tokenize lower set_iter thr corpora = Ok voc &
    [/\ keys (word_id voc) = keys (vocab voc) /\ uniq (keys (word_id voc)),
        values (word_id voc) =
          [seq Z.of_nat i | i <- iota 0 (Z.to_nat (vocab_size voc))] /\
        vocab_size voc = zlen (vocab voc),
        forall w i, dict_find (word_id voc) w = Some i <->
                    dict_find (id_word voc) i = Some w
      & forall w i, dict_find (word_id voc) w = Some i ->
          exists2 c, dict_find (vocab_count voc) w = Some c /\ thr <= c
                   & dict_find (id_count voc) i = Some c].
Proof.
rewrite build_vocabE; eexists; first by reflexivity.
set vc := count_docs _ _ _ _ _.
have Hvc : uniq (keys vc) by apply: count_docs_uniq.
set kept := [seq x <- vc | thr <=? x.2].
set ks := [seq x.1 | x <- kept].
set fs := [seq x.2 | x <- kept].
set ids := [seq Z.of_nat i | i <- iota 0 (size kept)].
have Hks : uniq ks := ks_uniq thr Hvc.
have Hids : uniq ids := ids_uniq 0 (size kept).
have Hsz1 : size ks = size ids by rewrite !size_map size_iota.
have Hsz2 : size fs = size ids by rewrite !size_map size_iota.
split=> /=.
- rewrite /keys -/(unzip1 _) unzip1_zip ?Hsz1 //.
  by rewrite -/(keys _) (vocabL_keys thr vc).
- rewrite /values -/(unzip2 _) unzip2_zip ?Hsz1 // Nat2Z.id; split=> //.
  by rewrite zlenE (size_vocabL thr vc).
- move=> w i; split; first exact: dict_find_zip_swap.
  by apply: dict_find_zip_swap => //; rewrite Hsz1.
- move=> w i Hw.
  have [Hwks _] := dict_find_zip_mem Hw.
  move: Hw; rewrite /ids -(size_map (fun x => x.1) kept) -/ks.
  rewrite (dict_find_zip_ids 0 Hwks) add0n => -[<-].
  set k := seq.index w ks.
  have Hk : (k < size kept)%nat by rewrite -(size_map (fun x => x.1)) index_mem.
  exists (nth 0 fs k).
    have Hin : (w, nth 0 fs k) \in kept.
      have ->: (w, nth 0 fs k) = nth (w, 0) kept k.
        rewrite -[w in LHS](nth_index w Hwks) -/k.
        by rewrite /fs /ks !(nth_map (w, 0)) //; case: (nth _ _ _).
      exact: mem_nth.
    move: Hin; rewrite mem_filter /= => /andP[/Z.leb_le Hthr Hin].
    by split=> //; apply: mem_dict_find.
  have Hkf : (k < size fs)%nat by rewrite size_map.
  by have := dict_find_ids_zip 0 0 Hkf; rewrite add0n !size_map.
Qed.

Lemma build_vocab_frequency (tokenize : string -> seq string)
    (lower : string -> string) (set_iter : seq string -> seq string)
    (thr : Z) (corpora : seq string) :
  (forall l, uniq (set_iter l) /\ set_iter l =i l) ->
  exists2 voc,
    build_vocab tokenize lower set_iter thr corpora = Ok voc &
    forall w,
      let df := doc_frequency tokenize lower w corpora in
      [/\ dict_find (vocab_count voc) w = (if df =? 0 then None else Some df),
          dict_has (word_id voc) w = (0 <? df) && (thr <=? df)
        & forall i, dict_find (word_id voc) w = Some i ->
                    dict_find (id_count voc) i = Some df].
Proof.
move=> Hset.
have [voc Hvoc [[Hkeys Hu] _ _ Hcount]] :=
  build_vocab_spec tokenize lower set_iter thr corpora.
exists voc => // w df.
have Hvc : vocab_count voc = count_docs tokenize lower set_iter [::] corpora.
  by move: Hvoc; rewrite build_vocabE => -[<-].
have Hfind : dict_find (vocab_count voc) w =
             (if df =? 0 then None else Some df).
  by rewrite Hvc (@count_docs_find tokenize lower set_iter Hset).
have Hdf : 0 <= df by rewrite /df /doc_frequency; lia.
split=> //.
- rewrite /dict_has.
  case Hw: (dict_find (word_id voc) w) => [i|].
    have [c [Hc Hthr] _] := Hcount w i Hw.
    move: Hc; rewrite Hfind; case: (Z.eqb_spec df 0) => // Hne [Hcd].
    by symmetry; apply/andP; split; [apply/Z.ltb_lt|apply/Z.leb_le]; lia.
  symmetry; apply/negbTE; apply/negP => /andP[/Z.ltb_lt Hpos /Z.leb_le Hthr].
  have Hin : w \in keys (word_id voc).
    rewrite Hkeys.
    move: Hvoc; rewrite build_vocabE => -[<-] /=.
    rewrite (vocabL_keys thr); apply/mapP; exists (w, df) => //.
    rewrite mem_filter /=; apply/andP; split; first exact/Z.leb_le.
    apply: dict_find_mem; rewrite -Hvc Hfind.
    by have ->: (df =? 0) = false by apply/Z.eqb_neq; lia.
  by move: Hin; rewrite -dict_find_keys Hw.
- move=> i Hw; have [c [Hc _] Hi] := Hcount w i Hw.
  by move: Hc Hi; rewrite Hfind; case: (df =? 0) => // -[<-].
Qed.

End VocabSpec.

(** ** The co-occurrence tables *)

Section CooccurFacts.
Import Np NpFacts Dict Vocab Corpus Cooccur.
Local Open Scope Z_scope.

Lemma ZeqE (x y : Z) : (x == y) = (x =? y).
Proof. by []. Qed.

Definition fupd2 (f : Z -> Z -> Z) (i j v : Z) : Z -> Z -> Z :=
  fupd f i (fupd (f i) j v).

Lemma fupd2E f i j v a b :
  fupd2 f i j v a b = if (a =? i) && (b =? j) then v else f a b.
Proof.
rewrite /fupd2 /fupd.
case: (Z.eqb_spec a i) => [->|//] /=.
by case: (Z.eqb_spec b j).
Qed.

Lemma get2_repr d1 d2 m f i j :
  repr2 d1 d2 m f -> 0 <= i < d1 -> 0 <= j < d2 -> get2 m i j = Ok (f i j).
Proof.
move=> Hm Hi Hj.
have [row Hrow Rrow] := getitem_repr Hm Hi.
have [x Hx Rx] := getitem_repr Rrow Hj.
by rewrite /get2 Hrow /= Hx Rx.
Qed.

Lemma set2_repr d1 d2 m f i j v :
  repr2 d1 d2 m f -> 0 <= i < d1 -> 0 <= j < d2 ->
  exists2 m', set2 m i j v = Ok m' & repr2 d1 d2 m' (fupd2 f i j v).
Proof.
move=> Hm Hi Hj.
apply: (setitem_with_repr Hm Hi) => row Rrow.
apply: (setitem_with_repr Rrow Hj) => x _.
by exists v.
Qed.

Lemma repr_ext1 d l f g :
  (forall i, 0 <= i < d -> f i = g i) -> repr1 d l f -> repr1 d l g.
Proof.
move=> Hfg [Hlen Hcell]; split=> // i Hi.
by have [x Hx Hfx] := Hcell i Hi; exists x => //; rewrite Hfx; apply: Hfg.
Qed.

Lemma repr_ext2 d1 d2 m f g :
  (forall i j, 0 <= i < d1 -> 0 <= j < d2 -> f i j = g i j) ->
  repr2 d1 d2 m f -> repr2 d1 d2 m g.
Proof.
move=> Hfg [Hlen Hcell]; split=> // i Hi.
have [row Hrow Rrow] := Hcell i Hi; exists row => //.
by apply: repr_ext1 Rrow => j Hj; apply: Hfg.
Qed.

(** A counter in a [float32] cell follows the count up to 2^24 and
    stays there. *)
Definition cap : Z := 2 ^ 24.

Definition capped1 (f : Z -> Z) : Z -> Z := fun a => Z.min (f a) cap.

Definition capped2 (f : Z -> Z -> Z) : Z -> Z -> Z :=
  fun a b => Z.min (f a b) cap.

Lemma float32_round_exact z : 0 <= z <= cap -> float32_round z = z.
Proof.
rewrite /cap => -[H0 Hz]; rewrite /float32_round.
have [->|Hlt] : z = 2 ^ 24 \/ z < 2 ^ 24 by lia.
  by vm_compute.
have [->|Hpos] : z = 0 \/ 0 < z by lia.
  by [].
have Hlog : Z.log2 z < 24 by apply/Z.log2_lt_pow2.
have ->: Z.abs z = z by lia.
by have ->: (Z.log2 z - 23 <=? 0) = true by apply/Z.leb_le; lia.
Qed.

Lemma float32_round_succ c :
  0 <= c -> float32_round (Z.min c cap + 1) = Z.min (c + 1) cap.
Proof.
move=> Hc; have [Hlt|Hge] : c < cap \/ cap <= c by lia.
  have ->: Z.min c cap = c by lia.
  have ->: Z.min (c + 1) cap = c + 1 by lia.
  by apply: float32_round_exact; lia.
have ->: Z.min c cap = cap by lia.
have ->: Z.min (c + 1) cap = cap by lia.
by vm_compute.
Qed.

Lemma add_at2_repr d1 d2 m f i j :
  repr2 d1 d2 m (capped2 f) -> 0 <= f i j -> 0 <= i < d1 -> 0 <= j < d2 ->
  exists2 m', add_at2 m i j 1 = Ok m' &
              repr2 d1 d2 m' (capped2 (fupd2 f i j (f i j + 1))).
Proof.
move=> Hm Hf Hi Hj; rewrite /add_at2 (get2_repr Hm Hi Hj) /=.
have [m' -> Hm'] := set2_repr (float32_round (capped2 f i j + 1)) Hm Hi Hj.
exists m' => //; apply: repr_ext2 Hm' => a b _ _.
rewrite /capped2 !fupd2E; case: ifP => // _.
exact: float32_round_succ.
Qed.

Lemma add_at1_repr d l f i :
  repr1 d l (capped1 f) -> 0 <= f i -> 0 <= i < d ->
  exists2 l', add_at1 l i 1 = Ok l' &
              repr1 d l' (capped1 (fupd f i (f i + 1))).
Proof.
move=> Hl Hf Hi; rewrite /add_at1.
have [x Hx Rx] := getitem_repr Hl Hi.
rewrite Hx /= Rx.
have [l' -> Hl'] : exists2 l', setitem l i (float32_round (capped1 f i + 1))
    = Ok l' & repr1 d l' (fupd (capped1 f) i
                            (float32_round (capped1 f i + 1))).
  apply: (setitem_with_repr Hl Hi) => y _.
  by exists (float32_round (capped1 f i + 1)).
exists l' => //; apply: repr_ext1 Hl' => a _.
rewrite /capped1 /fupd; case: (a =? i) => //.
exact: float32_round_succ.
Qed.

Lemma zeros1_repr d : 0 <= d ->
  exists2 l, zeros1 d = Ok l & repr1 d l (fun _ => 0).
Proof.
move=> Hd; exists (repeatz d 0); last exact: repr_repeatz.
by rewrite /zeros1; have ->: (d <? 0) = false by apply/Z.ltb_ge.
Qed.

Lemma zeros2_repr d1 d2 : 0 <= d1 -> 0 <= d2 ->
  exists2 m, zeros2 d1 d2 = Ok m & repr2 d1 d2 m (fun _ _ => 0).
Proof.
move=> H1 H2; exists (repeatz d1 (repeatz d2 0)).
  rewrite /zeros2.
  have ->: (d1 <? 0) = false by apply/Z.ltb_ge.
  by have ->: (d2 <? 0) = false by apply/Z.ltb_ge.
by do 2![apply: repr_repeatz => //].
Qed.

(** A loop over a list keeps an invariant that its body keeps. *)
Lemma for_in_inv (S B : Type) (body : S -> B -> res S)
    (Inv : S -> Prop) (P : B -> Prop) (l : seq B) (s : S) :
  Inv s -> (forall x, List.In x l -> P x) ->
  (forall t x, P x -> Inv t -> exists2 t', body t x = Ok t' & Inv t') ->
  exists2 s', for_in body l s = Ok s' & Inv s'.
Proof.
move=> Hs Hl Hbody; elim: l s Hs Hl => [|x l IH] s Hs Hl /=; first by exists s.
have [t -> Ht] /= := Hbody s x (Hl x (or_introl erefl)) Hs.
by apply: IH => // y Hy; apply: Hl; right.
Qed.

(** What the loops count: the occurrences of an id in a window, and the
    pairs of positions [p < q] of a window that hold [a] and [b], in
    either order. *)
Definition occurrences (w : Z) (ids : seq Z) : Z :=
  Z.of_nat (count_mem w ids).

Definition pairs_after (word : Z) (rest : seq Z) (a b : Z) : Z :=
  Z.of_nat (count (fun c => (a == word) && (b == c)) rest) +
  Z.of_nat (count (fun c => (a == c) && (b == word)) rest).

Fixpoint pair_count (ids : seq Z) (a b : Z) : Z :=
  match ids with
  | [::] => 0
  | word :: rest => pairs_after word rest a b + pair_count rest a b
  end.

Section Tabulation.

Variable V : Z.

Definition in_table (ids : seq Z) : Prop :=
  forall x, List.In x ids -> 0 <= x < V.

Lemma pairs_after_ge0 word rest a b : 0 <= pairs_after word rest a b.
Proof. by rewrite /pairs_after; lia. Qed.

Lemma pair_count_ge0 ids a b : 0 <= pair_count ids a b.
Proof.
elim: ids => [|w ids IH] //=.
by have := @pairs_after_ge0 w ids a b; lia.
Qed.

Lemma count_pair_spec word coword c fc :
  repr2 V V c (capped2 fc) -> (forall a b, 0 <= fc a b) ->
  0 <= word < V -> 0 <= coword < V ->
  exists2 c', count_pair word c coword = Ok c' &
    repr2 V V c'
      (capped2 (fun a b => fc a b + pairs_after word [:: coword] a b)).
Proof.
move=> Hc Hfc Hw Hcw; rewrite /count_pair.
have [c1 -> Hc1] /= := add_at2_repr Hc (Hfc word coword) Hw Hcw.
set f1 := fupd2 fc word coword _ in Hc1.
have Hf1 : 0 <= f1 coword word.
  rewrite /f1 fupd2E.
  by case: ifP => _; have := Hfc word coword; have := Hfc coword word; lia.
have [c2 -> Hc2] := add_at2_repr Hc1 Hf1 Hcw Hw.
exists c2 => //; apply: repr_ext2 Hc2 => a b Ha Hb.
rewrite /capped2; congr (Z.min _ _).
rewrite /f1 !fupd2E /pairs_after /= !addn0.
rewrite !ZeqE.
by repeat match goal with
  | |- context [Z.eqb ?x ?y] => destruct (Z.eqb_spec x y)
  end; subst; simpl; try lia.
Qed.

Lemma pairs_after_cons word x rest a b :
  pairs_after word (x :: rest) a b =
  pairs_after word [:: x] a b + pairs_after word rest a b.
Proof. by rewrite /pairs_after /= !addn0 !Nat2Z.inj_add; lia. Qed.

Lemma in_table_cons x ids : in_table (x :: ids) -> 0 <= x < V /\ in_table ids.
Proof.
by move=> H; split; [apply: H; left|move=> y Hy; apply: H; right].
Qed.

Lemma count_pair_loop word rest c fc :
  repr2 V V c (capped2 fc) -> (forall a b, 0 <= fc a b) ->
  0 <= word < V -> in_table rest ->
  exists2 c', for_in (count_pair word) rest c = Ok c' &
    repr2 V V c' (capped2 (fun a b => fc a b + pairs_after word rest a b)).
Proof.
move=> Hc Hfc Hw; elim: rest c fc Hc Hfc => [|x rest IH] c fc Hc Hfc Hrest /=.
  exists c => //; apply: repr_ext2 Hc => a b _ _.
  by rewrite /capped2 /pairs_after /=; congr (Z.min _ _); lia.
have [Hx Hrest'] := in_table_cons Hrest.
have [c1 -> Hc1] /= := count_pair_spec Hc Hfc Hw Hx.
have Hf1 : forall a b, 0 <= fc a b + pairs_after word [:: x] a b.
  by move=> a b; have := Hfc a b; have := @pairs_after_ge0 word [:: x] a b; lia.
have [c2 -> Hc2] := IH _ _ Hc1 Hf1 Hrest'.
exists c2 => //; apply: repr_ext2 Hc2 => a b _ _.
by rewrite /capped2 (pairs_after_cons word x rest); congr (Z.min _ _); lia.
Qed.

Lemma slice_from_suffix (pre : seq Z) (x : Z) (suf : seq Z) :
  slice_from (pre ++ x :: suf) (Z.of_nat (size pre) + 1) = suf.
Proof.
rewrite /slice_from /slice_bound zlenE size_cat /=.
have ->: (Z.of_nat (size pre) + 1 <? 0) = false by apply/Z.ltb_ge; lia.
have ->: Z.to_nat (Z.max 0 (Z.min (Z.of_nat (size pre + (size suf).+1))
                               (Z.of_nat (size pre) + 1))) = (size pre).+1.
  by rewrite -plusE; lia.
by rewrite -cat_rcons drop_size_cat // size_rcons.
Qed.

(** The loop over the positions of a window, from any position on. *)
Lemma count_position_loop (pre suf : seq Z) o c fo fc :
  repr1 V o (capped1 fo) -> repr2 V V c (capped2 fc) ->
  (forall w, 0 <= fo w) -> (forall a b, 0 <= fc a b) -> in_table suf ->
  exists2 t,
    for_in (count_position (pre ++ suf))
      (zip [seq Z.of_nat i | i <- iota (size pre) (size suf)] suf)
      (Tables o c) = Ok t &
    repr1 V (occur t) (capped1 (fun w => fo w + occurrences w suf)) /\
    repr2 V V (cooccur t) (capped2 (fun a b => fc a b + pair_count suf a b)).
Proof.
elim: suf pre o c fo fc => [|x suf IH] pre o c fo fc Ho Hc Hfo Hfc Hsuf /=.
  exists (Tables o c) => //; split.
    apply: repr_ext1 Ho => w _; rewrite /capped1 /occurrences /=.
    by congr (Z.min _ _); lia.
  by apply: repr_ext2 Hc => a b _ _; rewrite /capped2; congr (Z.min _ _); lia.
have [Hx Hsuf'] := in_table_cons Hsuf.
have [o1 -> Ho1] /= := add_at1_repr Ho (Hfo x) Hx.
rewrite slice_from_suffix.
have [c1 -> Hc1] /= := count_pair_loop Hc Hfc Hx Hsuf'.
have Hfo1 : forall w, 0 <= fupd fo x (fo x + 1) w.
  by move=> w; rewrite /fupd; case: ifP => _; have := Hfo w; have := Hfo x; lia.
have Hfc1 : forall a b, 0 <= fc a b + pairs_after x suf a b.
  by move=> a b; have := Hfc a b; have := @pairs_after_ge0 x suf a b; lia.
have := IH (rcons pre x) o1 c1 _ _ Ho1 Hc1 Hfo1 Hfc1 Hsuf'.
rewrite cat_rcons size_rcons => -[t -> [Hot Hct]].
exists t => //; split.
  apply: repr_ext1 Hot => w _; rewrite /capped1; congr (Z.min _ _).
  rewrite /fupd /occurrences /= ZeqE.
  by repeat match goal with
    | |- context [Z.eqb ?x ?y] => destruct (Z.eqb_spec x y)
    end; subst; rewrite /= ?add0n ?add1n ?Nat2Z.inj_succ; lia.
by apply: repr_ext2 Hct => a b _ _; rewrite /capped2; congr (Z.min _ _); lia.
Qed.

End Tabulation.

Section Windows.

Variable tokenize : string -> seq string.
Variable lower : string -> string.
Variable N : Z.
Variable voc : vocabulary.

Hypothesis Hids : forall w i,
  dict_find (word_id voc) w = Some i -> 0 <= i < vocab_size voc.

Local Notation V := (vocab_size voc).
Local Notation token_ids := (token_ids tokenize lower voc).
Local Notation count_window := (count_window tokenize lower voc).

Lemma token_ids_ok (window : string) :
  exists2 ids, token_ids window = Ok ids & in_table V ids.
Proof.
rewrite /token_ids /Cooccur.token_ids.
elim: (Vocab.to_tokens _ _ _) => [|w ws [ids Hids' Htab]] /=; first by exists [::].
rewrite /dict_has /dict_get; case Hw: (dict_find (word_id voc) w) => [i|] /=.
  rewrite /dict_get Hw /= Hids' /=; exists (i :: ids) => // x [<-|Hx].
    exact: Hids Hw.
  exact: Htab.
by exists ids.
Qed.

(** The sum of a count over the windows. *)
Definition sum_over (f : seq Z -> Z) (idss : seq (seq Z)) : Z :=
  foldr (fun ids acc => f ids + acc) 0 idss.

Lemma count_window_spec window o c fo fc :
  repr1 V o (capped1 fo) -> repr2 V V c (capped2 fc) ->
  (forall w, 0 <= fo w) -> (forall a b, 0 <= fc a b) ->
  exists ids t,
    [/\ token_ids window = Ok ids, in_table V ids,
        count_window (Tables o c) window = Ok t,
        repr1 V (occur t) (capped1 (fun w => fo w + occurrences w ids)) &
        repr2 V V (cooccur t)
          (capped2 (fun a b => fc a b + pair_count ids a b))].
Proof.
move=> Ho Hc Hfo Hfc; have [ids Hids' Htab] := token_ids_ok window.
have [t Ht [Hot Hct]] :=
  @count_position_loop V [::] ids o c fo fc Ho Hc Hfo Hfc Htab.
by exists ids, t; split=> //; rewrite /count_window /Cooccur.count_window Hids'.
Qed.

Lemma count_windows_spec (ws : seq string) o c fo fc :
  repr1 V o (capped1 fo) -> repr2 V V c (capped2 fc) ->
  (forall w, 0 <= fo w) -> (forall a b, 0 <= fc a b) ->
  exists idss t,
    [/\ map_res token_ids ws = Ok idss,
        for_in count_window ws (Tables o c) = Ok t,
        repr1 V (occur t)
          (capped1 (fun w => fo w + sum_over (occurrences w) idss)) &
        repr2 V V (cooccur t)
          (capped2 (fun a b =>
             fc a b + sum_over (fun ids => pair_count ids a b) idss))].
Proof.
elim: ws o c fo fc => [|w ws IH] o c fo fc Ho Hc Hfo Hfc /=.
  exists [::], (Tables o c); split=> //.
    by apply: repr_ext1 Ho => x _; rewrite /capped1 /=; congr (Z.min _ _); lia.
  apply: repr_ext2 Hc => a b _ _; rewrite /capped2 /=.
  by congr (Z.min _ _); lia.
have [ids [[o1 c1] [Hids' _ Ht Ho1 Hc1]]] := count_window_spec w Ho Hc Hfo Hfc.
have Hfo1 : forall x, 0 <= fo x + occurrences x ids.
  by move=> x; have := Hfo x; rewrite /occurrences; lia.
have Hfc1 : forall a b, 0 <= fc a b + pair_count ids a b.
  by move=> a b; have := Hfc a b; have := @pair_count_ge0 ids a b; lia.
have [idss [t [Hidss Hfor Hot Hct]]] := IH _ _ _ _ Ho1 Hc1 Hfo1 Hfc1.
exists (ids :: idss), t; split=> //.
- by rewrite Hids' /= Hidss.
- by rewrite Ht.
- by apply: repr_ext1 Hot => x _; rewrite /capped1 /=; congr (Z.min _ _); lia.
- apply: repr_ext2 Hct => a b _ _; rewrite /capped2 /=.
  by congr (Z.min _ _); lia.
Qed.

End Windows.

Lemma chunks_ok (A : Type) (l : list A) (n : Z) :
  n <> 0 -> exists cs, chunks l n = Ok cs.
Proof.
move=> Hn; rewrite /chunks /range3.
have ->: (n =? 0) = false by apply/Z.eqb_neq.
by eexists.
Qed.

Lemma windows_ok tokenize lower (corpora : seq string) (window_size : Z) :
  window_size <> 0 ->
  exists ws, windows tokenize lower corpora window_size = Ok ws.
Proof.
move=> Hn; rewrite /windows.
have [chunked ->] : exists chunked,
    map_res (fun doc => chunks (to_tokens tokenize lower doc) window_size)
      corpora = Ok chunked.
  elim: corpora => [|doc docs [cs Hcs]] /=; first by exists [::].
  have [c ->] /= := chunks_ok (to_tokens tokenize lower doc) Hn.
  by rewrite Hcs /=; eexists.
by eexists.
Qed.

Lemma mem_enumerate_from (A : eqType) (s : seq A) (k : nat) (i : Z) (x : A) :
  (i, x) \in zip [seq Z.of_nat j | j <- iota k (size s)] s <->
  Z.of_nat k <= i /\ znth s (i - Z.of_nat k) = Some x.
Proof.
elim: s k => [|y s IH] k /=; first by split=> // -[].
rewrite inE; split.
  case/orP => [/eqP[-> ->]|/IH [Hk Hz]].
    by rewrite Z.sub_diag /=; split=> //; lia.
  split; first lia.
  have ->: (i - Z.of_nat k =? 0) = false by apply/Z.eqb_neq; lia.
  by move: Hz; rewrite Nat2Z.inj_succ; congr (znth _ _ = _); lia.
case=> Hk; case: (Z.eqb_spec (i - Z.of_nat k) 0) => [Hi [->]|Hi Hz].
  by apply/orP; left; apply/eqP; congr (_, _); lia.
apply/orP; right; apply/IH; split; first lia.
by move: Hz; rewrite Nat2Z.inj_succ; congr (znth _ _ = _); lia.
Qed.

Lemma mem_enumerate (A : eqType) (s : seq A) (i : Z) (x : A) :
  (i, x) \in enumerate s <-> 0 <= i /\ znth s i = Some x.
Proof.
by rewrite /enumerate mem_enumerate_from /= Z.sub_0_r.
Qed.

Lemma znth_bound (A : Type) (s : seq A) (i : Z) (x : A) :
  0 <= i -> znth s i = Some x -> i < zlen s.
Proof.
elim: s i => [|y s IH] i //= Hi.
case: (Z.eqb_spec i 0) => [-> _|Hne Hz]; first by have := @zlen_ge0 _ s; lia.
by have := IH (i - 1) ltac:(lia) Hz; lia.
Qed.

Lemma mem_nonzero2 d1 d2 m f a b :
  repr2 d1 d2 m f ->
  (a, b) \in nonzero2 m <-> [/\ 0 <= a < d1, 0 <= b < d2 & f a b <> 0].
Proof.
move=> Hm; rewrite /nonzero2; split.
  case/flattenP => l /mapP[[a' row] /mem_enumerate [Ha Hrow] ->] /=.
  case/mapP => [[b' x]]; rewrite mem_filter /= => /andP[Hx /mem_enumerate].
  case=> Hb Hxb [-> ->].
  have Ha' : 0 <= a' < d1 by case: Hm => <- _; split=> //; apply: znth_bound Hrow.
  have [row' Hrow' Rrow] := (proj2 Hm) a' Ha'.
  move: Hrow'; rewrite Hrow => -[Hrr]; rewrite -Hrr in Rrow.
  have Hb' : 0 <= b' < d2 by case: Rrow => <- _; split=> //; apply: znth_bound Hxb.
  have [x' Hx' Rx] := (proj2 Rrow) b' Hb'.
  move: Hx'; rewrite Hxb => -[Hxx]; split=> //.
  by rewrite -Rx -Hxx; move/negP: Hx => Hx /Z.eqb_eq.
case=> Ha Hb Hf.
have [row Hrow Rrow] := (proj2 Hm) a Ha.
have [x Hx Rx] := (proj2 Rrow) b Hb.
apply/flattenP; exists [seq (a, q.1) | q <- enumerate row & negb (q.2 =? 0)].
  apply/mapP; exists (a, row) => //.
  by apply/mem_enumerate; split=> //; lia.
apply/mapP; exists (b, x) => //.
rewrite mem_filter /=; apply/andP; split.
  by apply/negP => /Z.eqb_eq Hx0; apply: Hf; rewrite -Rx.
by apply/mem_enumerate; split=> //; lia.
Qed.

End CooccurFacts.

Section CooccurSpec.
Import Np NpFacts Dict Vocab Corpus Cooccur.
Local Open Scope Z_scope.

Lemma dict_find_values (K V : eqType) (d : dict K V) k v :
  dict_find d k = Some v -> v \in values d.
Proof. by move/dict_find_mem => H; apply/mapP; exists (k, v). Qed.

Lemma pairs_after_sym word rest a b :
  pairs_after word rest a b = pairs_after word rest b a.
Proof.
rewrite /pairs_after Z.add_comm; congr (Z.of_nat _ + Z.of_nat _);
  by apply: eq_count => c; rewrite andbC.
Qed.

Lemma pair_count_sym ids a b : pair_count ids a b = pair_count ids b a.
Proof. by elim: ids => [|w ids IH] //=; rewrite IH (pairs_after_sym w). Qed.

Lemma sum_over_ext (f g : seq Z -> Z) idss :
  (forall ids, f ids = g ids) -> sum_over f idss = sum_over g idss.
Proof. by move=> Hfg; elim: idss => [|ids idss IH] //=; rewrite Hfg IH. Qed.

Lemma map_res_ok (B C : Type) (f : B -> res C) (h : B -> C)
    (P : B -> Prop) (l : seq B) :
  (forall x, P x -> f x = Ok (h x)) -> (forall x, List.In x l -> P x) ->
  map_res f l = Ok [seq h x | x <- l].
Proof.
move=> Hf; elim: l => [|x l IH] Hl //=.
have Hx : P x by apply: Hl; left.
have Hl' : forall y, List.In y l -> P y by move=> y Hy; apply: Hl; right.
by rewrite (Hf _ Hx) /= (IH Hl').
Qed.

(** The value of an entry of [self.p], from the counts. *)
Definition p_value (fo : Z -> Z) (fc : Z -> Z -> Z) (pair : Z * Z) : R :=
  ((IZR (fc pair.1 pair.2) /
    Rmax (sqrt (IZR (fo pair.1) * IZR (fo pair.2))) epsilon) ^+ 2)%R.

Lemma p_entry_repr d o c fo fc a b :
  repr1 d o fo -> repr2 d d c fc -> 0 <= a < d -> 0 <= b < d ->
  p_entry (Tables o c) (a, b) = Ok (p_value fo fc (a, b)).
Proof.
move=> Ho Hc Ha Hb; rewrite /p_entry /= (get2_repr Hc Ha Hb) /=.
have [x -> ->] /= := getitem_repr Ho Ha.
by have [y -> ->] /= := getitem_repr Ho Hb.
Qed.

Lemma build_cooccur_spec (tokenize : string -> seq string)
    (lower : string -> string) (set_iter : seq string -> seq string)
    (N thr : Z) (corpora : seq string) (window_size : Z) :
  window_size <> 0 ->
  exists voc ws idss r,
    [/\ build_vocab tokenize lower set_iter thr corpora = Ok voc,
        windows tokenize lower corpora window_size = Ok ws /\
        map_res (token_ids tokenize lower voc) ws = Ok idss,
        build_cooccur tokenize lower N voc corpora window_size = Ok r,
        repr1 (vocab_size voc) (occur (co_tables r))
          (capped1 (fun w => sum_over (occurrences w) idss)) /\
        repr2 (vocab_size voc) (vocab_size voc) (cooccur (co_tables r))
          (capped2 (fun a b =>
             sum_over (fun ids => pair_count ids a b) idss)) &
        [/\ nonzero r = nonzero2 (cooccur (co_tables r)),
            index_pairs r = [seq p <- nonzero r | p.1 <? p.2],
            remaining_DoF r = vocab_size voc * N - zlen (index_pairs r) &
            co_p r =
            [seq p_value (capped1 (fun w => sum_over (occurrences w) idss))
                   (capped2 (fun a b =>
                      sum_over (fun ids => pair_count ids a b) idss))
                   pq
            | pq <- index_pairs r]]].
Proof.
move=> Hws.
have [voc Hvoc [_ [Hval Hsize] _ _]] :=
  build_vocab_spec tokenize lower set_iter thr corpora.
have HV : 0 <= vocab_size voc by rewrite Hsize; apply: zlen_ge0.
have Hids : forall w i,
    dict_find (word_id voc) w = Some i -> 0 <= i < vocab_size voc.
  move=> w i /dict_find_values; rewrite Hval => /mapP[j].
  by rewrite mem_iota add0n => /andP[_ /ltP Hj] ->; lia.
have [ws Hwin] := windows_ok tokenize lower corpora Hws.
have [c0 Hc0 Rc0] := zeros2_repr HV HV.
have [o0 Ho0 Ro0] := zeros1_repr HV.
have Ro0' : repr1 (vocab_size voc) o0 (capped1 (fun _ => 0)).
  exact: repr_ext1 Ro0.
have Rc0' : repr2 (vocab_size voc) (vocab_size voc) c0
              (capped2 (fun _ _ => 0)).
  exact: repr_ext2 Rc0.
have [idss [t [Hidss Hfor Hot Hct]]] :=
  count_windows_spec tokenize lower Hids ws Ro0' Rc0'
    (fun _ => Z.le_refl 0) (fun _ _ => Z.le_refl 0).
have Hp : map_res (p_entry t)
             [seq p <- nonzero2 (cooccur t) | p.1 <? p.2] =
          Ok [seq p_value (capped1 (fun w => sum_over (occurrences w) idss))
                (capped2 (fun a b =>
                   sum_over (fun ids => pair_count ids a b) idss))
                pq
             | pq <- [seq p <- nonzero2 (cooccur t) | p.1 <? p.2]].
  apply: (@map_res_ok _ _ _ _
    (fun pr => 0 <= pr.1 < vocab_size voc /\ 0 <= pr.2 < vocab_size voc)).
    move=> [a b] /= [Ha Hb]; case: t Hot Hct {Hfor} => o c /= Hot Hct.
    have Hot' : repr1 (vocab_size voc) o
                  (capped1 (fun w => sum_over (occurrences w) idss)) := Hot.
    have Hct' : repr2 (vocab_size voc) (vocab_size voc) c
                  (capped2 (fun a b =>
                     sum_over (fun ids => pair_count ids a b) idss))
      := Hct.
    exact: (p_entry_repr Hot' Hct' Ha Hb).
  move=> [a b] Hin.
  have : (a, b) \in [seq p <- nonzero2 (cooccur t) | p.1 <? p.2].
    by elim: (filter _ _) Hin => [|y l IH] //= [->|/IH H];
       rewrite inE ?eqxx ?H ?orbT.
  rewrite mem_filter => /andP[_].
  by move/(mem_nonzero2 a b Hct) => [Ha Hb _].
exists voc, ws, idss.
eexists; split; first exact: Hvoc.
- by split.
- by rewrite /build_cooccur Hwin /= Hc0 /= Ho0 /= Hfor /= Hp /=; reflexivity.
- by [].
- by [].
Qed.

Lemma sum_over_occurrences w idss :
  sum_over (occurrences w) idss = occurrences w (flatten idss).
Proof.
elim: idss => [|ids idss IH] //=.
by rewrite IH /occurrences count_cat -plusE Nat2Z.inj_add.
Qed.

Lemma occurrences_ge0 w ids : 0 <= occurrences w ids.
Proof. by rewrite /occurrences; lia. Qed.

Lemma pairs_afterE word rest a b :
  pairs_after word rest a b =
  (if a =? word then occurrences b rest else 0) +
  (if b =? word then occurrences a rest else 0).
Proof.
rewrite /pairs_after /occurrences -!ZeqE.
congr (_ + _).
  case: (a == word) => /=; last by rewrite count_pred0.
  by congr Z.of_nat; apply: eq_count => c /=; rewrite eq_sym.
case: (b == word) => /=; last first.
  by rewrite (@eq_count _ _ pred0) ?count_pred0 // => c /=; rewrite andbF.
by congr Z.of_nat; apply: eq_count => c /=; rewrite andbT eq_sym.
Qed.

Lemma pair_count_bound ids a b :
  0 <= pair_count ids a b <= occurrences a ids * occurrences b ids.
Proof.
elim: ids => [|w ids IH] /=; first by rewrite /occurrences /=; lia.
rewrite pairs_afterE.
have Ha := @occurrences_ge0 a ids; have Hb := @occurrences_ge0 b ids.
have Hoa : occurrences a (w :: ids) =
           (if a =? w then 1 else 0) + occurrences a ids.
  rewrite /occurrences /= ZeqE Z.eqb_sym -plusE Nat2Z.inj_add.
  by case: (a =? w).
have Hob : occurrences b (w :: ids) =
           (if b =? w then 1 else 0) + occurrences b ids.
  rewrite /occurrences /= ZeqE Z.eqb_sym -plusE Nat2Z.inj_add.
  by case: (b =? w).
rewrite Hoa Hob.
by case: (a =? w); case: (b =? w); nia.
Qed.

Lemma sum_over_bound (idss : seq (seq Z)) a b :
  0 <= sum_over (fun ids => pair_count ids a b) idss <=
  sum_over (occurrences a) idss * sum_over (occurrences b) idss.
Proof.
elim: idss => [|ids idss IH] /=; first lia.
have H := @pair_count_bound ids a b.
have Ha := @occurrences_ge0 a ids; have Hb := @occurrences_ge0 b ids.
have Ha' : 0 <= sum_over (occurrences a) idss.
  by rewrite sum_over_occurrences; apply: occurrences_ge0.
have Hb' : 0 <= sum_over (occurrences b) idss.
  by rewrite sum_over_occurrences; apply: occurrences_ge0.
by nia.
Qed.

Lemma epsilon_lt1 : (epsilon < 1)%Re.
Proof.
rewrite /epsilon RinvE RpowE -INR_natr.
have H1 : (1 < INR 10)%Re by apply: lt_1_INR; lia.
have H2 : (1 < pow (INR 10) 5)%Re by apply: Rlt_pow_R1 => //; lia.
have := Rinv_1_lt_contravar 1 _ (Rle_refl 1) H2.
by rewrite Rinv_1.
Qed.

Lemma p_value_formula (fo : Z -> Z) (fc : Z -> Z -> Z) (a b : Z) :
  1 <= fc a b <= fo a * fo b -> 0 <= fo a -> 0 <= fo b ->
  [/\ (epsilon < sqrt (IZR (fo a) * IZR (fo b)))%Re,
      p_value fo fc (a, b) =
        (IZR (fc a b) * IZR (fc a b) / (IZR (fo a) * IZR (fo b)))%Re &
      (0 < p_value fo fc (a, b))%Re].
Proof.
move=> [Hc1 Hc2] Ha Hb.
have Hx : (1 <= IZR (fo a) * IZR (fo b))%Re.
  by rewrite -mult_IZR; apply: IZR_le; lia.
set x := (IZR (fo a) * IZR (fo b))%Re in Hx *.
have Hs1 : (1 <= sqrt x)%Re by rewrite -sqrt_1; apply: sqrt_le_1_alt.
have Hss : (sqrt x * sqrt x = x)%Re by apply: sqrt_sqrt; Lra.lra.
have Heps := epsilon_lt1.
have Hmax : Rmax (sqrt x) epsilon = sqrt x by apply: Rmax_left; Lra.lra.
have Hc : (1 <= IZR (fc a b))%Re by apply: IZR_le.
have Hp : p_value fo fc (a, b) =
          (IZR (fc a b) * IZR (fc a b) / x)%Re.
  have Hdiv (u v : R) : (u / v)%R = (u * / v)%Re by rewrite -RinvE.
  rewrite /p_value /= -/x Hmax expr2 Hdiv RmulE /Rdiv.
  have ->: (/ x = / sqrt x * / sqrt x)%Re by rewrite -Rinv_mult Hss.
  by set t := (/ sqrt x)%Re; set c := IZR (fc a b); Lra.nra.
have Hc0 : (0 < IZR (fc a b))%Re by move: Hc; Lra.lra.
have Hx0 : (0 < x)%Re by move: Hx; Lra.lra.
split=> //; first exact: Rlt_le_trans Heps Hs1.
rewrite Hp; apply: Rdiv_lt_0_compat => //.
exact: Rmult_lt_0_compat.
Qed.

End CooccurSpec.

(** ** The loss of a batch *)

Section BatchLossFacts.
Import Embeddings.

Variable n : nat.

Lemma loss_nil_ge0 (l : seq ('M[R]_n * 'M[R]_n * R)) :
  (0 <= \sum_(p <- l) Rabs (trace p.1 - p.2))%Re.
Proof.
elim: l => [|x l IH]; first by rewrite big_nil; exact: Rle_refl.
rewrite big_cons RaddE.
by apply: Rplus_le_le_0_compat => //; exact: Rabs_pos.
Qed.

Lemma loss_term_le (l : seq ('M[R]_n * 'M[R]_n * R)) x :
  x \in l ->
  (Rabs (trace x.1 - x.2) <= \sum_(p <- l) Rabs (trace p.1 - p.2))%Re.
Proof.
move=> Hx; rewrite (big_rem x Hx) /= RaddE.
have := loss_nil_ge0 (rem x l).
set A := Rabs _; set B := \sum_(_ <- _) _ => HB.
by rewrite -[X in (X <= _)%Re]Rplus_0_r; apply: Rplus_le_compat_l.
Qed.

End BatchLossFacts.

(** ** The structure-constant loop *)

Section GammaLoop.
Import Np NpFacts Liegr Index Build.
Local Open Scope Z_scope.

(** X1: in the structure-constant loop, for generators I < J, the test of
    the [continue] ([iI == iJ] and [jI == jJ]) and the test of the last
    case ([iI == jJ]) are never true, and no two of the three other tests
    are true together: an iteration writes at most one pair of cells. *)
Theorem gamma_cases_exclusive (n I J : Z) :
  0 <= n -> 0 <= I < J -> J < dimN n ->
  exists iI iJ,
    [/\ row_of n I = Ok iI, row_of n J = Ok iJ &
        let jI := col_of n I iI in
        let jJ := col_of n J iJ in
        [/\ (iI =? iJ) && (jI =? jJ) = false,
            (iI =? jJ) = false,
            (iI =? iJ) && (jI =? iJ) = false &
            (jI =? jJ) && (jI =? iJ) = false]].
Proof.
move=> Hn HI HJ.
have [iI [jI [iJ [jJ [HpI HpJ [HrI HrJ] Hrng Hord]]]]] := pair_of_mono Hn HI HJ.
have HjI : col_of n I iI = jI by move: HpI; rewrite /pair_of HrI; case.
have HjJ : col_of n J iJ = jJ by move: HpJ; rewrite /pair_of HrJ; case.
exists iI, iJ; split=> //=; rewrite HjI HjJ.
by split; repeat match goal with
  | |- context [Z.eqb ?x ?y] => destruct (Z.eqb_spec x y)
  end; simpl; try lia.
Qed.

Lemma gamma_cases_exclusive_witness :
  (0 <= 4 /\ 0 <= 1 < 3 /\ 3 < dimN 4) /\
  exists iI iJ,
    [/\ row_of 4 1 = Ok iI, row_of 4 3 = Ok iJ &
        let jI := col_of 4 1 iI in
        let jJ := col_of 4 3 iJ in
        [/\ (iI =? iJ) && (jI =? jJ) = false,
            (iI =? jJ) = false,
            (iI =? iJ) && (jI =? iJ) = false &
            (jI =? jJ) && (jI =? iJ) = false]].
Proof.
have Hn : 0 <= 4 by [].
have HI : 0 <= 1 < 3 by [].
have HJ : 3 < dimN 4 by vm_compute.
split; first by [].
exact: (@gamma_cases_exclusive 4 1 3 Hn HI HJ).
Defined.

(** X2: in each of the three cases that can apply, the index
    [K = a - b + int(b*(n - 0.5*(b+1))) - 1] lies in 0..N-1 before the
    reduction modulo N, which therefore changes nothing, and [K] is the
    generator of the pair [(b, a)] of the two positions that the
    generators I < J do not share. *)
Theorem gamma_index_no_wrap (n I J : Z) :
  0 <= n -> 0 <= I < J -> J < dimN n ->
  exists iI jI iJ jJ,
    [/\ pair_of n I = (iI, jI), pair_of n J = (iJ, jJ) &
        forall a b,
          (iI = iJ /\ (a, b) = (jJ, jI)) \/
          (jI = jJ /\ (a, b) = (iJ, iI)) \/
          (jI = iJ /\ (a, b) = (jJ, iI)) ->
          let K := a - b + row_start n b - 1 in
          [/\ 0 <= K < dimN n, pair_index n (dimN n) a b = Ok K &
              pair_of n K = (b, a)]].
Proof.
move=> Hn HI HJ.
have [iI [jI [iJ [jJ [HpI HpJ _ Hrng Hord]]]]] := pair_of_mono Hn HI HJ.
exists iI, jI, iJ, jJ; split=> // a b Hcase K.
have Hab : 0 <= b < a /\ a < n.
  have Hne : iI <> iJ \/ jI <> jJ.
    have [//|Heq] : (iI <> iJ \/ jI <> jJ) \/ (iI = iJ /\ jI = jJ) by lia.
    have := @pair_of_inj n I J Hn ltac:(lia) ltac:(lia).
    by rewrite HpI HpJ; case: Heq => -> -> /(_ erefl); lia.
  by case: Hcase => [[H1 [-> ->]]|[[H1 [-> ->]]|[H1 [-> ->]]]]; lia.
have [HK Hr] := @pair_index_small n a b (proj1 Hab) (proj2 Hab).
have HKe : K = pair_idx n b a by rewrite /K /pair_idx; lia.
rewrite HKe; split=> //.
by apply: pair_of_idx; lia.
Qed.

Lemma gamma_index_no_wrap_witness :
  (0 <= 4 /\ 0 <= 0 < 4 /\ 4 < dimN 4) /\
  exists iI jI iJ jJ,
    [/\ pair_of 4 0 = (iI, jI), pair_of 4 4 = (iJ, jJ) &
        forall a b,
          (iI = iJ /\ (a, b) = (jJ, jI)) \/
          (jI = jJ /\ (a, b) = (iJ, iI)) \/
          (jI = iJ /\ (a, b) = (jJ, iI)) ->
          let K := a - b + row_start 4 b - 1 in
          [/\ 0 <= K < dimN 4, pair_index 4 (dimN 4) a b = Ok K &
              pair_of 4 K = (b, a)]].
Proof.
have Hn : 0 <= 4 by [].
have HI : 0 <= 0 < 4 by [].
have HJ : 4 < dimN 4 by vm_compute.
split; first by [].
exact: (@gamma_index_no_wrap 4 0 4 Hn HI HJ).
Defined.

(** X3: for every n >= 0 the structure-constant loops succeed and leave
    in gamma[I,J,K] the closed form [gamma_entry]: for I < J whose pairs
    share exactly one position, +1 or -1 at the K of the two unshared
    positions (+1 for a shared row or a shared column, -1 when the
    column of I is the row of J), the opposite values at [J,I,K], and 0
    everywhere else; so every entry is -1, 0 or 1 and gamma[I,J,.] has at
    most one non-zero entry. *)
Theorem gamma_entries (n : Z) :
  0 <= n ->
  exists A,
    init n = Ok A /\
    forall I J K, 0 <= I < dimN n -> 0 <= J < dimN n -> 0 <= K < dimN n ->
      [/\ get3 (alg_gamma A) I J K = Ok (gamma_entry n I J K),
          gamma_entry n I J K = -1 \/ gamma_entry n I J K = 0 \/
          gamma_entry n I J K = 1 &
          forall K', gamma_entry n I J K <> 0 -> gamma_entry n I J K' <> 0 ->
            K' = K].
Proof.
move=> Hn; have [T [g [Hinit _ Hg]]] := init_entries Hn.
exists (Algebra n (dimN n) T g); split=> // I J K HI HJ HK; split.
- exact: get3_repr Hg _ _ _.
- rewrite /gamma_entry /gamma_upper.
  case: (Z.ltb_spec I J) => HIJ.
    have [_ Hv] := @gamma_step_pick n I J nil Hn ltac:(lia) ltac:(lia).
    case Hp: (gamma_pick n I J) Hv => [[K0 v]|] Hv; last by right; left.
    have [_ Hv'] := Hv K0 v erefl.
    by case: (Z.eqb_spec K K0) => _; lia.
  case: (Z.ltb_spec J I) => HJI; last by right; left.
  have [_ Hv] := @gamma_step_pick n J I nil Hn ltac:(lia) ltac:(lia).
  case Hp: (gamma_pick n J I) Hv => [[K0 v]|] Hv; last by right; left.
  have [_ Hv'] := Hv K0 v erefl.
  by case: (Z.eqb_spec K K0) => _; lia.
- move=> K'; rewrite /gamma_entry /gamma_upper.
  case: (Z.ltb_spec I J) => HIJ.
    case: (gamma_pick n I J) => [[K0 v]|] //.
    by case: (Z.eqb_spec K K0) => // ->; case: (Z.eqb_spec K' K0).
  case: (Z.ltb_spec J I) => HJI //.
  case: (gamma_pick n J I) => [[K0 v]|] //.
  by case: (Z.eqb_spec K K0) => // ->; case: (Z.eqb_spec K' K0).
Qed.

Lemma gamma_entries_witness :
  0 <= 6 /\
  exists A,
    init 6 = Ok A /\
    forall I J K, 0 <= I < dimN 6 -> 0 <= J < dimN 6 -> 0 <= K < dimN 6 ->
      [/\ get3 (alg_gamma A) I J K = Ok (gamma_entry 6 I J K),
          gamma_entry 6 I J K = -1 \/ gamma_entry 6 I J K = 0 \/
          gamma_entry 6 I J K = 1 &
          forall K', gamma_entry 6 I J K <> 0 -> gamma_entry 6 I J K' <> 0 ->
            K' = K].
Proof.
have Hn : 0 <= 6 by [].
split; first by [].
exact: (@gamma_entries 6 Hn).
Defined.

End GammaLoop.

(** ** The algebra for every dimension *)

Section AlgebraProperties.
Import Np NpFacts Liegr Index Build Ortho ExpMap.

(** X4: for every n >= 0, not only for n in 2..5, the generators and the
    structure constants that the construction builds satisfy the
    commutator identity T_I.T_J - T_J.T_I = sum_K gamma[I,J,K].T_K. *)
Theorem commutator_identity_all (n : Z) :
  (0 <= n)%Z ->
  exists A,
    init n = Ok A /\
    forall I J : 'I_(rank A),
      gen I *m gen J - gen J *m gen I = \sum_K gam I J K *: gen K.
Proof.
move=> Hn; have [T [g [Hinit HT Hg]]] := init_entries Hn.
by exists (Algebra n (dimN n) T g); split=> // I J; apply: commutator_gen.
Qed.

Lemma commutator_identity_all_witness :
  (0 <= 7)%Z /\
  exists A,
    init 7 = Ok A /\
    forall I J : 'I_(rank A),
      gen I *m gen J - gen J *m gen I = \sum_K gam I J K *: gen K.
Proof.
have Hn : (0 <= 7)%Z by [].
split; first by [].
exact: (@commutator_identity_all 7 Hn).
Defined.

(** X5: the structure constants are antisymmetric in every pair of
    indices, not only the first two: gamma[I,J,K] = - gamma[I,K,J], and so
    they are invariant under cyclic shifts, gamma[I,J,K] = gamma[J,K,I]. *)
Theorem gamma_totally_antisymmetric (n : Z) :
  (0 <= n)%Z ->
  exists A,
    init n = Ok A /\
    forall I J K : 'I_(rank A),
      [/\ gam I J K = - gam J I K, gam I J K = - gam I K J &
          gam I J K = gam J K I].
Proof.
move=> Hn; have [T [g [Hinit HT Hg]]] := init_entries Hn.
exists (Algebra n (dimN n) T g); split=> // I J K.
have H12 (a b c : 'I_(rank (Algebra n (dimN n) T g))) :
    gam a b c = - gam b a c.
  rewrite !(gamE Hg) /gamma_entry.
  case: (Z.ltb_spec (Z.of_nat a) (Z.of_nat b)) => H1;
    case: (Z.ltb_spec (Z.of_nat b) (Z.of_nat a)) => H2; try lia.
  - by rewrite opp_IZR opprK.
  - by rewrite opp_IZR.
  - by rewrite oppr0.
have H23 := gam_antisym_last Hn HT Hg.
split=> //.
by rewrite H12 (H23 J I K) opprK.
Qed.

Lemma gamma_totally_antisymmetric_witness :
  (0 <= 4)%Z /\
  exists A,
    init 4 = Ok A /\
    forall I J K : 'I_(rank A),
      [/\ gam I J K = - gam J I K, gam I J K = - gam I K J &
          gam I J K = gam J K I].
Proof.
have Hn : (0 <= 4)%Z by [].
split; first by [].
exact: (@gamma_totally_antisymmetric 4 Hn).
Defined.

(** X6: the matrix B = sum_K x_K.gamma[K] + 1e-4.Identity that [_exp_grad]
    inverts is invertible for every input, so the gradient never meets
    the singular case of the matrix inverse: it returns a result for
    every item and, for an operation with as many outputs as inputs, one
    result per input, whatever the upstream batch. *)
Theorem exp_grad_never_singular (n : Z) :
  (0 <= n)%Z ->
  exists A,
    init n = Ok A /\
    forall (on_singular : 'M[R]_(rank A) -> res 'M[R]_(rank A)),
      (forall x_raw : 'M[R]_(dim A),
         (\matrix_(k, l) (\sum_j coeffs_of x_raw j * gam j k l)
            + deltaq *: 1%:M : 'M[R]_(rank A)) \in unitmx) /\
      (forall x_raw y grad : 'M[R]_(dim A),
         exists out, exp_grad_item on_singular x_raw y grad = Ok out) /\
      (forall op_inputs op_outputs grad : seq 'M[R]_(dim A),
         size op_outputs = size op_inputs ->
         exists2 outs,
           exp_grad on_singular op_inputs op_outputs grad = Ok outs &
           size outs = size op_inputs).
Proof.
move=> Hn; have [T [g [Hinit HT Hg]]] := init_entries Hn.
exists (Algebra n (dimN n) T g); split=> // on_singular.
have Hitem := exp_grad_item_ok Hn HT Hg on_singular.
split; first by move=> x_raw; apply: exp_grad_denominator_unit.
split=> // xs ys gs Hsz; rewrite /exp_grad Hsz eqxx /=.
move: (iota 0 (size xs)) (size_iota 0 (size xs)) => s <-.
elim: s => [|i s [outs Hs Hout]] /=; first by exists [::].
have [out ->] /= := Hitem (nth 0 xs i) (nth 0 ys i) (nth 0 gs i).
by rewrite Hs /=; exists (out :: outs) => //=; rewrite Hout.
Qed.

Lemma exp_grad_never_singular_witness :
  (0 <= 3)%Z /\
  exists A,
    init 3 = Ok A /\
    forall (on_singular : 'M[R]_(rank A) -> res 'M[R]_(rank A)),
      (forall x_raw : 'M[R]_(dim A),
         (\matrix_(k, l) (\sum_j coeffs_of x_raw j * gam j k l)
            + deltaq *: 1%:M : 'M[R]_(rank A)) \in unitmx) /\
      (forall x_raw y grad : 'M[R]_(dim A),
         exists out, exp_grad_item on_singular x_raw y grad = Ok out) /\
      (forall op_inputs op_outputs grad : seq 'M[R]_(dim A),
         size op_outputs = size op_inputs ->
         exists2 outs,
           exp_grad on_singular op_inputs op_outputs grad = Ok outs &
           size outs = size op_inputs).
Proof.
have Hn : (0 <= 3)%Z by [].
split; first by [].
exact: (@exp_grad_never_singular 3 Hn).
Defined.

End AlgebraProperties.

(** ** The exponential map *)

Section ExpMapProperties.
Import Np NpFacts Liegr Index Build Ortho ExpMap.

(** X7: the exponential map sends the zero coefficient vector to the
    identity matrix, for every item of a batch of zero vectors. *)
Theorem expm_zero (A : algebra) (k : nat) :
  expm (nseq k (0 : 'rV[R]_(rank A))) = nseq k (1%:M : 'M[R]_(dim A)).
Proof.
rewrite /expm -map_comp map_nseq /=; congr nseq.
have ->: alg_mx (fun j => (0 : 'rV[R]_(rank A)) 0 j) = 0 :> 'M[R]_(dim A).
  by rewrite /alg_mx big1 // => I _; rewrite mxE scale0r.
exact: expmx0.
Qed.

(** X8: the exponential map turns the opposite coefficient vector into
    the inverse matrix, which is the transpose:
    expm(-a).expm(a) = I and expm(-a) = expm(a)^T. *)
Theorem expm_opposite (n : Z) :
  (0 <= n)%Z ->
  exists A,
    init n = Ok A /\
    forall a : 'rV[R]_(rank A),
      exists M M' : 'M[R]_(dim A),
        [/\ expm [:: a; - a] = [:: M; M'], M' *m M = 1%:M & M' = M^T].
Proof.
move=> Hn; have [T [g [Hinit HT _]]] := init_entries Hn.
exists (Algebra n (dimN n) T g); split=> // a.
set A := Algebra n (dimN n) T g.
pose X : 'M[R]_(dim A) := alg_mx (fun j => a 0 j).
have HX : alg_mx (fun j => (- a) 0 j) = - X :> 'M[R]_(dim A).
  rewrite /X /alg_mx -sumrN; apply: eq_bigr => I _.
  by rewrite mxE scaleNr.
exists (expmx X), (expmx (- X)); split.
- by rewrite /expm /= HX.
- exact: expmxN.
- by rewrite expmx_tr (@alg_mx_antisym n T g Hn HT).
Qed.

Lemma expm_opposite_witness :
  (0 <= 3)%Z /\
  exists A,
    init 3 = Ok A /\
    forall a : 'rV[R]_(rank A),
      exists M M' : 'M[R]_(dim A),
        [/\ expm [:: a; - a] = [:: M; M'], M' *m M = 1%:M & M' = M^T].
Proof.
have Hn : (0 <= 3)%Z by [].
split; first by [].
exact: (@expm_opposite 3 Hn).
Defined.

(** X9: along one direction the exponential map turns sums into
    products: expm(s.a).expm(t.a) = expm((s+t).a). *)
Theorem expm_one_parameter (A : algebra) (a : 'rV[R]_(rank A)) (s t : R) :
  exists M1 M2 M3 : 'M[R]_(dim A),
    expm [:: s *: a; t *: a; (s + t) *: a] = [:: M1; M2; M3] /\
    M1 *m M2 = M3.
Proof.
pose X : 'M[R]_(dim A) := alg_mx (fun j => a 0 j).
exists (expmx (s *: X)), (expmx (t *: X)), (expmx ((s + t) *: X)); split.
  by rewrite /expm /= !alg_mx_row.
exact: expmx_scale_add.
Qed.

End ExpMapProperties.

(** ** The optimizer *)

Section OptimizerProperties.
Import Ortho.

(** X10: over the real numbers the matrix I + (lr/2).skew that the update
    inverts is invertible for every row V, gradient G and learning rate
    lr, because skew = V^T.G - G^T.V is antisymmetric: the update always
    returns V.(I - (lr/2).skew).(I + (lr/2).skew)^-1 and the singular
    case of the matrix inverse is never reached. *)
Theorem update_never_singular (n : nat)
    (on_singular : 'M[R]_n -> res 'M[R]_n) (lr : R) (V G : 'M[R]_n) :
  let S := 2%:R^-1 *: (lr *: get_grads_row V G) in
  1%:M + S \in unitmx /\
  apply_grads_row on_singular lr (get_grads_row V G) V =
  Ok (V *m ((1%:M - S) *m invmx (1%:M + S))).
Proof.
move=> S; split.
  by apply: cayley_denominator_unit; apply: half_step_antisym;
     exact: get_grads_row_antisym.
exact: apply_grads_row_skew (get_grads_row_antisym V G).
Qed.

(** X11: the update keeps the determinant of the row: a row of
    determinant 1 stays of determinant 1. *)
Theorem update_preserves_det (n : nat)
    (on_singular : 'M[R]_n -> res 'M[R]_n) (lr : R) (V G : 'M[R]_n) :
  exists2 Vnew,
    apply_grads_row on_singular lr (get_grads_row V G) V = Ok Vnew &
    \det Vnew = \det V.
Proof.
have HS := half_step_antisym lr (get_grads_row_antisym V G).
eexists; first exact: apply_grads_row_skew (get_grads_row_antisym V G).
by rewrite det_mulmx (cayley_det HS) mulr1.
Qed.

(** X12: the update leaves the row unchanged when the learning rate is 0,
    and when the gradient at an orthogonal row V has the form V.P with P
    symmetric, that is when it has no component along the manifold. *)
Theorem update_fixed_point (n : nat)
    (on_singular : 'M[R]_n -> res 'M[R]_n) (lr : R) (V G : 'M[R]_n) :
  lr = 0 \/ (V^T *m V = 1%:M /\ exists2 P, P^T = P & G = V *m P) ->
  apply_grads_row on_singular lr (get_grads_row V G) V = Ok V.
Proof.
move=> H; rewrite (apply_grads_row_skew _ _ _ (get_grads_row_antisym V G)).
have ->: 2%:R^-1 *: (lr *: get_grads_row V G) = 0.
  case: H => [->|[HV [P HP ->]]]; first by rewrite scale0r scaler0.
  rewrite get_grads_rowE trmx_mul HP !mulmxA HV mul1mx.
  by rewrite -mulmxA HV mulmx1 subrr !scaler0.
by rewrite subr0 addr0 invmx1 !mulmx1.
Qed.

Lemma update_fixed_point_witness :
  let V : 'M[R]_2 := 1%:M in
  let G : 'M[R]_2 := \matrix_(i, j) (i + 2 * j)%:R in
  let lr : R := 0 in
  let raise : 'M[R]_2 -> res 'M[R]_2 := fun _ => Raise InvalidArgumentError in
  (lr = 0 \/ (V^T *m V = 1%:M /\ exists2 P, P^T = P & G = V *m P)) /\
  apply_grads_row raise lr (get_grads_row V G) V = Ok V.
Proof.
move=> V G lr raise.
have H : lr = 0 \/ (V^T *m V = 1%:M /\ exists2 P, P^T = P & G = V *m P).
  by left.
split; first by [].
exact: (@update_fixed_point 2 raise lr V G H).
Defined.

(** X13: a step with the opposite learning rate and the same gradient
    undoes a step: it returns the row the step started from. *)
Theorem update_reversible (n : nat)
    (on_singular : 'M[R]_n -> res 'M[R]_n) (lr : R) (V G : 'M[R]_n) :
  exists2 V1,
    apply_grads_row on_singular lr (get_grads_row V G) V = Ok V1 &
    apply_grads_row on_singular (- lr) (get_grads_row V G) V1 = Ok V.
Proof.
have Hanti := get_grads_row_antisym V G.
have HS := half_step_antisym lr Hanti.
eexists; first exact: apply_grads_row_skew Hanti.
rewrite (apply_grads_row_skew _ _ _ Hanti) scaleNr scalerN opprK.
rewrite [1%:M + - _]/(1%:M - _) -mulmxA.
by rewrite (cayley_inverse HS) mulmx1.
Qed.

(** X14: one optimizer step on the table, for a batch whose row indices
    lie within the table: the step succeeds, the table keeps its length,
    the rows that the batch does not name are left as they were, and,
    when no row is named twice, each named row V with gradient G becomes
    V.(I - (lr/2).skew).(I + (lr/2).skew)^-1 for skew = V^T.G - G^T.V. *)
Theorem minimize_rows (n : nat)
    (on_singular : 'M[R]_n -> res 'M[R]_n) (lr : R)
    (g : indexed_slices n) (v : seq 'M[R]_n) :
  all (fun i => i < size v)%nat (indices g) ->
  exists2 v',
    minimize on_singular lr g v = Ok v' &
    [/\ size v' = size v,
        forall k, k \notin indices g -> nth 0 v' k = nth 0 v k &
        uniq (indices g) -> size (values g) = size (indices g) ->
        forall j, (j < size (indices g))%nat ->
          let V := nth 0 v (nth 0%nat (indices g) j) in
          let S := 2%:R^-1 *: (lr *: get_grads_row V (nth 0 (values g) j)) in
          nth 0 v' (nth 0%nat (indices g) j) =
          V *m ((1%:M - S) *m invmx (1%:M + S))].
Proof.
move=> Hidx; rewrite minimizeE; eexists; first by reflexivity.
split.
- exact: size_scatter_update.
- by move=> k Hk; rewrite nth_scatter_update_out.
- move=> Hu Hsz j Hj /=.
  have Hzip : size (zip [seq nth 0 v i | i <- indices g] (values g)) =
              size (indices g).
    by rewrite size_zip size_map Hsz minnn.
  rewrite nth_scatter_update_in // ?size_map ?Hzip //.
  rewrite (nth_map (0, 0)) ?Hzip // nth_zip ?size_map ?Hsz //=.
  by rewrite (nth_map 0%nat).
Qed.

Lemma minimize_rows_witness :
  let raise : 'M[R]_2 -> res 'M[R]_2 := fun _ => Raise InvalidArgumentError in
  let g : indexed_slices 2 := IndexedSlices [:: 1%nat] [:: 1%:M] in
  let v : seq 'M[R]_2 := [:: 1%:M; 1%:M] in
  let lr : R := 1 in
  all (fun i => i < size v)%nat (indices g) /\
  exists2 v',
    minimize raise lr g v = Ok v' &
    [/\ size v' = size v,
        forall k, k \notin indices g -> nth 0 v' k = nth 0 v k &
        uniq (indices g) -> size (values g) = size (indices g) ->
        forall j, (j < size (indices g))%nat ->
          let V := nth 0 v (nth 0%nat (indices g) j) in
          let S := 2%:R^-1 *: (lr *: get_grads_row V (nth 0 (values g) j)) in
          nth 0 v' (nth 0%nat (indices g) j) =
          V *m ((1%:M - S) *m invmx (1%:M + S))].
Proof.
move=> raise g v lr.
have Hidx : all (fun i => i < size v)%nat (indices g) by [].
split; first by [].
exact: (@minimize_rows 2 raise lr g v Hidx).
Defined.

(** X15: one optimizer step keeps the table on the manifold: when every
    row of the table is orthogonal and the row indices of the batch lie
    within the table, the step succeeds and every row of the new table is
    orthogonal, whatever the gradients and the learning rate, and also
    when a row is named more than once. *)
Theorem minimize_keeps_orthogonal (n : nat)
    (on_singular : 'M[R]_n -> res 'M[R]_n) (lr : R)
    (g : indexed_slices n) (v : seq 'M[R]_n) :
  (forall M, M \in v -> M^T *m M = 1%:M) ->
  all (fun i => i < size v)%nat (indices g) ->
  exists2 v',
    minimize on_singular lr g v = Ok v' &
    size v' = size v /\ forall M, M \in v' -> M^T *m M = 1%:M.
Proof.
move=> Hv Hidx; rewrite minimizeE; eexists; first by reflexivity.
split; first exact: size_scatter_update.
apply: (scatter_update_all Hidx Hv) => M /mapP[[V G]] /= Hin ->.
apply: cayley_row_orthogonal; apply: Hv.
have /mapP[i Hi ->] : V \in [seq nth 0 v i | i <- indices g].
  exact: mem_zip_fst Hin.
by apply: mem_nth; move/allP: Hidx; apply.
Qed.

Lemma minimize_keeps_orthogonal_witness :
  let raise : 'M[R]_2 -> res 'M[R]_2 := fun _ => Raise InvalidArgumentError in
  let G : 'M[R]_2 := \matrix_(i, j) (i + 2 * j)%:R in
  let g : indexed_slices 2 := IndexedSlices [:: 1%nat; 1%nat] [:: G; 1%:M] in
  let v : seq 'M[R]_2 := [:: 1%:M; 1%:M] in
  let lr : R := 1 in
  ((forall M, M \in v -> M^T *m M = 1%:M) /\
   all (fun i => i < size v)%nat (indices g)) /\
  exists2 v',
    minimize raise lr g v = Ok v' &
    size v' = size v /\ forall M, M \in v' -> M^T *m M = 1%:M.
Proof.
move=> raise G g v lr.
have Hv : forall M, M \in v -> M^T *m M = 1%:M.
  by move=> M; rewrite !inE orbb => /eqP ->; rewrite trmx1 mulmx1.
have Hidx : all (fun i => i < size v)%nat (indices g) by [].
split; first by [].
exact: (@minimize_keeps_orthogonal 2 raise lr g v Hv Hidx).
Defined.

End OptimizerProperties.

(** ** The similarity of two group elements *)

Section SimilarityProperties.
Import Embeddings.

(** X16: for two orthogonal n x n matrices, n > 0, the value
    (sum_jk a[j,k].b[j,k] / n)^2 that the loss compares with the target
    similarity lies between 0 and 1; it is 1 for a matrix with itself and
    symmetric in its two arguments. *)
Theorem trace_unit_interval (n : nat) (a b : 'M[R]_n) :
  (0 < n)%nat -> a^T *m a = 1%:M -> b^T *m b = 1%:M ->
  [/\ (0 <= trace (a, b) <= 1)%Re, trace (a, a) = 1 &
      trace (a, b) = trace (b, a)].
Proof.
move=> Hn Ha Hb; split.
- exact: trace_orthogonal.
- exact: trace_self.
- exact: trace_sym.
Qed.

Lemma trace_unit_interval_witness :
  let a : 'M[R]_2 := 1%:M in
  let b : 'M[R]_2 := - 1%:M in
  ((0 < 2)%nat /\ a^T *m a = 1%:M /\ b^T *m b = 1%:M) /\
  [/\ (0 <= trace (a, b) <= 1)%Re, trace (a, a) = 1 &
      trace (a, b) = trace (b, a)].
Proof.
move=> a b.
have Hn : (0 < 2)%nat by [].
have Ha : a^T *m a = 1%:M by rewrite /a trmx1 mulmx1.
have Hb : b^T *m b = 1%:M.
  by rewrite /b mulmxN mulmx1 raddfN /= opprK trmx1.
split; first by [].
exact: (@trace_unit_interval 2 a b Hn Ha Hb).
Defined.

(** X17: that value does not change when both matrices are multiplied
    on the left by the same orthogonal matrix: it depends on a^T.b
    only. *)
Theorem trace_left_invariant (n : nat) (q a b : 'M[R]_n) :
  q^T *m q = 1%:M ->
  trace (q *m a, q *m b) = trace (a, b) /\
  trace (a, b) = (\tr (a^T *m b) / n%:R) ^+ 2.
Proof.
by move=> Hq; split; [exact: trace_rotate|rewrite /trace /= einsum_jk_jkE].
Qed.

Lemma trace_left_invariant_witness :
  let q : 'M[R]_2 := - 1%:M in
  let a : 'M[R]_2 := 1%:M in
  let b : 'M[R]_2 := \matrix_(i, j) (i + 2 * j)%:R in
  q^T *m q = 1%:M /\
  (trace (q *m a, q *m b) = trace (a, b) /\
   trace (a, b) = (\tr (a^T *m b) / 2%:R) ^+ 2).
Proof.
move=> q a b.
have Hq : q^T *m q = 1%:M.
  by rewrite /q mulmxN mulmx1 raddfN /= opprK trmx1.
split; first by [].
exact: (@trace_left_invariant 2 q a b Hq).
Defined.

End SimilarityProperties.

(** ** The windows of a document *)

Section ChunkProperties.
Import Np NpFacts Corpus.
Local Open Scope Z_scope.

(** X18: for a positive chunk size the chunks, put end to end in the order
    they are yielded, give back the list. *)
Theorem chunks_concat (A : Type) (l : list A) (n : Z) :
  0 < n -> exists2 cs, chunks l n = Ok cs & flatten cs = l.
Proof.
move=> Hn.
have Hm : (0 < Z.to_nat n)%nat by apply/ltP; lia.
have Hid : Z.of_nat (Z.to_nat n) = n by rewrite Z2Nat.id; lia.
rewrite -{1}Hid (chunksE l Hm) Hid; eexists; first by reflexivity.
have [Hc [_ Hle]] := @chunk_count (zlen l) n (@zlen_ge0 _ l) Hn.
move: Hc Hle; set c := _ / _ => Hc Hle.
rewrite flatten_chunks take_oversize //.
apply/leP; rewrite -multE; apply/Nat2Z.inj_le.
by rewrite Nat2Z.inj_mul Hid Z2Nat.id // -zlenE; lia.
Qed.

Lemma chunks_concat_witness :
  0 < 2 /\ exists2 cs, chunks [:: 1; 2; 3; 4; 5] 2 = Ok cs &
                       flatten cs = [:: 1; 2; 3; 4; 5].
Proof.
have Hn : 0 < 2 by [].
split; first by [].
exact: (@chunks_concat Z [:: 1; 2; 3; 4; 5] 2 Hn).
Defined.

(** X19: for a positive chunk size n a list of length L gives ceil(L/n)
    chunks, and chunk k holds min(n, L - k.n) elements, at least one: every
    chunk but the last is full and none is empty. *)
Theorem chunks_sizes (A : Type) (l : list A) (n : Z) (cs : list (list A)) :
  0 < n -> chunks l n = Ok cs ->
  zlen cs = (zlen l + n - 1) / n /\
  forall k c, znth cs k = Some c ->
    zlen c = Z.min n (zlen l - k * n) /\ 0 < zlen c.
Proof.
move=> Hn.
have Hm : (0 < Z.to_nat n)%nat by apply/ltP; lia.
have Hid : Z.of_nat (Z.to_nat n) = n by rewrite Z2Nat.id; lia.
rewrite -{1}Hid (chunksE l Hm) Hid.
have [Hc [Hlt Hle]] := @chunk_count (zlen l) n (@zlen_ge0 _ l) Hn.
move: Hc Hlt Hle; set c := _ / _ => Hc Hlt Hle [<-].
split; first by rewrite zlenE size_map size_iota; lia.
move=> k ck Hz; have [Hk Hnth] := znth_nth Hz.
move: Hk; rewrite zlenE size_map size_iota => Hk.
have Hk' : (Z.to_nat k < Z.to_nat c)%nat by apply/ltP; lia.
rewrite -(Hnth [::]) (nth_map 0%nat) ?size_iota // nth_iota // add0n.
rewrite !zlenE size_take size_drop.
have Hkn : Z.of_nat (Z.to_nat k * Z.to_nat n) = k * n.
  by rewrite -multE Nat2Z.inj_mul Hid Z2Nat.id; lia.
move: Hlt Hle; rewrite zlenE => Hlt Hle.
have Hpos : k * n < Z.of_nat (size l) by nia.
case: ltnP => [/ltP|/leP]; rewrite -minusE => Hcmp; split; try lia.
Qed.

Lemma chunks_sizes_witness :
  (0 < 2 /\ chunks [:: 1; 2; 3; 4; 5] 2 = Ok [:: [:: 1; 2]; [:: 3; 4]; [:: 5]])
  /\ (zlen [:: [:: 1; 2]; [:: 3; 4]; [:: 5]] = (zlen [:: 1; 2; 3; 4; 5] + 2 - 1) / 2 /\
      forall k c, znth [:: [:: 1; 2]; [:: 3; 4]; [:: 5]] k = Some c ->
        zlen c = Z.min 2 (zlen [:: 1; 2; 3; 4; 5] - k * 2) /\ 0 < zlen c).
Proof.
have Hn : 0 < 2 by [].
have Hc : chunks [:: 1; 2; 3; 4; 5] 2 = Ok [:: [:: 1; 2]; [:: 3; 4]; [:: 5]].
  by vm_compute.
split; first by [].
exact: (@chunks_sizes Z [:: 1; 2; 3; 4; 5] 2 _ Hn Hc).
Defined.

(** X20: a chunk size of zero raises ValueError, and a negative chunk size
    yields no chunk at all, whatever the list holds. *)
Theorem chunks_nonpositive (A : Type) (l : list A) (n : Z) :
  n <= 0 ->
  chunks l n = if n =? 0 then Raise ValueError else Ok [::].
Proof.
move=> Hn; rewrite /chunks /range3.
case: (Z.eqb_spec n 0) => [->|Hn0] //=.
have ->: (0 <? n) = false by apply/Z.ltb_ge.
have ->: Z.to_nat ((0 - zlen l - n - 1) / - n) = 0%nat.
  have Hl := @zlen_ge0 _ l.
  have : (0 - zlen l - n - 1) / - n < 1.
    by apply: Z.div_lt_upper_bound; lia.
  by lia.
by [].
Qed.

Lemma chunks_nonpositive_witness :
  -2 <= 0 /\
  chunks [:: 1; 2; 3] (-2) = if -2 =? 0 then Raise ValueError else Ok [::].
Proof.
have Hn : -2 <= 0 by [].
split; first by [].
exact: (@chunks_nonpositive Z [:: 1; 2; 3] (-2) Hn).
Defined.

End ChunkProperties.

(** ** The vocabulary *)

Section VocabProperties.
Import Np Dict Vocab.
Local Open Scope Z_scope.

(** X21: whatever the tokenizer, the corpus and the threshold,
    [build_vocab] succeeds (no word is looked up that is missing) and
    numbers the kept words 0, 1, .., vocab_size-1 in the order of the
    vocabulary; [id_word] is the inverse of [word_id]; and
    [id_count[word_id[w]]] is the count of w, which is at least the
    threshold. *)
Theorem build_vocab_ids (tokenize : string -> seq string)
    (lower : string -> string) (set_iter : seq string -> seq string)
    (thr : Z) (corpora : seq string) :
  exists2 voc,
    build_vocab tokenize lower set_iter thr corpora = Ok voc &
    [/\ keys (word_id voc) = keys (vocab voc) /\ uniq (keys (word_id voc)),
        values (word_id voc) =
          [seq Z.of_nat i | i <- iota 0 (Z.to_nat (vocab_size voc))] /\
        vocab_size voc = zlen (vocab voc),
        forall w i, dict_find (word_id voc) w = Some i <->
                    dict_find (id_word voc) i = Some w
      & forall w i, dict_find (word_id voc) w = Some i ->
          exists2 c, dict_find (vocab_count voc) w = Some c /\ thr <= c
                   & dict_find (id_count voc) i = Some c].
Proof. exact: build_vocab_spec. Qed.

(** X22: when the set of the tokens of a document is iterated without
    repetition, the count that [build_vocab] keeps for a word is the
    number of documents in which the word occurs (not the number of its
    occurrences); a word is in the vocabulary exactly when it occurs in at
    least one document and in at least [freq_threshold] documents, and
    [id_count[word_id[w]]] is that number of documents. *)
Theorem vocab_document_frequency (tokenize : string -> seq string)
    (lower : string -> string) (set_iter : seq string -> seq string)
    (thr : Z) (corpora : seq string) :
  (forall l, uniq (set_iter l) /\ set_iter l =i l) ->
  exists2 voc,
    build_vocab tokenize lower set_iter thr corpora = Ok voc &
    forall w,
      let df := doc_frequency tokenize lower w corpora in
      [/\ dict_find (vocab_count voc) w = (if df =? 0 then None else Some df),
          dict_has (word_id voc) w = (0 <? df) && (thr <=? df)
        & forall i, dict_find (word_id voc) w = Some i ->
                    dict_find (id_count voc) i = Some df].
Proof. exact: build_vocab_frequency. Qed.

Lemma vocab_document_frequency_witness :
  let tokenize : string -> seq string := fun s => [:: s] in
  let lower : string -> string := fun s => s in
  let corpora : seq string := [:: "a"; "b"; "a"]%string in
  (forall l : seq string, uniq (undup l) /\ undup l =i l) /\
  exists2 voc,
    build_vocab tokenize lower undup 2 corpora = Ok voc &
    forall w,
      let df := doc_frequency tokenize lower w corpora in
      [/\ dict_find (vocab_count voc) w = (if df =? 0 then None else Some df),
          dict_has (word_id voc) w = (0 <? df) && (2 <=? df)
        & forall i, dict_find (word_id voc) w = Some i ->
                    dict_find (id_count voc) i = Some df].
Proof.
move=> tokenize lower corpora.
have Hset : forall l : seq string, uniq (undup l) /\ undup l =i l.
  by move=> l; split; [exact: undup_uniq|exact: mem_undup].
split; first by [].
exact: (@vocab_document_frequency tokenize lower undup 2 corpora Hset).
Defined.

End VocabProperties.

(** ** The co-occurrence counts *)

Section CooccurProperties.
Import Np NpFacts Dict Vocab Corpus Cooccur.
Local Open Scope Z_scope.

(** X23: for a window size other than 0, [build_cooccur] after
    [build_vocab] succeeds (no word id falls outside the tables), the
    occurrence vector has vocab_size entries and the co-occurrence table
    vocab_size rows, the table is symmetric, and the index pairs are
    exactly the pairs a < b of ids whose cell cooccur[a,b] is not 0. *)
Theorem build_cooccur_symmetric (tokenize : string -> seq string)
    (lower : string -> string) (set_iter : seq string -> seq string)
    (N thr : Z) (corpora : seq string) (window_size : Z) :
  window_size <> 0 ->
  exists voc r,
    [/\ build_vocab tokenize lower set_iter thr corpora = Ok voc,
        build_cooccur tokenize lower N voc corpora window_size = Ok r,
        zlen (occur (co_tables r)) = vocab_size voc /\
        zlen (cooccur (co_tables r)) = vocab_size voc,
        forall a b, 0 <= a < vocab_size voc -> 0 <= b < vocab_size voc ->
          exists2 x, get2 (cooccur (co_tables r)) a b = Ok x &
                     get2 (cooccur (co_tables r)) b a = Ok x &
        forall a b, (a, b) \in index_pairs r <->
          [/\ 0 <= a, a < b, b < vocab_size voc &
              get2 (cooccur (co_tables r)) a b <> Ok 0]].
Proof.
move=> Hws.
have [voc [ws [idss [r [Hvoc _ Hr [Ho Hc] [Hnz Hip _ _]]]]]] :=
  build_cooccur_spec tokenize lower set_iter N thr corpora Hws.
exists voc, r; split=> //.
- by split; [case: Ho|case: Hc].
- move=> a b Ha Hb.
  exists (Z.min (sum_over (fun ids => pair_count ids a b) idss) cap).
    exact: (get2_repr Hc Ha Hb).
  rewrite (get2_repr Hc Hb Ha) /capped2; congr (Ok (Z.min _ _)).
  by apply: sum_over_ext => ids; rewrite pair_count_sym.
- move=> a b; rewrite Hip mem_filter Hnz /=; split.
    case/andP => /Z.ltb_lt Hab /(mem_nonzero2 a b Hc) [Ha Hb Hf].
    split; try lia.
    by rewrite (get2_repr Hc Ha Hb) => -[].
  case=> Ha Hab Hb Hf; apply/andP; split; first exact/Z.ltb_lt.
  apply/(mem_nonzero2 a b Hc); split; try lia.
  by move=> H0; apply: Hf; rewrite (get2_repr Hc) ?H0 //; lia.
Qed.

Lemma build_cooccur_symmetric_witness :
  let tokenize : string -> seq string := fun s => [:: s] in
  let lower : string -> string := fun s => s in
  let corpora : seq string := [:: "a"; "b"; "a"]%string in
  5 <> 0 /\
  exists voc r,
    [/\ build_vocab tokenize lower undup 0 corpora = Ok voc,
        build_cooccur tokenize lower 1 voc corpora 5 = Ok r,
        zlen (occur (co_tables r)) = vocab_size voc /\
        zlen (cooccur (co_tables r)) = vocab_size voc,
        forall a b, 0 <= a < vocab_size voc -> 0 <= b < vocab_size voc ->
          exists2 x, get2 (cooccur (co_tables r)) a b = Ok x &
                     get2 (cooccur (co_tables r)) b a = Ok x &
        forall a b, (a, b) \in index_pairs r <->
          [/\ 0 <= a, a < b, b < vocab_size voc &
              get2 (cooccur (co_tables r)) a b <> Ok 0]].
Proof.
move=> tokenize lower corpora.
have Hws : 5 <> 0 by [].
split; first by [].
exact: (@build_cooccur_symmetric tokenize lower undup 1 0 corpora 5 Hws).
Defined.

(** X24: the occurrence vector counts, for every id, the tokens of all
    windows that carry it, and cooccur[a,b] counts the pairs of positions
    p < q of one window that hold a and b in either order (a pair of equal
    ids counts twice): co-occurrences are counted inside windows only.
    Both tables are [float32] arrays, so a counter follows its count up
    to 2^24 = 16777216 and stays there. *)
Theorem build_cooccur_counts (tokenize : string -> seq string)
    (lower : string -> string) (set_iter : seq string -> seq string)
    (N thr : Z) (corpora : seq string) (window_size : Z) :
  window_size <> 0 ->
  exists voc ws idss r,
    [/\ build_vocab tokenize lower set_iter thr corpora = Ok voc,
        windows tokenize lower corpora window_size = Ok ws /\
        map_res (token_ids tokenize lower voc) ws = Ok idss,
        build_cooccur tokenize lower N voc corpora window_size = Ok r,
        forall w, 0 <= w < vocab_size voc ->
          getitem (occur (co_tables r)) w =
          Ok (Z.min (Z.of_nat (count_mem w (flatten idss))) (2 ^ 24)) &
        forall a b, 0 <= a < vocab_size voc -> 0 <= b < vocab_size voc ->
          get2 (cooccur (co_tables r)) a b =
          Ok (Z.min (sum_over (fun ids => pair_count ids a b) idss)
                (2 ^ 24))].
Proof.
move=> Hws.
have [voc [ws [idss [r [Hvoc Hwin Hr [Ho Hc] _]]]]] :=
  build_cooccur_spec tokenize lower set_iter N thr corpora Hws.
exists voc, ws, idss, r; split=> //.
- move=> w Hw; have [x -> ->] := getitem_repr Ho Hw.
  by rewrite /capped1 sum_over_occurrences.
- by move=> a b Ha Hb; rewrite (get2_repr Hc Ha Hb).
Qed.

Lemma build_cooccur_counts_witness :
  let tokenize : string -> seq string := fun s => [:: s] in
  let lower : string -> string := fun s => s in
  let corpora : seq string := [:: "a"; "b"; "a"]%string in
  5 <> 0 /\
  exists voc ws idss r,
    [/\ build_vocab tokenize lower undup 0 corpora = Ok voc,
        windows tokenize lower corpora 5 = Ok ws /\
        map_res (token_ids tokenize lower voc) ws = Ok idss,
        build_cooccur tokenize lower 1 voc corpora 5 = Ok r,
        forall w, 0 <= w < vocab_size voc ->
          getitem (occur (co_tables r)) w =
          Ok (Z.min (Z.of_nat (count_mem w (flatten idss))) (2 ^ 24)) &
        forall a b, 0 <= a < vocab_size voc -> 0 <= b < vocab_size voc ->
          get2 (cooccur (co_tables r)) a b =
          Ok (Z.min (sum_over (fun ids => pair_count ids a b) idss)
                (2 ^ 24))].
Proof.
move=> tokenize lower corpora.
have Hws : 5 <> 0 by [].
split; first by [].
exact: (@build_cooccur_counts tokenize lower undup 1 0 corpora 5 Hws).
Defined.

(** X25: for every index pair (a, b) the counts satisfy
    1 <= cooccur[a,b] <= occur[a].occur[b], so sqrt(occur[a].occur[b])
    is at least 1 and the guard [max(.., epsilon)] of the denominator
    never selects epsilon; the entry of [self.p] is
    cooccur[a,b]^2 / (occur[a].occur[b]), a positive number. *)
Theorem build_cooccur_targets (tokenize : string -> seq string)
    (lower : string -> string) (set_iter : seq string -> seq string)
    (N thr : Z) (corpora : seq string) (window_size : Z) :
  window_size <> 0 ->
  exists voc r,
    [/\ build_vocab tokenize lower set_iter thr corpora = Ok voc,
        build_cooccur tokenize lower N voc corpora window_size = Ok r,
        size (co_p r) = size (index_pairs r) &
        forall k, (k < size (index_pairs r))%nat ->
          let a := (nth (0, 0) (index_pairs r) k).1 in
          let b := (nth (0, 0) (index_pairs r) k).2 in
          exists c oa ob,
            [/\ [/\ get2 (cooccur (co_tables r)) a b = Ok c,
                    getitem (occur (co_tables r)) a = Ok oa &
                    getitem (occur (co_tables r)) b = Ok ob],
                1 <= c <= oa * ob /\ 1 <= oa /\ 1 <= ob,
                (epsilon < sqrt (IZR oa * IZR ob))%Re &
                nth 0%R (co_p r) k =
                  (IZR c * IZR c / (IZR oa * IZR ob))%Re /\
                (0 < nth 0%R (co_p r) k)%Re]].
Proof.
move=> Hws.
have [voc [ws [idss [r [Hvoc _ Hr [Ho Hc] [Hnz Hip _ Hp]]]]]] :=
  build_cooccur_spec tokenize lower set_iter N thr corpora Hws.
exists voc, r; split=> //; first by rewrite Hp size_map.
move=> k Hk a b.
set fo := fun w => sum_over (occurrences w) idss in Ho Hp.
set fc := fun a b => sum_over (fun ids => pair_count ids a b) idss in Hc Hp.
have Hin : (a, b) \in index_pairs r.
  by rewrite /a /b -surjective_pairing; apply: mem_nth.
move: Hin; rewrite Hip mem_filter Hnz => /andP[_].
move/(mem_nonzero2 a b Hc) => [Ha Hb Hne].
have [Hc0 Hc1] := @sum_over_bound idss a b.
have Hoa : 0 <= fo a.
  by rewrite /fo sum_over_occurrences; apply: occurrences_ge0.
have Hob : 0 <= fo b.
  by rewrite /fo sum_over_occurrences; apply: occurrences_ge0.
have Hcb : 0 <= fc a b <= fo a * fo b by rewrite /fc /fo.
have Hcap : cap = 2 ^ 24 by [].
have Hc2 : 1 <= capped2 fc a b <= capped1 fo a * capped1 fo b.
  move: Hne Hcb Hoa Hob; rewrite /capped2 /capped1.
  move: (fc a b) (fo a) (fo b) => C A B Hne HC HA HB.
  have HC1 : 1 <= C by lia.
  have HA1 : 1 <= A by nia.
  have HB1 : 1 <= B by nia.
  have [[_ ->]|[_ ->]] := Z.min_spec A cap;
  have [[_ ->]|[_ ->]] := Z.min_spec B cap; nia.
have Hoa' : 0 <= capped1 fo a by rewrite /capped1; lia.
have Hob' : 0 <= capped1 fo b by rewrite /capped1; lia.
have [He Hval Hpos] := p_value_formula Hc2 Hoa' Hob'.
have Hnth : nth 0%R (co_p r) k = p_value (capped1 fo) (capped2 fc) (a, b).
  by rewrite Hp (nth_map (0, 0)) // /a /b -surjective_pairing.
exists (capped2 fc a b), (capped1 fo a), (capped1 fo b); split.
- split; first exact: get2_repr Hc Ha Hb.
    by have [x -> ->] := getitem_repr Ho Ha.
  by have [x -> ->] := getitem_repr Ho Hb.
- by split=> //; nia.
- exact: He.
- by rewrite Hnth.
Qed.

Lemma build_cooccur_targets_witness :
  let tokenize : string -> seq string := fun s => [:: s] in
  let lower : string -> string := fun s => s in
  let corpora : seq string := [:: "a"; "b"; "a"]%string in
  5 <> 0 /\
  exists voc r,
    [/\ build_vocab tokenize lower undup 0 corpora = Ok voc,
        build_cooccur tokenize lower 1 voc corpora 5 = Ok r,
        size (co_p r) = size (index_pairs r) &
        forall k, (k < size (index_pairs r))%nat ->
          let a := (nth (0, 0) (index_pairs r) k).1 in
          let b := (nth (0, 0) (index_pairs r) k).2 in
          exists c oa ob,
            [/\ [/\ get2 (cooccur (co_tables r)) a b = Ok c,
                    getitem (occur (co_tables r)) a = Ok oa &
                    getitem (occur (co_tables r)) b = Ok ob],
                1 <= c <= oa * ob /\ 1 <= oa /\ 1 <= ob,
                (epsilon < sqrt (IZR oa * IZR ob))%Re &
                nth 0%R (co_p r) k =
                  (IZR c * IZR c / (IZR oa * IZR ob))%Re /\
                (0 < nth 0%R (co_p r) k)%Re]].
Proof.
move=> tokenize lower corpora.
have Hws : 5 <> 0 by [].
split; first by [].
exact: (@build_cooccur_targets tokenize lower undup 1 0 corpora 5 Hws).
Defined.

End CooccurProperties.

(** ** The loss *)

Section LossProperties.
Import Embeddings.

(** X26: the loss of a batch is never negative, and for orthogonal
    matrices it is at least s - 1 for every target s of the batch: a
    target above 1 keeps the loss away from 0 whatever the embeddings. *)
Theorem loss_lower_bound (n : nat) (pairs : seq ('M[R]_n * 'M[R]_n))
    (similarity : seq R) :
  (0 < n)%nat ->
  (forall p, p \in pairs -> p.1^T *m p.1 = 1%:M /\ p.2^T *m p.2 = 1%:M) ->
  (0 <= loss pairs similarity)%Re /\
  forall p s, (p, s) \in zip pairs similarity ->
    (s - 1 <= loss pairs similarity)%Re.
Proof.
move=> Hn Hort; split; first exact: loss_nil_ge0.
move=> p s Hin.
have Hp : p \in pairs by have /mem_zip_fst := Hin.
have [Ha Hb] := Hort p Hp.
have [_] := @trace_orthogonal n p.1 p.2 Hn Ha Hb.
rewrite -surjective_pairing => Ht.
have := loss_term_le Hin; rewrite /loss /= RaddE RoppE.
set t := trace p in Ht *; set L := \sum_(_ <- _) _.
by rewrite /Rabs; case: Rcase_abs => ? ?; Lra.lra.
Qed.

Lemma loss_lower_bound_witness :
  let a : 'M[R]_2 := 1%:M in
  let pairs := [:: (a, a)] in
  let similarity : seq R := [:: 4%:R] in
  ((0 < 2)%nat /\
   (forall p, p \in pairs -> p.1^T *m p.1 = 1%:M /\ p.2^T *m p.2 = 1%:M)) /\
  ((0 <= loss pairs similarity)%Re /\
   forall p s, (p, s) \in zip pairs similarity ->
     (s - 1 <= loss pairs similarity)%Re).
Proof.
move=> a pairs similarity.
have Hn : (0 < 2)%nat by [].
have Hort : forall p, p \in pairs ->
    p.1^T *m p.1 = 1%:M /\ p.2^T *m p.2 = 1%:M.
  by move=> p; rewrite inE => /eqP ->; rewrite /= /a trmx1 mulmx1.
split; first by [].
exact: (@loss_lower_bound 2 pairs similarity Hn Hort).
Defined.

End LossProperties.
